(** * git-etl: a shallow embedding of the ETL core in Rocq

    The sources embedded here are [src/src/database.ts] (its copy of the
    parser [parseGitLog], the upsert engine [insertCommits], [insertAuthors],
    [insertFileChanges], [insertTags], [upsertRepositoryMetadata]),
    the validators [validateEmail], [validateSha], [validateCommit],
    [validateAuthor] and the tag parser [parseGitTags]),
    [src/src/types.ts] ([aggregateDailyStats], [calculateSummaryStats]),
    [src/src/transforms.ts] ([aggregateAuthors]; its [calculateSummaryStats]
    is the same as that of [types.ts]), [src/unnamed/part_000]
    ([withTransaction]), the load step of [etlGitRepo] and the repository
    list of [loadRepositoriesConfig] in [src/main.ts].
    [src/src/git-parser.ts] has the same [parseGitLog] without the
    [fileChanges] field, and the same [getRepoInfo] and [getRepoLanguage]
    as [database.ts].

    Modelling choices:
    - JavaScript strings are [String.string] over ASCII; the JavaScript
      whitespace class (for [trim] and [/\s+/]) is its ASCII part.
    - A JavaScript [Date] is [option Z]: [Some t] is a valid date whose time
      value is [t] milliseconds since the epoch, [None] is an Invalid Date.
      [toISOString] on an Invalid Date raises a RangeError, so it returns an
      [option].
    - A JavaScript number holding a count or a timestamp is a [Z]; the
      double-precision rounding above 2^53 is not modelled.
    - A SQLite table is the list of its rows in rowid order; a UNIQUE key
      with [ON CONFLICT DO UPDATE] updates the row in place, [INSERT OR
      IGNORE] leaves the table as it is. *)

From Stdlib Require Import ZArith Lia List Bool Ascii String.
Import ListNotations.
Open Scope string_scope.
Open Scope Z_scope.

(* ================================================================== *)
(** * String primitives of the JavaScript runtime *)

Module JS.

Definition char_code (c : ascii) : nat := nat_of_ascii c.

(** [\s] and [String.prototype.trim]: tab, line feed, vertical tab,
    form feed, carriage return and space. *)
Definition is_ws (c : ascii) : bool :=
  let n := char_code c in
  (n =? 32)%nat || ((9 <=? n)%nat && (n <=? 13)%nat).

Fixpoint srev (s : string) : string :=
  match s with
  | EmptyString => EmptyString
  | String c s' => srev s' ++ String c EmptyString
  end.

Fixpoint starts_with (p s : string) : bool :=
  match p, s with
  | EmptyString, _ => true
  | String a p', String b s' => Ascii.eqb a b && starts_with p' s'
  | String _ _, EmptyString => false
  end.

Fixpoint sdrop (n : nat) (s : string) : string :=
  match n, s with
  | O, _ => s
  | S n', String _ s' => sdrop n' s'
  | S _, EmptyString => EmptyString
  end.

(** [includes]: does [sep] occur somewhere in [s]. *)
Fixpoint includes (sep s : string) : bool :=
  starts_with sep s ||
  match s with
  | EmptyString => false
  | String _ s' => includes sep s'
  end.

(** [s.split(sep)] for a non-empty separator string.  The scan keeps the
    current piece reversed in [rcur] and cuts as soon as the piece ends with
    the separator: for a separator of fixed length the earliest match end is
    the earliest match start, which is where the JavaScript algorithm cuts. *)
Fixpoint split_go (rsep s rcur : string) : list string :=
  match s with
  | EmptyString => [srev rcur]
  | String c s' =>
      let r := String c rcur in
      if starts_with rsep r
      then srev (sdrop (String.length rsep) r) :: split_go rsep s' EmptyString
      else split_go rsep s' r
  end.

Definition split (sep s : string) : list string := split_go (srev sep) s EmptyString.

(** [s.split(/\s+/)]: cut at every maximal run of whitespace. *)
Fixpoint split_ws_go (s cur : string) (in_run : bool) : list string :=
  match s with
  | EmptyString => [cur]
  | String c s' =>
      if is_ws c
      then if in_run then split_ws_go s' cur true
           else cur :: split_ws_go s' EmptyString true
      else split_ws_go s' (cur ++ String c EmptyString) false
  end.

Definition split_ws (s : string) : list string := split_ws_go s EmptyString false.

Fixpoint trim_start (s : string) : string :=
  match s with
  | EmptyString => EmptyString
  | String c s' => if is_ws c then trim_start s' else s
  end.

Fixpoint trim_end (s : string) : string :=
  match s with
  | EmptyString => EmptyString
  | String c s' =>
      let t := trim_end s' in
      if String.eqb t EmptyString && is_ws c then EmptyString else String c t
  end.

Definition trim (s : string) : string := trim_end (trim_start s).

(** [parseInt(s)] with no radix: leading whitespace, an optional sign, a
    [0x]/[0X] prefix selecting radix 16, then the longest run of digits of
    the radix.  [None] is NaN. *)
Definition digit_value (radix : Z) (c : ascii) : option Z :=
  let n := Z.of_nat (char_code c) in
  let v := if (48 <=? n) && (n <=? 57) then n - 48
           else if (97 <=? n) && (n <=? 122) then n - 87
           else if (65 <=? n) && (n <=? 90) then n - 55
           else 99 in
  if v <? radix then Some v else None.

Fixpoint digits_go (radix : Z) (s : string) (acc : option Z) : option Z :=
  match s with
  | EmptyString => acc
  | String c s' =>
      match digit_value radix c with
      | Some v => digits_go radix s' (Some (match acc with Some a => a | None => 0 end * radix + v))
      | None => acc
      end
  end.

Definition parseInt (s0 : string) : option Z :=
  let s := trim_start s0 in
  let '(sign, s) :=
    match s with
    | String "-" s' => (-1, s')
    | String "+" s' => (1, s')
    | _ => (1, s)
    end in
  let '(radix, s) :=
    match s with
    | String "0" (String x s') =>
        if Ascii.eqb x "x" || Ascii.eqb x "X" then (16, s') else (10, s)
    | _ => (10, s)
    end in
  option_map (fun v => sign * v) (digits_go radix s None).

(** [x || 0] on a number: NaN and 0 both give 0. *)
Definition or_zero (x : option Z) : Z :=
  match x with Some v => v | None => 0 end.

Fixpoint find_index {A} (f : A -> bool) (l : list A) : option nat :=
  match l with
  | [] => None
  | x :: l' => if f x then Some O else option_map S (find_index f l')
  end.

End JS.

Import JS.

Definition NL : string := String (ascii_of_nat 10) EmptyString.
Definition TAB : string := String (ascii_of_nat 9) EmptyString.

(* ================================================================== *)
(** * Dates *)

Module Date.

(** [new Date(ms)]: the time value is clipped to +-8.64e15 ms. *)
Definition make (ms : Z) : option Z :=
  if Z.abs ms <=? 8640000000000000 then Some ms else None.

(** Days since 1970-01-01 to a proleptic Gregorian (year, month, day). *)
Definition civil_from_days (days : Z) : Z * Z * Z :=
  let z := days + 719468 in
  let era := z / 146097 in
  let doe := z - era * 146097 in
  let yoe := (doe - doe / 1460 + doe / 36524 - doe / 146096) / 365 in
  let y := yoe + era * 400 in
  let doy := doe - (365 * yoe + yoe / 4 - yoe / 100) in
  let mp := (5 * doy + 2) / 153 in
  let d := doy - (153 * mp + 2) / 5 + 1 in
  let m := if mp <? 10 then mp + 3 else mp - 9 in
  (if m <=? 2 then y + 1 else y, m, d).

Fixpoint digits_rev (fuel : nat) (n : Z) : string :=
  match fuel with
  | O => EmptyString
  | S f => String (ascii_of_nat (Z.to_nat (48 + n mod 10))) (digits_rev f (n / 10))
  end.

(** [n] (non-negative) written with exactly [w] decimal digits. *)
Definition pad (w : nat) (n : Z) : string := srev (digits_rev w n).

(** The year as [toISOString] writes it: four digits in 0..9999, otherwise
    a sign and six digits. *)
Definition year_string (y : Z) : string :=
  if (0 <=? y) && (y <=? 9999) then pad 4 y
  else (if y <? 0 then "-" else "+") ++ pad 6 (Z.abs y).

(** The [YYYY-MM-DD] part. *)
Definition date_string (t : Z) : string :=
  let '(y, m, d) := civil_from_days (t / 86400000) in
  year_string y ++ "-" ++ pad 2 m ++ "-" ++ pad 2 d.

Definition time_string (t : Z) : string :=
  let ms := t mod 86400000 in
  pad 2 (ms / 3600000) ++ ":" ++ pad 2 (ms / 60000 mod 60) ++ ":" ++
  pad 2 (ms / 1000 mod 60) ++ "." ++ pad 3 (ms mod 1000).

(** [Date.prototype.toISOString]: a RangeError on an Invalid Date. *)
Definition toISOString (d : option Z) : option string :=
  match d with
  | Some t => Some (date_string t ++ "T" ++ time_string t ++ "Z")
  | None => None
  end.

(** [date.toISOString().split("T")[0]]. *)
Definition iso_day (d : option Z) : option string :=
  option_map (fun s => hd EmptyString (split "T" s)) (toISOString d).

(** [a < b] on dates compares time values; NaN compares false. *)
Definition lt (a b : option Z) : bool :=
  match a, b with Some x, Some y => x <? y | _, _ => false end.

End Date.

(* ================================================================== *)
(** * Records of [git-parser.ts] *)

Record FileChange := mkFileChange {
  filePath : string;
  fc_additions : Z;
  fc_deletions : Z;
}.

Record GitCommit := mkGitCommit {
  sha : string;
  authorEmail : string;
  authorName : string;
  committedAt : option Z;
  message : string;
  additions : Z;
  deletions : Z;
  filesChanged : Z;
  isMerge : bool;
  branch : string;
  fileChanges : list FileChange;
}.

Record GitTag := mkGitTag {
  tagName : string;
  tag_sha : string;
  taggerName : option string;
  taggerEmail : option string;
  tagDate : option (option Z);
  tag_message : option string;
  isAnnotated : bool;
}.

Record Author := mkAuthor {
  email : string;
  name : string;
  firstCommitAt : option Z;
  lastCommitAt : option Z;
  totalCommits : Z;
}.

(* ================================================================== *)
(** * [parseGitLog] (the version of [database.ts] that keeps file changes)

    The [git log] invocation is outside the model: [parseGitLog] takes the
    decoded standard output [logOutput] of
    [git log <branch> --pretty=format:COMMIT_START%n%H%n%ae%n%an%n%ct%n%P%n%s%nCOMMIT_MSG_END --numstat]. *)

Definition COMMIT_START_NL : string := "COMMIT_START" ++ NL.
Definition COMMIT_MSG_END : string := "COMMIT_MSG_END".

(** Accumulators of the numstat loop: [additions], [deletions],
    [filesChanged] and [fileChanges]. *)
Record StatAcc := mkStatAcc {
  acc_additions : Z;
  acc_deletions : Z;
  acc_filesChanged : Z;
  acc_fileChanges : list FileChange;
}.

Definition stat_init : StatAcc := mkStatAcc 0 0 0 [].

(** [parts[k] === "-" ? 0 : parseInt(parts[k]) || 0] *)
Definition stat_field (p : string) : Z :=
  if String.eqb p "-" then 0 else or_zero (parseInt p).

(** One iteration of [for (let i = msgEndIndex + 1; ...)]. *)
Definition stat_step (st : StatAcc) (raw : string) : StatAcc :=
  let line := trim raw in
  if String.eqb line EmptyString then st
  else
    let parts := split_ws line in
    if (3 <=? List.length parts)%nat then
      let add := stat_field (nth 0 parts EmptyString) in
      let del := stat_field (nth 1 parts EmptyString) in
      let path := String.concat " " (skipn 2 parts) in
      mkStatAcc (acc_additions st + add) (acc_deletions st + del)
                (acc_filesChanged st + 1)
                (acc_fileChanges st ++ [mkFileChange path add del])
    else st.

(** The body of [for (const block of commitBlocks)]: [None] is [continue]. *)
Definition parse_block (branch_ : string) (block : string) : option GitCommit :=
  let lines := split NL block in
  if (List.length lines <? 6)%nat then None
  else
    let sha_ := trim (nth 0 lines EmptyString) in
    let authorEmail_ := trim (nth 1 lines EmptyString) in
    let authorName_ := trim (nth 2 lines EmptyString) in
    let timestamp := parseInt (trim (nth 3 lines EmptyString)) in
    let parents := filter (fun p => negb (String.eqb p EmptyString))
                          (split " " (trim (nth 4 lines EmptyString))) in
    let message_ := trim (nth 5 lines EmptyString) in
    let st :=
      match find_index (fun l => String.eqb l COMMIT_MSG_END) lines with
      | Some k => fold_left stat_step (skipn (S k) lines) stat_init
      | None => stat_init
      end in
    Some (mkGitCommit sha_ authorEmail_ authorName_
            (match timestamp with
             | Some ts => Date.make (ts * 1000)
             | None => None
             end)
            message_ (acc_additions st) (acc_deletions st)
            (acc_filesChanged st)
            (1 <? Z.of_nat (List.length parents))
            branch_ (acc_fileChanges st)).

Definition commit_blocks (logOutput : string) : list string :=
  filter (fun b => negb (String.eqb (trim b) EmptyString))
         (split COMMIT_START_NL logOutput).

Definition parseGitLog (branch_ logOutput : string) : list GitCommit :=
  flat_map (fun b => match parse_block branch_ b with
                     | Some c => [c]
                     | None => []
                     end)
           (commit_blocks logOutput).

(** The example of the spec: one commit, one numstat line. *)
Definition spec_example_log : string :=
  COMMIT_START_NL ++ "abc1234abc1234abc1234abc1234abc1234abcd" ++ NL ++ "a@x.com" ++ NL
  ++ "A" ++ NL ++ "1000" ++ NL ++ "def5678" ++ NL ++ "subject" ++ NL ++ COMMIT_MSG_END
  ++ NL ++ NL ++ "5" ++ TAB ++ "2" ++ TAB ++ "file.ts" ++ NL.

(** ** Commit-log text as [git log] prints it

    A block as the [--pretty] format writes it: the hash, the author e-mail,
    the author name, the [%ct] timestamp, the parent hashes separated by one
    space, the subject, the end sentinel, then whatever [--numstat] appends. *)
Record LogBlock := mkLogBlock {
  lb_sha : string;
  lb_email : string;
  lb_name : string;
  lb_time : string;
  lb_parents : list string;
  lb_subject : string;
  lb_numstat : string;
}.

Definition block_body (b : LogBlock) : string :=
  lb_sha b ++ NL ++ lb_email b ++ NL ++ lb_name b ++ NL ++ lb_time b ++ NL
  ++ String.concat " " (lb_parents b) ++ NL ++ lb_subject b ++ NL
  ++ COMMIT_MSG_END ++ lb_numstat b.

Fixpoint render_log (bs : list LogBlock) : string :=
  match bs with
  | [] => EmptyString
  | b :: bs' => COMMIT_START_NL ++ block_body b ++ render_log bs'
  end.

Fixpoint str_forallb (f : ascii -> bool) (s : string) : bool :=
  match s with
  | EmptyString => true
  | String c s' => f c && str_forallb f s'
  end.

Definition no_ws (s : string) : bool := str_forallb (fun c => negb (is_ws c)) s.

Definition word (s : string) : bool := negb (String.eqb s EmptyString) && no_ws s.

(** A well-formed block: a non-empty hash and non-empty parent hashes
    without whitespace, and one-line e-mail, name, timestamp and subject, as
    [%H], [%P], [%ae], [%an], [%ct] and [%s] print them. *)
Definition wf_block (b : LogBlock) : bool :=
  word (lb_sha b) && forallb word (lb_parents b)
  && negb (includes NL (lb_email b)) && negb (includes NL (lb_name b))
  && negb (includes NL (lb_time b)) && negb (includes NL (lb_subject b)).

(** The start marker followed by a newline does not occur inside the block. *)
Definition sentinel_free (b : LogBlock) : bool :=
  negb (includes COMMIT_START_NL (block_body b)).

(** The two parts of a block around its subject line: the five lines before
    it, and what follows it (the end sentinel and the numstat output). *)
Definition block_head (b : LogBlock) : string :=
  lb_sha b ++ NL ++ lb_email b ++ NL ++ lb_name b ++ NL ++ lb_time b ++ NL
  ++ String.concat " " (lb_parents b) ++ NL.

Definition block_tail (b : LogBlock) : string := COMMIT_MSG_END ++ lb_numstat b.

(* ================================================================== *)
(** * Aggregation ([types.ts], [transforms.ts]) *)

(** A JavaScript [Map] with string keys: an association list in insertion
    order; [set] on a present key replaces the value in place. *)
Fixpoint assoc_get {V} (k : string) (m : list (string * V)) : option V :=
  match m with
  | [] => None
  | (k', v) :: m' => if String.eqb k k' then Some v else assoc_get k m'
  end.

Fixpoint assoc_set {V} (k : string) (v : V) (m : list (string * V)) : list (string * V) :=
  match m with
  | [] => [(k, v)]
  | (k', v') :: m' => if String.eqb k k' then (k, v) :: m' else (k', v') :: assoc_set k v m'
  end.

(** [aggregateAuthors]: one loop iteration. *)
Definition aggregateAuthors_step (m : list (string * Author)) (commit : GitCommit)
    : list (string * Author) :=
  match assoc_get (authorEmail commit) m with
  | None =>
      assoc_set (authorEmail commit)
        (mkAuthor (authorEmail commit) (authorName commit)
                  (committedAt commit) (committedAt commit) 1) m
  | Some existing =>
      assoc_set (authorEmail commit)
        (mkAuthor (email existing) (authorName commit)
           (if Date.lt (committedAt commit) (firstCommitAt existing)
            then committedAt commit else firstCommitAt existing)
           (if Date.lt (lastCommitAt existing) (committedAt commit)
            then committedAt commit else lastCommitAt existing)
           (totalCommits existing + 1)) m
  end.

Definition aggregateAuthors (commits : list GitCommit) : list Author :=
  map snd (fold_left aggregateAuthors_step commits []).

Record DailyStat := mkDailyStat {
  ds_date : string;
  ds_repoName : string;
  ds_authorEmail : string;
  commitsCount : Z;
  ds_additions : Z;
  ds_deletions : Z;
  ds_filesChanged : Z;
}.

Definition daily_key (date repoName authorEmail_ : string) : string :=
  date ++ "|" ++ repoName ++ "|" ++ authorEmail_.

(** [aggregateDailyStats]: [None] is the RangeError of [toISOString] on an
    Invalid Date. *)
Fixpoint aggregateDailyStats_loop (repoName : string) (commits : list GitCommit)
    (m : list (string * DailyStat)) : option (list (string * DailyStat)) :=
  match commits with
  | [] => Some m
  | commit :: rest =>
      match Date.iso_day (committedAt commit) with
      | None => None
      | Some date =>
          let key := daily_key date repoName (authorEmail commit) in
          let m' :=
            match assoc_get key m with
            | Some existing =>
                assoc_set key
                  (mkDailyStat (ds_date existing) (ds_repoName existing)
                     (ds_authorEmail existing) (commitsCount existing + 1)
                     (ds_additions existing + additions commit)
                     (ds_deletions existing + deletions commit)
                     (ds_filesChanged existing + filesChanged commit)) m
            | None =>
                assoc_set key
                  (mkDailyStat date repoName (authorEmail commit) 1
                     (additions commit) (deletions commit) (filesChanged commit)) m
            end in
          aggregateDailyStats_loop repoName rest m'
      end
  end.

Definition aggregateDailyStats (commits : list GitCommit) (repoName : string)
    : option (list DailyStat) :=
  option_map (map snd) (aggregateDailyStats_loop repoName commits []).

Record SummaryStats := mkSummaryStats {
  totalCommits_s : Z;
  totalAdditions : Z;
  totalDeletions : Z;
  totalFilesChanged : Z;
  mergeCommitsCount : Z;
  uniqueAuthorsCount : Z;
  dateRange_from : string;
  dateRange_to : string;
}.

Definition or_empty (s : string) : string := if String.eqb s EmptyString then EmptyString else s.

(** [commits[i]?.committedAt.toISOString().split("T")[0] || ""]. *)
Definition day_or_empty (c : option GitCommit) : option string :=
  match c with
  | None => Some EmptyString
  | Some commit => option_map or_empty (Date.iso_day (committedAt commit))
  end.

Definition last_opt {A} (l : list A) : option A :=
  match l with [] => None | x :: l' => Some (last l' x) end.

Definition sum_Z {A} (f : A -> Z) (l : list A) : Z := fold_left (fun s c => s + f c) l 0.

(** [calculateSummaryStats]: [None] is a RangeError. *)
Definition calculateSummaryStats (commits : list GitCommit) : option SummaryStats :=
  match day_or_empty (last_opt commits) with
  | None => None
  | Some dateFrom =>
      match day_or_empty (hd_error commits) with
      | None => None
      | Some dateTo =>
          Some (mkSummaryStats (Z.of_nat (List.length commits))
                  (sum_Z additions commits) (sum_Z deletions commits)
                  (sum_Z filesChanged commits)
                  (Z.of_nat (List.length (filter isMerge commits)))
                  (Z.of_nat (List.length (nodup string_dec (map authorEmail commits))))
                  dateFrom dateTo)
      end
  end.

(* ================================================================== *)
(** * The store ([db/schema.ts]) and the upsert engine ([database.ts])

    The tables written by the pipeline; [pull_requests] and [daily_stats]
    are never written by it.  Auto-increment ids are the list positions. *)

Record CommitRow := mkCommitRow {
  cr_repo_name : string; cr_sha : string; cr_author_email : string;
  cr_author_name : string; cr_committed_at : string; cr_message : string;
  cr_additions : Z; cr_deletions : Z; cr_files_changed : Z; cr_is_merge : Z;
  cr_branch : string;
}.

Record AuthorRow := mkAuthorRow {
  ar_email : string; ar_name : string; ar_first_commit_at : string;
  ar_last_commit_at : string; ar_total_commits : Z;
}.

Record FileChangeRow := mkFileChangeRow {
  fr_repo_name : string; fr_sha : string; fr_file_path : string;
  fr_additions : Z; fr_deletions : Z;
}.

Record TagRow := mkTagRow {
  tr_repo_name : string; tr_tag_name : string; tr_sha : string;
  tr_tagger_name : option string; tr_tagger_email : option string;
  tr_tag_date : option string; tr_message : option string; tr_is_annotated : Z;
}.

Record RepoRow := mkRepoRow {
  rr_name : string; rr_language : option string; rr_is_archived : Z;
  rr_last_commit_at : option string; rr_total_commits : Z;
}.

Record DB := mkDB {
  commits_t : list CommitRow;
  authors_t : list AuthorRow;
  file_changes_t : list FileChangeRow;
  tags_t : list TagRow;
  repos_t : list RepoRow;
}.

Definition empty_db : DB := mkDB [] [] [] [] [].

(** UNIQUE keys: commits (repo_name, sha), authors (email), file_changes
    (repo_name, sha, file_path), tags (repo_name, tag_name), repos (name). *)
Definition Key := list string.

Definition key_eqb (k1 k2 : Key) : bool :=
  if list_eq_dec string_dec k1 k2 then true else false.

Definition commit_key (r : CommitRow) : Key := [cr_repo_name r; cr_sha r].
Definition author_key (r : AuthorRow) : Key := [ar_email r].
Definition fc_key (r : FileChangeRow) : Key := [fr_repo_name r; fr_sha r; fr_file_path r].
Definition tag_key (r : TagRow) : Key := [tr_repo_name r; tr_tag_name r].
Definition repo_key (r : RepoRow) : Key := [rr_name r].

Section Table.
Context {R : Type} (key : R -> Key).

Definition has_key (k : Key) (t : list R) : bool := existsb (fun o => key_eqb (key o) k) t.

(** [INSERT ... ON CONFLICT(key) DO UPDATE SET ...]: [update old excluded]
    is the conflicting row after the update. *)
Definition upsert (update : R -> R -> R) (r : R) (t : list R) : list R :=
  if has_key (key r) t
  then map (fun o => if key_eqb (key o) (key r) then update o r else o) t
  else (t ++ [r])%list.

(** [INSERT OR IGNORE]: the table and the number of rows changed. *)
Definition insert_or_ignore (r : R) (t : list R) : list R * Z :=
  if has_key (key r) t then (t, 0) else ((t ++ [r])%list, 1).

End Table.

(** SQLite's scalar [MIN] and [MAX] on two TEXT values (BINARY collation:
    byte-wise comparison). *)
Definition sql_min (a b : string) : string := if String.leb a b then a else b.
Definition sql_max (a b : string) : string := if String.leb a b then b else a.

Definition commit_update (old ex : CommitRow) : CommitRow :=
  mkCommitRow (cr_repo_name old) (cr_sha old) (cr_author_email ex) (cr_author_name ex)
    (cr_committed_at ex) (cr_message ex) (cr_additions ex) (cr_deletions ex)
    (cr_files_changed ex) (cr_is_merge ex) (cr_branch ex).

(** [name = excluded.name, first_commit_at = MIN(first_commit_at,
    excluded.first_commit_at), last_commit_at = MAX(...), total_commits =
    total_commits + excluded.total_commits] *)
Definition author_update (old ex : AuthorRow) : AuthorRow :=
  mkAuthorRow (ar_email old) (ar_name ex)
    (sql_min (ar_first_commit_at old) (ar_first_commit_at ex))
    (sql_max (ar_last_commit_at old) (ar_last_commit_at ex))
    (ar_total_commits old + ar_total_commits ex).

Definition tag_update (old ex : TagRow) : TagRow :=
  mkTagRow (tr_repo_name old) (tr_tag_name old) (tr_sha ex) (tr_tagger_name ex)
    (tr_tagger_email ex) (tr_tag_date ex) (tr_message ex) (tr_is_annotated ex).

(** [is_archived] is not in the update list: the stored value stays. *)
Definition repo_update (old ex : RepoRow) : RepoRow :=
  mkRepoRow (rr_name old) (rr_language ex) (rr_is_archived old)
    (rr_last_commit_at ex) (rr_total_commits ex).

Definition set_commits (d : DB) t := mkDB t (authors_t d) (file_changes_t d) (tags_t d) (repos_t d).
Definition set_authors (d : DB) t := mkDB (commits_t d) t (file_changes_t d) (tags_t d) (repos_t d).
Definition set_file_changes (d : DB) t := mkDB (commits_t d) (authors_t d) t (tags_t d) (repos_t d).
Definition set_tags (d : DB) t := mkDB (commits_t d) (authors_t d) (file_changes_t d) t (repos_t d).
Definition set_repos (d : DB) t := mkDB (commits_t d) (authors_t d) (file_changes_t d) (tags_t d) t.

(** ** A state and exception monad over the store *)

Inductive Exn := RangeError | SqliteError (msg : string).

Definition M (A : Type) : Type := DB -> (Exn + A) * DB.

Definition ret {A} (a : A) : M A := fun d => (inr a, d).
Definition throw {A} (e : Exn) : M A := fun d => (inl e, d).
Definition bind {A B} (m : M A) (k : A -> M B) : M B :=
  fun d => match m d with
           | (inr a, d') => k a d'
           | (inl e, d') => (inl e, d')
           end.

Notation "x <- m ;; k" := (bind m (fun x => k))
  (at level 61, m at next level, right associativity).

(** ** [insertCommits]: a failing row is counted in [errors] and skipped. *)
Definition commit_row (repoName : string) (c : GitCommit) (iso : string) : CommitRow :=
  mkCommitRow repoName (sha c) (authorEmail c) (authorName c) iso (message c)
    (additions c) (deletions c) (filesChanged c) (if isMerge c then 1 else 0) (branch c).

Fixpoint insertCommits_loop (repoName : string) (commits : list GitCommit)
    (processed errors : Z) (d : DB) : (Z * Z) * DB :=
  match commits with
  | [] => ((processed, errors), d)
  | c :: rest =>
      match Date.toISOString (committedAt c) with
      | Some iso =>
          insertCommits_loop repoName rest (processed + 1) errors
            (set_commits d (upsert commit_key commit_update (commit_row repoName c iso) (commits_t d)))
      | None => insertCommits_loop repoName rest processed (errors + 1) d
      end
  end.

Definition insertCommits (repoName : string) (commits : list GitCommit) : M (Z * Z) :=
  fun d => let '(r, d') := insertCommits_loop repoName commits 0 0 d in (inr r, d').

(** ** [insertAuthors]: nothing is caught; a RangeError ends the loop. *)
Definition author_row (a : Author) (first last : string) : AuthorRow :=
  mkAuthorRow (email a) (name a) first last (totalCommits a).

Fixpoint insertAuthors_loop (authors : list Author) : M unit :=
  match authors with
  | [] => ret tt
  | a :: rest =>
      match Date.toISOString (firstCommitAt a), Date.toISOString (lastCommitAt a) with
      | Some first, Some last =>
          fun d => insertAuthors_loop rest
                     (set_authors d (upsert author_key author_update
                                       (author_row a first last) (authors_t d)))
      | _, _ => throw RangeError
      end
  end.

Definition insertAuthors (authors : list Author) : M Z :=
  _ <- insertAuthors_loop authors ;; ret (Z.of_nat (List.length authors)).

(** ** [insertFileChanges] *)
Definition BATCH_SIZE : nat := 1000.

(** [allFileChanges.slice(i, Math.min(i + BATCH_SIZE, totalChanges))] for
    [i = 0, BATCH_SIZE, 2 * BATCH_SIZE, ...] below [totalChanges]. *)
Fixpoint batches_go {A} (fuel : nat) (l : list A) : list (list A) :=
  match fuel with
  | O => []
  | S f => match l with
           | [] => []
           | _ => firstn BATCH_SIZE l :: batches_go f (skipn BATCH_SIZE l)
           end
  end.

Definition batches {A} (l : list A) : list (list A) := batches_go (List.length l) l.

Definition file_change_rows (repoName : string) (commits : list GitCommit) : list FileChangeRow :=
  flat_map (fun c => map (fun fc => mkFileChangeRow repoName (sha c) (filePath fc)
                                      (fc_additions fc) (fc_deletions fc))
                         (fileChanges c)) commits.

Definition insert_change (acc : list FileChangeRow * Z) (r : FileChangeRow)
    : list FileChangeRow * Z :=
  let '(t, n) := acc in
  let '(t', k) := insert_or_ignore fc_key r t in (t', n + k).

Definition insertFileChanges (repoName : string) (commits : list GitCommit) : M Z :=
  fun d =>
    let allFileChanges := file_change_rows repoName commits in
    let '(t, totalInserted) :=
      fold_left (fun acc batch => fold_left insert_change batch acc)
                (batches allFileChanges) (file_changes_t d, 0) in
    (inr totalInserted, set_file_changes d t).

(** ** [insertTags]: [tag.tagDate?.toISOString() || null] raises on an
    Invalid Date. *)
Definition tag_row (repoName : string) (tg : GitTag) (date : option string) : TagRow :=
  mkTagRow repoName (tagName tg) (tag_sha tg) (taggerName tg) (taggerEmail tg)
    date (tag_message tg) (if isAnnotated tg then 1 else 0).

Fixpoint insertTags_loop (repoName : string) (tags : list GitTag) : M unit :=
  let put tg date rest :=
    fun d => insertTags_loop repoName rest
               (set_tags d (upsert tag_key tag_update (tag_row repoName tg date) (tags_t d))) in
  match tags with
  | [] => ret tt
  | tg :: rest =>
      match tagDate tg with
      | None => put tg None rest
      | Some dt =>
          match Date.toISOString dt with
          | Some s => put tg (Some s) rest
          | None => throw RangeError
          end
      end
  end.

Definition insertTags (repoName : string) (tags : list GitTag) : M Z :=
  _ <- insertTags_loop repoName tags ;; ret (Z.of_nat (List.length tags)).

(** ** [upsertRepositoryMetadata] *)
Definition upsertRepositoryMetadata (repoName : string) (language : option string)
    (commits : list GitCommit) : M unit :=
  let put lastCommitAt :=
    fun d => (inr tt, set_repos d (upsert repo_key repo_update
                 (mkRepoRow repoName language 0 lastCommitAt
                    (Z.of_nat (List.length commits))) (repos_t d))) in
  match commits with
  | [] => put None
  | c :: _ =>
      match Date.toISOString (committedAt c) with
      | Some s => put (Some s)
      | None => throw RangeError
      end
  end.

(* ================================================================== *)
(** * Transactions ([withTransaction]) and the load step of [etlGitRepo] *)

(** The connection: the store as readers see it and, while a transaction is
    open, the snapshot taken at [BEGIN] that [ROLLBACK] restores. *)
Record Conn := mkConn {
  conn_db : DB;
  conn_txn : option DB;
}.

Definition beginTransaction (c : Conn) : Exn + Conn :=
  match conn_txn c with
  | Some _ => inl (SqliteError "cannot start a transaction within a transaction")
  | None => inr (mkConn (conn_db c) (Some (conn_db c)))
  end.

Definition commitTransaction (c : Conn) : Exn + Conn :=
  match conn_txn c with
  | Some _ => inr (mkConn (conn_db c) None)
  | None => inl (SqliteError "cannot commit - no transaction is active")
  end.

Definition rollbackTransaction (c : Conn) : Exn + Conn :=
  match conn_txn c with
  | Some snapshot => inr (mkConn snapshot None)
  | None => inl (SqliteError "cannot rollback - no transaction is active")
  end.

(** [withTransaction(db, fn)]: [beginTransaction] is outside the [try]; an
    error of [fn] or of [commitTransaction] is caught, rolled back and
    re-thrown. *)
Definition withTransaction {A} (c : Conn) (fn : M A) : (Exn + A) * Conn :=
  let on_error e c2 :=
    match rollbackTransaction c2 with
    | inr c3 => (inl e, c3)
    | inl e' => (inl e', c2)
    end in
  match beginTransaction c with
  | inl e => (inl e, c)
  | inr c1 =>
      let '(r, d') := fn (conn_db c1) in
      let c2 := mkConn d' (conn_txn c1) in
      match r with
      | inr result =>
          match commitTransaction c2 with
          | inr c3 => (inr result, c3)
          | inl e => on_error e c2
          end
      | inl e => on_error e c2
      end
  end.

(** The writes of [etlGitRepo], in its order. *)
Definition load_ops (repoName : string) (language : option string)
    (commits : list GitCommit) (authors : list Author) (tags : list GitTag) : M unit :=
  _ <- insertCommits repoName commits ;;
  _ <- insertAuthors authors ;;
  _ <- insertFileChanges repoName commits ;;
  _ <- (match tags with [] => ret 0 | _ => insertTags repoName tags end) ;;
  upsertRepositoryMetadata repoName language commits.

(** [etlGitRepo] after parsing: no commits ends the run before any write;
    otherwise the authors are aggregated and all writes run in one
    transaction. *)
Definition etl_load (c : Conn) (repoName : string) (language : option string)
    (commits : list GitCommit) (tags : list GitTag) : (Exn + unit) * Conn :=
  match commits with
  | [] => (inr tt, c)
  | _ => withTransaction c (load_ops repoName language commits (aggregateAuthors commits) tags)
  end.


(* ================================================================== *)
(** * The copy of [parseGitLog] in [src/src/git-parser.ts]

    Its [GitCommit] has no [fileChanges]; the numstat loop keeps only the
    three counters. *)

Module GitParserTs.

Record GitCommit := mkGitCommit {
  sha : string;
  authorEmail : string;
  authorName : string;
  committedAt : option Z;
  message : string;
  additions : Z;
  deletions : Z;
  filesChanged : Z;
  isMerge : bool;
  branch : string;
}.

Definition stat_step (st : Z * Z * Z) (raw : string) : Z * Z * Z :=
  let '(additions_, deletions_, filesChanged_) := st in
  let line := trim raw in
  if String.eqb line EmptyString then st
  else
    let parts := split_ws line in
    if (3 <=? List.length parts)%nat then
      let add := stat_field (nth 0 parts EmptyString) in
      let del := stat_field (nth 1 parts EmptyString) in
      (additions_ + add, deletions_ + del, filesChanged_ + 1)
    else st.

Definition parse_block (branch_ : string) (block : string) : option GitCommit :=
  let lines := split NL block in
  if (List.length lines <? 6)%nat then None
  else
    let sha_ := trim (nth 0 lines EmptyString) in
    let authorEmail_ := trim (nth 1 lines EmptyString) in
    let authorName_ := trim (nth 2 lines EmptyString) in
    let timestamp := parseInt (trim (nth 3 lines EmptyString)) in
    let parents := filter (fun p => negb (String.eqb p EmptyString))
                          (split " " (trim (nth 4 lines EmptyString))) in
    let message_ := trim (nth 5 lines EmptyString) in
    let '(additions_, deletions_, filesChanged_) :=
      match find_index (fun l => String.eqb l COMMIT_MSG_END) lines with
      | Some k => fold_left stat_step (skipn (S k) lines) (0, 0, 0)
      | None => (0, 0, 0)
      end in
    Some (mkGitCommit sha_ authorEmail_ authorName_
            (match timestamp with
             | Some ts => Date.make (ts * 1000)
             | None => None
             end)
            message_ additions_ deletions_ filesChanged_
            (1 <? Z.of_nat (List.length parents)) branch_).

Definition parseGitLog (branch_ logOutput : string) : list GitCommit :=
  flat_map (fun b => match parse_block branch_ b with
                     | Some c => [c]
                     | None => []
                     end)
           (commit_blocks logOutput).

End GitParserTs.

(** The fields the two [GitCommit] interfaces share. *)
Definition drop_file_changes (c : GitCommit) : GitParserTs.GitCommit :=
  GitParserTs.mkGitCommit (sha c) (authorEmail c) (authorName c) (committedAt c)
    (message c) (additions c) (deletions c) (filesChanged c) (isMerge c) (branch c).

(* ================================================================== *)
(** * Validation ([database.ts], lines 257-450)

    The two regular expressions are anchored sequences of one-or-more
    character classes and literal characters; [re_match] is their
    backtracking matcher, [RegExp.prototype.test] on [^...$]. *)

Inductive RItem :=
  | RPlus (cls : ascii -> bool)
  | RChar (c : ascii).

Fixpoint re_match (items : list RItem) (s : string) : bool :=
  match items with
  | [] => String.eqb s EmptyString
  | RChar c :: rest =>
      match s with
      | String c' s' => Ascii.eqb c c' && re_match rest s'
      | EmptyString => false
      end
  | RPlus cls :: rest =>
      (fix plus_go (s : string) : bool :=
         match s with
         | EmptyString => false
         | String c s' => cls c && (re_match rest s' || plus_go s')
         end) s
  end.

(** [[^\s@]] *)
Definition not_ws_at (c : ascii) : bool := negb (is_ws c) && negb (Ascii.eqb c "@").

(** [/^[^\s@]+@[^\s@]+\.[^\s@]+$/] *)
Definition email_re : list RItem :=
  [RPlus not_ws_at; RChar "@"; RPlus not_ws_at; RChar "."; RPlus not_ws_at].

(** [[a-f0-9]] under the [i] flag. *)
Definition is_hex_ci (c : ascii) : bool :=
  let n := char_code c in
  ((48 <=? n) && (n <=? 57))%nat || ((97 <=? n) && (n <=? 102))%nat
  || ((65 <=? n) && (n <=? 70))%nat.

(** [/^[a-f0-9]+$/i] *)
Definition sha_re : list RItem := [RPlus is_hex_ci].

Record ValidationResult := mkValidationResult {
  valid : bool;
  error : option string;
}.

(** [!s || s.trim().length === 0] *)
Definition blank (s : string) : bool :=
  String.eqb s EmptyString || String.eqb (trim s) EmptyString.

Definition validateEmail (email_ : string) : ValidationResult :=
  if blank email_ then mkValidationResult false (Some "Email cannot be empty")
  else if negb (re_match email_re email_)
  then mkValidationResult false (Some ("Invalid email format: " ++ email_))
  else if (255 <? String.length email_)%nat
  then mkValidationResult false (Some "Email exceeds 255 characters")
  else mkValidationResult true None.

Definition validateSha (sha_ : string) : ValidationResult :=
  if blank sha_ then mkValidationResult false (Some "SHA cannot be empty")
  else if (String.length sha_ <? 7)%nat || (40 <? String.length sha_)%nat
  then mkValidationResult false (Some ("Invalid SHA length: " ++ sha_))
  else if negb (re_match sha_re sha_)
  then mkValidationResult false (Some ("Invalid SHA format (must be hex): " ++ sha_))
  else mkValidationResult true None.

(** [errors.push(e)] when [cond] holds. *)
Definition push_if (cond : bool) (e : string) (errors : list string) : list string :=
  if cond then (errors ++ [e])%list else errors.

Definition push_result (r : ValidationResult) (errors : list string) : list string :=
  if valid r then errors else (errors ++ [match error r with Some e => e | None => EmptyString end])%list.

(** [d instanceof Date]: the [committedAt] of a [GitCommit] is always a Date
    object, an Invalid Date included, and an object is truthy. *)
Definition is_date_object (d : option Z) : bool := true.

Definition validateCommit (commit : GitCommit) : list string :=
  let errors := push_result (validateSha (sha commit)) [] in
  let errors := push_result (validateEmail (authorEmail commit)) errors in
  let errors := push_if (blank (authorName commit)) "Author name cannot be empty" errors in
  let errors := push_if (255 <? String.length (authorName commit))%nat
                  "Author name exceeds 255 characters" errors in
  let errors := push_if (negb (is_date_object (committedAt commit)))
                  "Committed date is invalid" errors in
  let errors := push_if (65535 <? Z.of_nat (String.length (message commit)))
                  "Commit message exceeds maximum length" errors in
  push_if ((additions commit <? 0) || (deletions commit <? 0) || (filesChanged commit <? 0))
    "Addition/deletion/file counts cannot be negative" errors.

(** [author.firstCommitAt > author.lastCommitAt] compares time values; an
    Invalid Date compares false. *)
Definition validateAuthor (author : Author) : list string :=
  let errors := push_result (validateEmail (email author)) [] in
  let errors := push_if (blank (name author)) "Author name cannot be empty" errors in
  let errors := push_if (255 <? String.length (name author))%nat
                  "Author name exceeds 255 characters" errors in
  let errors := push_if (totalCommits author <? 1) "Author must have at least 1 commit" errors in
  push_if (Date.lt (lastCommitAt author) (firstCommitAt author))
    "First commit date cannot be after last commit date" errors.

(** A [string | null] field is truthy when it is a non-empty string. *)
Definition truthy (s : option string) : bool :=
  match s with Some v => negb (String.eqb v EmptyString) | None => false end.

Definition validateTag (tag : GitTag) : list string :=
  let errors := push_if (blank (tagName tag)) "Tag name cannot be empty" [] in
  let errors := push_if (255 <? String.length (tagName tag))%nat
                  "Tag name exceeds 255 characters" errors in
  let errors := push_result (validateSha (tag_sha tag)) errors in
  if isAnnotated tag then
    let errors :=
      match taggerEmail tag with
      | Some e => if truthy (Some e) then push_result (validateEmail e) errors else errors
      | None => errors
      end in
    let errors := push_if (truthy (taggerName tag) &&
                           (255 <? String.length (match taggerName tag with Some n => n | None => EmptyString end))%nat)
                    "Tagger name exceeds 255 characters" errors in
    push_if (truthy (tag_message tag) &&
             (65535 <? Z.of_nat (String.length (match tag_message tag with Some m => m | None => EmptyString end))))
      "Tag message exceeds maximum length" errors
  else errors.

(* ================================================================== *)
(** * [parseGitTags] ([database.ts], lines 703-785)

    The [git for-each-ref] invocation is outside the model: [parseGitTags]
    takes its decoded standard output (a failing command gives []). *)

(** [s.replace(/^<|>$/g, "")]: the leading [<] and the trailing [>] are
    removed (each at most once, and a one-character string loses its only
    character if it is either). *)
Definition strip_angles (s : string) : string :=
  let s1 := match s with String "<" r => r | _ => s end in
  match srev s1 with String ">" r => srev r | _ => s1 end.

Definition parse_tag_line (line : string) : option GitTag :=
  let parts := split "|" line in
  if (List.length parts <? 8)%nat then None
  else
    let tagName_ := nth 0 parts EmptyString in
    let objectType := nth 1 parts EmptyString in
    let sha_ := nth 2 parts EmptyString in
    let taggerName_ := nth 3 parts EmptyString in
    let taggerEmail_ := nth 4 parts EmptyString in
    let taggerDateStr := nth 5 parts EmptyString in
    let subject := nth 6 parts EmptyString in
    let body := nth 7 parts EmptyString in
    let isAnnotated_ := String.eqb objectType "tag" in
    let parsedTaggerName :=
      if isAnnotated_ && negb (String.eqb taggerName_ EmptyString) then Some taggerName_ else None in
    let parsedTaggerEmail :=
      if isAnnotated_ && negb (String.eqb taggerEmail_ EmptyString)
      then Some (strip_angles taggerEmail_) else None in
    let tagDate_ :=
      match parseInt taggerDateStr with
      | Some t => if 0 <? t then Some (Date.make (t * 1000)) else None
      | None => None
      end in
    let message_ :=
      if isAnnotated_ then
        if negb (String.eqb (trim body) EmptyString) then Some (subject ++ NL ++ NL ++ trim body)
        else if negb (String.eqb subject EmptyString) then Some subject
        else None
      else None in
    Some (mkGitTag tagName_ sha_ parsedTaggerName parsedTaggerEmail tagDate_ message_ isAnnotated_).

Definition parseGitTags (stdout : string) : list GitTag :=
  flat_map (fun line => match parse_tag_line line with Some t => [t] | None => [] end)
    (filter (fun line => negb (String.eqb (trim line) EmptyString)) (split NL stdout)).

(* ================================================================== *)
(** * Paths: [getRepoInfo] ([git-parser.ts]) and [loadRepositoriesConfig]
    ([main.ts]) *)

(** [p.replace(/\/$/, "")]: at most one trailing slash is removed. *)
Definition strip_trailing_slash (p : string) : string :=
  match srev p with String "/" r => srev r | _ => p end.

(** [name] of [getRepoInfo]: the last [/]-separated part. *)
Definition repo_name_of (repoPath : string) : string :=
  let pathParts := split "/" (strip_trailing_slash repoPath) in
  nth (pred (List.length pathParts)) pathParts EmptyString.

(** [[...new Set(xs)]]: first occurrences, in order. *)
Definition set_of_list (xs : list string) : list string :=
  fold_left (fun acc x => if existsb (String.eqb x) acc then acc else (acc ++ [x])%list) xs [].

(** The end of [loadRepositoriesConfig], from the collected [allRepos] and
    the [ignore] array (when the config has one); [inl] is the thrown
    error. *)
Definition finish_repositories (allRepos : list string) (ignore : option (list string))
    : string + list string :=
  match allRepos with
  | [] => inl "No repositories found. Config must have 'repositories' and/or 'paths' array"
  | _ =>
      let uniqueRepos := set_of_list (map strip_trailing_slash allRepos) in
      match ignore with
      | None => inr uniqueRepos
      | Some ig =>
          let ignoreSet := map strip_trailing_slash ig in
          inr (filter (fun repo => negb (existsb (String.eqb repo) ignoreSet)) uniqueRepos)
      end
  end.

(* ================================================================== *)
(** * [getRepoLanguage] ([git-parser.ts]; the same in [database.ts])

    The [git ls-files] invocation is outside the model: the function takes
    its decoded standard output. *)

(** [toLowerCase] on ASCII. *)
Definition lower_char (c : ascii) : ascii :=
  let n := char_code c in
  if ((65 <=? n) && (n <=? 90))%nat then ascii_of_nat (n + 32) else c.

Fixpoint to_lower (s : string) : string :=
  match s with
  | EmptyString => EmptyString
  | String c s' => String (lower_char c) (to_lower s')
  end.

(** [file.split(".").pop()?.toLowerCase()] *)
Definition ext_of (file : string) : string :=
  let parts := split "." file in
  to_lower (last parts EmptyString).

(** A value of [extCounts]: a number, or a string once [+ 1] has turned an
    inherited non-number value into one. *)
Inductive JSCount := CNum (n : Z) | CStr (s : string).

(** [extCounts[ext] = (extCounts[ext] || 0) + 1] on a plain object: an
    absent [constructor] reads the inherited [Object] function (whose text
    [+ 1] appends to), and [__proto__] reads [Object.prototype] and ignores
    the assignment of a string. *)
Definition ext_bump (ext : string) (m : list (string * JSCount)) : list (string * JSCount) :=
  if String.eqb ext "__proto__" then m
  else
    let cur :=
      match assoc_get ext m with
      | Some v => Some v
      | None => if String.eqb ext "constructor"
                then Some (CStr "function Object() { [native code] }") else None
      end in
    assoc_set ext (match cur with
                   | None => CNum 1
                   | Some (CNum n) => CNum (n + 1)
                   | Some (CStr s) => CStr (s ++ "1")
                   end) m.

Definition count_file (m : list (string * JSCount)) (file : string) : list (string * JSCount) :=
  let ext := ext_of file in
  if negb (String.eqb ext EmptyString) && negb (String.eqb ext file) then ext_bump ext m else m.

Definition is_digit_char (c : ascii) : bool :=
  ((48 <=? char_code c) && (char_code c <=? 57))%nat.

(** An array-index key: the canonical decimal form of an integer below
    2^32 - 1. *)
Definition is_array_index (k : string) : bool :=
  match k with
  | EmptyString => false
  | String c rest =>
      str_forallb is_digit_char k
      && (String.eqb k "0" || negb (Ascii.eqb c "0"))
      && (or_zero (parseInt k) <=? 4294967294)
  end.

Fixpoint insert_by_index {V} (kv : string * V) (l : list (string * V)) : list (string * V) :=
  match l with
  | [] => [kv]
  | kv' :: l' =>
      if or_zero (parseInt (fst kv)) <=? or_zero (parseInt (fst kv'))
      then kv :: l else kv' :: insert_by_index kv l'
  end.

(** [Object.entries]: array-index keys in ascending numeric order, then the
    other keys in insertion order. *)
Definition object_entries {V} (m : list (string * V)) : list (string * V) :=
  (fold_right insert_by_index [] (filter (fun kv => is_array_index (fst kv)) m)
   ++ filter (fun kv => negb (is_array_index (fst kv))) m)%list.

Definition languageMap : list (string * string) :=
  [("ts", "TypeScript"); ("js", "JavaScript"); ("tsx", "TypeScript");
   ("jsx", "JavaScript"); ("py", "Python"); ("go", "Go"); ("rs", "Rust");
   ("java", "Java"); ("c", "C"); ("cpp", "C++"); ("cs", "C#"); ("rb", "Ruby");
   ("php", "PHP"); ("swift", "Swift"); ("kt", "Kotlin"); ("scala", "Scala");
   ("sh", "Shell")].

(** [languageMap[ext]] is truthy: an own key, or an inherited object. *)
Definition language_truthy (ext : string) : bool :=
  match assoc_get ext languageMap with
  | Some _ => true
  | None => String.eqb ext "constructor" || String.eqb ext "__proto__"
  end.

(** [count > maxCount]: a string count converts to NaN. *)
Definition count_gt (v : JSCount) (maxCount : Z) : bool :=
  match v with CNum n => maxCount <? n | CStr _ => false end.

Definition select_step (acc : Z * string) (kv : string * JSCount) : Z * string :=
  let '(maxCount, primaryExt) := acc in
  let '(ext, count) := kv in
  if count_gt count maxCount && language_truthy ext
  then (match count with CNum n => n | CStr _ => maxCount end, ext)
  else acc.

(** [languageMap[primaryExt] || null]: [primaryExt] is [""] or a key with a
    number count, so never an inherited name. *)
Definition getRepoLanguage (stdout : string) : option string :=
  let files := split NL stdout in
  let extCounts := fold_left count_file files [] in
  let '(_, primaryExt) := fold_left select_step (object_entries extCounts) (0, EmptyString) in
  assoc_get primaryExt languageMap.

(* ================================================================== *)
(** * Predicates used in the statements *)

(** A commit list in [git log] order: every date valid, most recent first. *)
Fixpoint recent_first (cs : list GitCommit) : bool :=
  match cs with
  | [] => true
  | c :: rest =>
      match committedAt c with
      | None => false
      | Some t =>
          match rest with
          | [] => true
          | c' :: _ => match committedAt c' with Some t' => t' <=? t | None => false end
          end && recent_first rest
      end
  end.

Definition is_digit (c : ascii) : bool :=
  (48 <=? nat_of_ascii c)%nat && (nat_of_ascii c <=? 57)%nat.

(** The characters [toISOString] writes in its date part. *)
Definition date_char (c : ascii) : bool :=
  is_digit c || Ascii.eqb c "-" || Ascii.eqb c "+".

(** A sequence of [insertFileChanges] calls, each with a repository name
    and a commit list. *)
Fixpoint run_file_changes (calls : list (string * list GitCommit)) (d : DB) : DB :=
  match calls with
  | [] => d
  | (repoName, commits) :: rest => run_file_changes rest (snd (insertFileChanges repoName commits d))
  end.

(** The first row of [t] with key [k]. *)
Definition find_key {R} (key : R -> Key) (k : Key) (t : list R) : option R :=
  find (fun r => key_eqb (key r) k) t.

(** [commit.committedAt.toISOString().split("T")[0]], [""] on an Invalid
    Date. *)
Definition commit_day (c : GitCommit) : string :=
  match Date.iso_day (committedAt c) with Some s => s | None => EmptyString end.

(** The commits of one author on one UTC date. *)
Definition same_group (date email_ : string) (c : GitCommit) : bool :=
  String.eqb (commit_day c) date && String.eqb (authorEmail c) email_.

(** The commits whose map key is [k], and the row they add up to. *)
Definition daily_members (repoName : string) (commits : list GitCommit) (k : string)
    : list GitCommit :=
  filter (fun c => String.eqb (daily_key (commit_day c) repoName (authorEmail c)) k) commits.

Definition stat_of (repoName : string) (grp : list GitCommit) : option DailyStat :=
  match grp with
  | [] => None
  | c0 :: _ =>
      Some (mkDailyStat (commit_day c0) repoName (authorEmail c0) (Z.of_nat (List.length grp))
              (sum_Z additions grp) (sum_Z deletions grp) (sum_Z filesChanged grp))
  end.

(** The keys of every table, and what adding keys in order does to them:
    a key already present leaves the table's key list as it is, a new one
    goes at the end (an upsert, or an [INSERT OR IGNORE]). *)
Definition add_key (ks : list Key) (k : Key) : list Key :=
  if existsb (fun k' => key_eqb k' k) ks then ks else (ks ++ [k])%list.

Record KeyView := mkKeyView {
  kv_commits : list Key; kv_authors : list Key; kv_file_changes : list Key;
  kv_tags : list Key; kv_repos : list Key;
}.

Definition key_view (d : DB) : KeyView :=
  mkKeyView (map commit_key (commits_t d)) (map author_key (authors_t d))
    (map fc_key (file_changes_t d)) (map tag_key (tags_t d)) (map repo_key (repos_t d)).

Definition add_view (v w : KeyView) : KeyView :=
  mkKeyView (fold_left add_key (kv_commits w) (kv_commits v))
    (fold_left add_key (kv_authors w) (kv_authors v))
    (fold_left add_key (kv_file_changes w) (kv_file_changes v))
    (fold_left add_key (kv_tags w) (kv_tags v))
    (fold_left add_key (kv_repos w) (kv_repos v)).

Definition view_app (w1 w2 : KeyView) : KeyView :=
  mkKeyView (kv_commits w1 ++ kv_commits w2) (kv_authors w1 ++ kv_authors w2)
    (kv_file_changes w1 ++ kv_file_changes w2) (kv_tags w1 ++ kv_tags w2)
    (kv_repos w1 ++ kv_repos w2).

Definition no_keys : KeyView := mkKeyView [] [] [] [] [].

(** The effect of a store operation on the keys: whether it returns
    normally ([ok], the same on every store) and the keys it adds when it
    does ([w], the same on every store). *)
Definition KeyEffect {A} (m : M A) (ok : bool) (w : KeyView) : Prop :=
  forall d, match m d with
            | (inr _, d') => ok = true /\ key_view d' = add_view (key_view d) w
            | (inl _, _) => ok = false
            end.

(** The row counts of the five tables. *)
Definition table_counts (d : DB) : nat * nat * nat * nat * nat :=
  (List.length (commits_t d), List.length (authors_t d), List.length (file_changes_t d),
   List.length (tags_t d), List.length (repos_t d)).

(** [SELECT total_commits FROM authors WHERE email = e]. *)
Definition author_total (e : string) (d : DB) : option Z :=
  option_map ar_total_commits (find (fun r => String.eqb (ar_email r) e) (authors_t d)).

(** The number of commits of author [e] in a commit list. *)
Definition count_by (e : string) (commits : list GitCommit) : Z :=
  Z.of_nat (List.length (filter (fun c => String.eqb (authorEmail c) e) commits)).

(** ** Example inputs *)

Definition ioi_table {R : Type} (key : R -> Key) (t : list R) (r : R) : list R :=
  fst (insert_or_ignore key r t).

Definition ex_commit (s e : string) (t adds : Z) : GitCommit :=
  mkGitCommit s e "A" (Some t) "m" adds 0 1 false "main" [mkFileChange "f.ts" adds 0].

Definition ex_failing_op : M unit :=
  _ <- insertCommits "r" [ex_commit "c1" "a@x.com" 0 1] ;; throw RangeError.

Definition ex_block (subject numstat : string) : LogBlock :=
  mkLogBlock "abc1234" "a@x.com" "A" "1000" ["def5678"; "0123abc"] subject numstat.

Definition ex_numstat3 : string :=
  NL ++ NL ++ "1" ++ TAB ++ "1" ++ TAB ++ "a" ++ NL ++ "1" ++ TAB ++ "1" ++ TAB ++ "b"
  ++ NL ++ "1" ++ TAB ++ "1" ++ TAB ++ "c" ++ NL.

Definition ex_short_log : string :=
  COMMIT_START_NL ++ "abc1234" ++ NL ++ "a@x.com" ++ NL ++ "A" ++ NL ++ "1000" ++ NL
  ++ "def5678" ++ NL ++ "subject".

Definition ex_dup_commit : GitCommit :=
  mkGitCommit "c1" "a@x.com" "A" (Some 0) "m" 3 0 2 false "main"
    [mkFileChange "f.ts" 1 0; mkFileChange "f.ts" 2 0].

Definition no_pipe (s : string) : bool := str_forallb (fun x => negb (Ascii.eqb "|" x)) s.

(** What [aggregateAuthors] keeps in its map after the commits [P]: distinct
    keys, each entry's e-mail its key, and per e-mail the number of
    commits. *)
Definition authors_inv (P : list GitCommit) (m : list (string * Author)) : Prop :=
  NoDup (map fst m) /\ (forall k v, In (k, v) m -> email v = k) /\
  (forall e, option_map totalCommits (assoc_get e m)
             = if existsb (fun c => String.eqb (authorEmail c) e) P then Some (count_by e P) else None).

(* ================================================================== *)
(** * Predicates used in the further properties *)

(** The numstat accumulators agree with the file changes collected. *)
Definition stat_ok (st : StatAcc) : Prop :=
  acc_filesChanged st = Z.of_nat (List.length (acc_fileChanges st)) /\
  acc_additions st = sum_Z fc_additions (acc_fileChanges st) /\
  acc_deletions st = sum_Z fc_deletions (acc_fileChanges st).

Definition stat_proj (st : StatAcc) : Z * Z * Z :=
  (acc_additions st, acc_deletions st, acc_filesChanged st).

(** The dates kept for e-mail [e] after the commits [P], all with valid
    dates: the earliest and the latest commit date of [e] in [P]. *)
Definition dates_span (P : list GitCommit) (e : string) (v : Author) : Prop :=
  exists f l, firstCommitAt v = Some f /\ lastCommitAt v = Some l /\
  (exists c, In c P /\ authorEmail c = e /\ committedAt c = Some f) /\
  (exists c, In c P /\ authorEmail c = e /\ committedAt c = Some l) /\
  (forall c, In c P -> authorEmail c = e -> exists t, committedAt c = Some t /\ f <= t <= l).

(** The last row of [rows] with key [k]. *)
Definition latest_row {R} (key : R -> Key) (rows : list R) (k : Key) : option R :=
  fold_left (fun acc r => if key_eqb (key r) k then Some r else acc) rows None.

(** The rows [insertCommits] writes, in order: one per commit whose date is
    valid. *)
Definition commit_rows (repoName : string) (commits : list GitCommit) : list CommitRow :=
  flat_map (fun c => match Date.toISOString (committedAt c) with
                     | Some iso => [commit_row repoName c iso]
                     | None => []
                     end) commits.

(** The rows [insertTags] writes, in order, when no tag date is invalid. *)
Definition tag_rows (repoName : string) (tags : list GitTag) : list TagRow :=
  map (fun tg => tag_row repoName tg
                   (match tagDate tg with Some dt => Date.toISOString dt | None => None end)) tags.

(** A commit whose date is invalid: [toISOString] raises for it. *)
Definition invalid_date (c : GitCommit) : bool :=
  match Date.toISOString (committedAt c) with Some _ => false | None => true end.

Definition ex_tag (n : string) (date : option (option Z)) : GitTag :=
  mkGitTag n "abc1234" None None date None false.

(** A line of [git for-each-ref] output in the format [parseGitTags] asks
    for ([%(refname:short)|%(objecttype)|%(objectname)|%(taggername)|
    %(taggeremail)|%(taggerdate:unix)|%(subject)|%(contents:body)]).
    [tl_taggeremail] is the tagger's e-mail address; how git prints it is
    [taggeremail_field]. *)
Record TagLine := mkTagLine {
  tl_refname : string; tl_objecttype : string; tl_objectname : string;
  tl_taggername : string; tl_taggeremail : string; tl_taggerdate : string;
  tl_subject : string; tl_body : string;
}.

(** [%(taggeremail)]: the e-mail in angle brackets for a tag object; empty
    for a lightweight tag (a ref to a commit or to another non-tag object),
    which has no tagger. *)
Definition taggeremail_field (r : TagLine) : string :=
  if String.eqb (tl_objecttype r) "tag" then "<" ++ tl_taggeremail r ++ ">" else EmptyString.

Definition render_tag_line (r : TagLine) : string :=
  tl_refname r ++ "|" ++ tl_objecttype r ++ "|" ++ tl_objectname r ++ "|" ++
  tl_taggername r ++ "|" ++ taggeremail_field r ++ "|" ++
  tl_taggerdate r ++ "|" ++ tl_subject r ++ "|" ++ tl_body r.

(** The command output: every line ends with a newline. *)
Definition render_tag_lines (rows : list TagLine) : string :=
  fold_right (fun r acc => render_tag_line r ++ NL ++ acc) EmptyString rows.

(** A field with neither [|] nor a newline. *)
Definition field_ok (f : string) : bool :=
  str_forallb (fun d => negb (Ascii.eqb "|" d) && negb (Ascii.eqb (ascii_of_nat 10) d)) f.

Definition tag_line_ok (r : TagLine) : bool :=
  forallb field_ok [tl_refname r; tl_objecttype r; tl_objectname r; tl_taggername r;
                    tl_taggeremail r; tl_taggerdate r; tl_subject r; tl_body r].

(** A listed file that [getRepoLanguage] counts: [ext && ext !== file]. *)
Definition counted_file (file : string) : bool :=
  negb (String.eqb (ext_of file) EmptyString) && negb (String.eqb (ext_of file) file).

(** The number of counted files with extension [e]. *)
Definition ext_count (e : string) (files : list string) : nat :=
  List.length (filter (fun f => counted_file f && String.eqb (ext_of f) e) files).

(** What [extCounts] holds after the files [fs]: the count of every key
    other than [constructor] and [__proto__] (absent when zero), a
    non-number for [constructor], nothing for [__proto__], keys without
    duplicates. *)
Definition count_inv (m : list (string * JSCount)) (fs : list string) : Prop :=
  (forall e, e <> "constructor" -> e <> "__proto__" ->
   assoc_get e m = if (ext_count e fs =? 0)%nat then None
                   else Some (CNum (Z.of_nat (ext_count e fs)))) /\
  (match assoc_get "constructor" m with Some (CNum _) => False | _ => True end) /\
  assoc_get "__proto__" m = None /\
  NoDup (map fst m).

(* ################################################################## *)
(** * Proofs *)

(** ** Evaluation checks *)

Example iso_epoch : Date.toISOString (Some 0) = Some "1970-01-01T00:00:00.000Z".
Proof. reflexivity. Qed.
Example iso_2024 : Date.toISOString (Some 1709251199999) = Some "2024-02-29T23:59:59.999Z".
Proof. reflexivity. Qed.
Example iso_year10000 : Date.toISOString (Some 253402300800000) = Some "+010000-01-01T00:00:00.000Z".
Proof. reflexivity. Qed.
Example iso_neg : Date.toISOString (Some (-1)) = Some "1969-12-31T23:59:59.999Z".
Proof. reflexivity. Qed.
Example split_ex : split "|" "a||b|" = ["a"; ""; "b"; ""].
Proof. reflexivity. Qed.
Example split_ws_ex : split_ws ("5" ++ TAB ++ "2" ++ TAB ++ "file.ts") = ["5"; "2"; "file.ts"].
Proof. reflexivity. Qed.
Example parseInt_ex : parseInt " -12ab" = Some (-12) /\ parseInt "-" = None /\ parseInt "0x1A" = Some 26.
Proof. repeat split; reflexivity. Qed.

Example parse_spec_example :
  parseGitLog "main" spec_example_log =
  [mkGitCommit "abc1234abc1234abc1234abc1234abc1234abcd" "a@x.com" "A" (Some 1000000)
     "subject" 5 2 1 false "main" [mkFileChange "file.ts" 5 2]].
Proof. vm_compute. reflexivity. Qed.


(* ================================================================== *)
(** ** Lemmas on the string primitives *)

Lemma str_app_assoc : forall x y z : string, (x ++ y) ++ z = x ++ (y ++ z).
Proof. induction x; intros; simpl; [reflexivity | now rewrite IHx]. Qed.

Lemma str_app_nil_r : forall x : string, x ++ EmptyString = x.
Proof. induction x; simpl; [reflexivity | now rewrite IHx]. Qed.

Lemma srev_app : forall x y, srev (x ++ y) = srev y ++ srev x.
Proof.
  induction x; intros; simpl.
  - now rewrite str_app_nil_r.
  - rewrite IHx. apply str_app_assoc.
Qed.

Lemma srev_involutive : forall x, srev (srev x) = x.
Proof. induction x; simpl; [reflexivity | rewrite srev_app, IHx; reflexivity]. Qed.

Lemma starts_with_app : forall p s, starts_with p (p ++ s) = true.
Proof. induction p; intros; simpl; [reflexivity | now rewrite Ascii.eqb_refl, IHp]. Qed.

Lemma starts_with_inv : forall p s, starts_with p s = true -> exists z, s = p ++ z.
Proof.
  induction p; intros s H; simpl in *.
  - now exists s.
  - destruct s as [|b s]; [discriminate|].
    apply andb_prop in H as [H1 H2].
    apply Ascii.eqb_eq in H1; subst b.
    destruct (IHp s H2) as [z ->]. now exists z.
Qed.

Lemma includes_app : forall sep x y, includes sep (x ++ sep ++ y) = true.
Proof.
  induction x; intros; simpl.
  - destruct sep; simpl; [destruct y; reflexivity|].
    rewrite Ascii.eqb_refl, starts_with_app. reflexivity.
  - rewrite IHx, orb_true_r. reflexivity.
Qed.

(** Scanning a stretch that holds no separator only extends the piece. *)
Lemma split_go_plain : forall sep b p rest,
  includes sep (p ++ b) = false ->
  split_go (srev sep) (b ++ rest) (srev p) = split_go (srev sep) rest (srev (p ++ b)).
Proof.
  induction b as [|c b IH]; intros p rest H; simpl.
  - now rewrite str_app_nil_r.
  - assert (Hr : String c (srev p) = srev (p ++ String c EmptyString))
      by (rewrite srev_app; reflexivity).
    destruct (starts_with (srev sep) (String c (srev p))) eqn:E.
    + exfalso. rewrite Hr in E. apply starts_with_inv in E as [z Ez].
      assert (Ep : p ++ String c EmptyString = srev z ++ sep).
      { rewrite <- (srev_involutive (p ++ _)), Ez, srev_app, srev_involutive.
        reflexivity. }
      assert (includes sep (p ++ String c b) = true) as Hc.
      { replace (p ++ String c b) with ((p ++ String c EmptyString) ++ b)
          by (rewrite str_app_assoc; reflexivity).
        rewrite Ep, str_app_assoc. apply includes_app. }
      congruence.
    + rewrite Hr, IH.
      * rewrite str_app_assoc. reflexivity.
      * rewrite str_app_assoc. exact H.
Qed.

Lemma split_go_last : forall rsep p, split_go rsep EmptyString (srev p) = [p].
Proof. intros. simpl. now rewrite srev_involutive. Qed.

Lemma split_go_nonempty : forall rsep s r, split_go rsep s r <> [].
Proof.
  induction s; intros r; simpl; [discriminate|].
  destruct (starts_with rsep (String a r)); [discriminate | apply IHs].
Qed.

Lemma split_go_NL : forall p rest,
  split_go (srev NL) (NL ++ rest) (srev p) = p :: split_go (srev NL) rest EmptyString.
Proof. intros. simpl. now rewrite srev_involutive. Qed.

Lemma split_go_space : forall p rest,
  split_go (srev " ") (" " ++ rest) (srev p) = p :: split_go (srev " ") rest EmptyString.
Proof. intros. simpl. now rewrite srev_involutive. Qed.

Lemma split_go_CS : forall p rest,
  split_go (srev COMMIT_START_NL) (COMMIT_START_NL ++ rest) (srev p)
  = p :: split_go (srev COMMIT_START_NL) rest EmptyString.
Proof. intros. simpl. now rewrite srev_involutive. Qed.

Lemma split_piece : forall sep,
  (forall p rest, split_go (srev sep) (sep ++ rest) (srev p)
                  = p :: split_go (srev sep) rest EmptyString) ->
  forall f rest, includes sep f = false ->
  split_go (srev sep) (f ++ sep ++ rest) EmptyString = f :: split_go (srev sep) rest EmptyString.
Proof.
  intros sep Hsep f rest Hf.
  change EmptyString with (srev EmptyString) at 1.
  rewrite split_go_plain by exact Hf. apply Hsep.
Qed.

Lemma split_go_single : forall sep f, includes sep f = false ->
  split_go (srev sep) f EmptyString = [f].
Proof.
  intros sep f Hf.
  change EmptyString with (srev EmptyString) at 1.
  rewrite <- (str_app_nil_r f) at 1.
  rewrite split_go_plain by exact Hf. apply split_go_last.
Qed.

Lemma str_forallb_impl : forall (f g : ascii -> bool) s,
  (forall d, f d = true -> g d = true) -> str_forallb f s = true -> str_forallb g s = true.
Proof.
  induction s; intros Hfg H; simpl in *; [reflexivity|].
  apply andb_prop in H as [H1 H2]. now rewrite (Hfg _ H1), (IHs Hfg H2).
Qed.

Lemma str_forallb_app : forall f x y,
  str_forallb f (x ++ y) = str_forallb f x && str_forallb f y.
Proof. induction x; intros; simpl; [reflexivity | now rewrite IHx, andb_assoc]. Qed.

Lemma includes_single : forall c s,
  includes (String c EmptyString) s = negb (str_forallb (fun d => negb (Ascii.eqb c d)) s).
Proof.
  induction s; simpl; [reflexivity|].
  rewrite IHs. destruct (Ascii.eqb c a); reflexivity.
Qed.

Lemma no_ws_excludes : forall c s, is_ws c = true -> no_ws s = true ->
  includes (String c EmptyString) s = false.
Proof.
  intros c s Hc Hs. rewrite includes_single.
  apply negb_false_iff. revert Hs. apply str_forallb_impl.
  intros d Hd. destruct (Ascii.eqb_spec c d); [subst; now rewrite Hc in Hd | reflexivity].
Qed.

Lemma concat_cons : forall sep p ps,
  String.concat sep (p :: ps)
  = p ++ match ps with [] => EmptyString | _ => sep ++ String.concat sep ps end.
Proof. intros. destruct ps; simpl; [now rewrite str_app_nil_r | reflexivity]. Qed.

Lemma word_inv : forall p, word p = true ->
  exists c s, p = String c s /\ is_ws c = false /\ no_ws s = true.
Proof.
  intros [|c s] H; [discriminate|].
  unfold word, no_ws in H; simpl in H.
  apply andb_prop in H as [H1 H2].
  exists c, s. repeat split; [now apply negb_true_iff | exact H2].
Qed.

Lemma trim_end_no_ws : forall s, no_ws s = true -> trim_end s = s.
Proof.
  induction s; intros H; simpl; [reflexivity|].
  unfold no_ws in H; simpl in H. apply andb_prop in H as [H1 H2].
  rewrite IHs by exact H2. apply negb_true_iff in H1. rewrite H1, andb_false_r.
  reflexivity.
Qed.

Lemma trim_no_ws : forall s, no_ws s = true -> trim s = s.
Proof.
  intros s H. unfold trim.
  assert (trim_start s = s) as ->.
  { destruct s as [|c s]; [reflexivity|]. unfold no_ws in H; simpl in H |- *.
    apply andb_prop in H as [H1 _]. apply negb_true_iff in H1. now rewrite H1. }
  now apply trim_end_no_ws.
Qed.

Lemma concat_words_nonempty : forall p ps, word p = true ->
  String.concat " " (p :: ps) <> EmptyString.
Proof.
  intros p ps Hp. apply word_inv in Hp as [c [s [-> _]]].
  rewrite concat_cons. discriminate.
Qed.

Lemma trim_end_app : forall x y, trim_end y <> EmptyString ->
  trim_end (x ++ y) = x ++ trim_end y.
Proof.
  induction x; intros y H; simpl; [reflexivity|].
  rewrite IHx by exact H.
  destruct (String.eqb_spec (x ++ trim_end y) EmptyString) as [E|E].
  - destruct x; simpl in E; [contradiction | discriminate].
  - reflexivity.
Qed.

Lemma trim_concat_words : forall ps, forallb word ps = true ->
  trim (String.concat " " ps) = String.concat " " ps.
Proof.
  intros ps Hps. destruct ps as [|p ps]; [reflexivity|].
  unfold trim.
  assert (Hs : trim_start (String.concat " " (p :: ps)) = String.concat " " (p :: ps)).
  { simpl in Hps. apply andb_prop in Hps as [Hp _].
    apply word_inv in Hp as [c [s [-> [Hc _]]]].
    rewrite concat_cons. simpl. now rewrite Hc. }
  rewrite Hs. clear Hs. revert p Hps.
  induction ps as [|p' ps IH]; intros p Hps; simpl in Hps;
    apply andb_prop in Hps as [Hp Hps].
  - simpl. apply trim_end_no_ws. now apply andb_prop in Hp as [_ Hp].
  - rewrite concat_cons.
    pose proof (IH p' Hps) as IHr.
    simpl in Hps. apply andb_prop in Hps as [Hp' _].
    pose proof (concat_words_nonempty _ ps Hp') as Hne.
    remember (String.concat " " (p' :: ps)) as r eqn:Er. clear Er.
    assert (Hrest : trim_end (" " ++ r) = " " ++ r).
    { simpl. rewrite IHr.
      destruct (String.eqb_spec r EmptyString) as [E|E]; [contradiction | reflexivity]. }
    rewrite trim_end_app; rewrite Hrest; [reflexivity | discriminate].
Qed.

Lemma split_concat_words : forall ps, ps <> [] -> forallb word ps = true ->
  split " " (String.concat " " ps) = ps.
Proof.
  induction ps as [|p ps IH]; intros Hne Hps; [contradiction|].
  simpl in Hps. apply andb_prop in Hps as [Hp Hps].
  assert (Hpi : includes " " p = false).
  { apply no_ws_excludes; [reflexivity | now apply andb_prop in Hp as [_ Hp]]. }
  unfold split. rewrite concat_cons. destruct ps as [|p' ps].
  - rewrite str_app_nil_r. now apply split_go_single.
  - rewrite split_piece; [| exact split_go_space | exact Hpi].
    f_equal. apply IH; [discriminate | exact Hps].
Qed.

Lemma parents_of_words : forall ps, forallb word ps = true ->
  filter (fun p => negb (String.eqb p EmptyString))
         (split " " (trim (String.concat " " ps))) = ps.
Proof.
  intros ps Hps. rewrite trim_concat_words by exact Hps.
  destruct ps as [|p ps]; [reflexivity|].
  rewrite split_concat_words by (discriminate || exact Hps).
  apply forallb_filter_id. apply forallb_forall. intros q Hin.
  rewrite forallb_forall in Hps. specialize (Hps q Hin).
  now apply andb_prop in Hps as [Hq _].
Qed.

Lemma no_nl_concat_words : forall ps, forallb word ps = true ->
  includes NL (String.concat " " ps) = false.
Proof.
  intros ps Hps. unfold NL. rewrite includes_single. apply negb_false_iff.
  induction ps as [|p ps IH]; [reflexivity|].
  simpl in Hps. apply andb_prop in Hps as [Hp Hps].
  rewrite concat_cons, str_forallb_app. apply andb_true_intro. split.
  - apply andb_prop in Hp as [_ Hp]. revert Hp. apply str_forallb_impl.
    intros d Hd. destruct (Ascii.eqb_spec (ascii_of_nat 10) d) as [<-|]; [discriminate | reflexivity].
  - destruct ps; [reflexivity|]. simpl. apply IH. exact Hps.
Qed.

Lemma word_no_nl : forall p, word p = true -> includes NL p = false.
Proof.
  intros p Hp. apply no_ws_excludes; [reflexivity | now apply andb_prop in Hp as [_ Hp]].
Qed.

Lemma lines_of_body : forall b, wf_block b = true ->
  split NL (block_body b) =
  lb_sha b :: lb_email b :: lb_name b :: lb_time b
  :: String.concat " " (lb_parents b) :: lb_subject b
  :: split_go (srev NL) (COMMIT_MSG_END ++ lb_numstat b) EmptyString.
Proof.
  intros b Hb. unfold wf_block in Hb.
  apply andb_prop in Hb as [Hb Hs]. apply andb_prop in Hb as [Hb Ht].
  apply andb_prop in Hb as [Hb Hn]. apply andb_prop in Hb as [Hb He].
  apply andb_prop in Hb as [Hh Hp].
  apply negb_true_iff in Hs, Ht, Hn, He.
  unfold split, block_body.
  repeat rewrite str_app_assoc.
  rewrite (split_piece NL split_go_NL (lb_sha b)) by exact (word_no_nl _ Hh).
  rewrite (split_piece NL split_go_NL (lb_email b)) by exact He.
  rewrite (split_piece NL split_go_NL (lb_name b)) by exact Hn.
  rewrite (split_piece NL split_go_NL (lb_time b)) by exact Ht.
  rewrite (split_piece NL split_go_NL (String.concat " " (lb_parents b)))
    by exact (no_nl_concat_words _ Hp).
  rewrite (split_piece NL split_go_NL (lb_subject b)) by exact Hs.
  reflexivity.
Qed.

Lemma parse_block_body : forall br b, wf_block b = true ->
  exists c, parse_block br (block_body b) = Some c
            /\ sha c = lb_sha b
            /\ isMerge c = (1 <? List.length (lb_parents b))%nat.
Proof.
  intros br b Hb. unfold parse_block. rewrite (lines_of_body b Hb).
  destruct (split_go (srev NL) (COMMIT_MSG_END ++ lb_numstat b) EmptyString) as [|t ts] eqn:Et;
    [exfalso; exact (split_go_nonempty _ _ _ Et)|].
  eexists. split; [reflexivity|]. cbn [nth sha isMerge].
  unfold wf_block in Hb. do 4 (apply andb_prop in Hb as [Hb _]).
  apply andb_prop in Hb as [Hh Hp]. split.
  - apply trim_no_ws. now apply andb_prop in Hh as [_ Hh].
  - rewrite parents_of_words by exact Hp.
    destruct (Nat.ltb_spec 1 (List.length (lb_parents b)));
      destruct (Z.ltb_spec 1 (Z.of_nat (List.length (lb_parents b)))); lia.
Qed.

Lemma split_bodies : forall bs body,
  includes COMMIT_START_NL body = false -> forallb sentinel_free bs = true ->
  split_go (srev COMMIT_START_NL) (body ++ render_log bs) EmptyString
  = body :: map block_body bs.
Proof.
  induction bs as [|b bs IH]; intros body Hbody Hbs; cbn [render_log map].
  - rewrite str_app_nil_r. now apply split_go_single.
  - simpl in Hbs. apply andb_prop in Hbs as [Hb Hbs].
    rewrite split_piece; [| exact split_go_CS | exact Hbody].
    f_equal. apply IH; [now apply negb_true_iff | exact Hbs].
Qed.

Lemma trim_head_nonempty : forall c s, is_ws c = false -> trim (String c s) <> EmptyString.
Proof.
  intros c s Hc. unfold trim. simpl. rewrite Hc. simpl.
  rewrite Hc, andb_false_r. discriminate.
Qed.

Lemma commit_blocks_render : forall bs,
  forallb wf_block bs = true -> forallb sentinel_free bs = true ->
  commit_blocks (render_log bs) = map block_body bs.
Proof.
  intros bs Hwf Hsf. unfold commit_blocks, split.
  destruct bs as [|b bs']; [reflexivity|].
  cbn [render_log].
  rewrite split_go_CS with (p := EmptyString).
  rewrite split_bodies.
  2: { simpl in Hsf. apply andb_prop in Hsf as [Hsf _]. now apply negb_true_iff. }
  2: { simpl in Hsf. now apply andb_prop in Hsf as [_ Hsf]. }
  match goal with |- filter ?f (EmptyString :: ?l) = _ =>
    change (filter f (EmptyString :: l)) with (filter f l) end.
  rewrite forallb_filter_id; [reflexivity|].
  apply forallb_forall. intros body Hin.
  assert (Hall : forall x, In x (b :: bs') -> wf_block x = true)
    by (apply forallb_forall; exact Hwf).
  assert (exists x, In x (b :: bs') /\ body = block_body x) as [x [Hx ->]].
  { destruct Hin as [<-|Hin]; [exists b; split; [left|]; reflexivity|].
    apply in_map_iff in Hin as [x [<- Hx]]. exists x. split; [right; exact Hx | reflexivity]. }
  specialize (Hall x Hx). unfold wf_block in Hall. do 5 (apply andb_prop in Hall as [Hall _]).
  apply word_inv in Hall as [c [s [Hcs [Hc _]]]].
  unfold block_body. rewrite Hcs. cbn [append].
  match goal with |- negb (String.eqb (trim (String c ?r)) _) = true =>
    destruct (String.eqb_spec (trim (String c r)) EmptyString) as [E|E];
      [exfalso; exact (trim_head_nonempty _ _ Hc E) | reflexivity] end.
Qed.

Lemma trim_end_empty_start : forall p, trim_end p = EmptyString -> trim_start p = EmptyString.
Proof.
  induction p as [|c p IH]; intros H; [reflexivity|]. simpl in H |- *.
  destruct (String.eqb_spec (trim_end p) EmptyString) as [E|E]; simpl in H;
    [|discriminate].
  destruct (is_ws c); [now apply IH | discriminate].
Qed.

Lemma trim_end_of_trim : forall p, trim p <> EmptyString -> trim_end p <> EmptyString.
Proof.
  intros p H E. apply H. unfold trim. now rewrite (trim_end_empty_start p E).
Qed.

Lemma trim_start_word_app : forall a y, word a = true -> trim_start (a ++ y) = a ++ y.
Proof.
  intros a y Ha. apply word_inv in Ha as [c [s [-> [Hc _]]]]. simpl. now rewrite Hc.
Qed.

Lemma split_ws_go_word : forall w rest cur, no_ws w = true ->
  split_ws_go (w ++ rest) cur false = split_ws_go rest (cur ++ w) false.
Proof.
  induction w as [|c w IH]; intros rest cur Hw; simpl.
  - now rewrite str_app_nil_r.
  - unfold no_ws in Hw; simpl in Hw. apply andb_prop in Hw as [Hc Hw].
    apply negb_true_iff in Hc. rewrite Hc, IH by exact Hw.
    now rewrite str_app_assoc.
Qed.

Lemma split_ws_go_nonempty : forall s cur b, split_ws_go s cur b <> [].
Proof.
  induction s as [|c s IH]; intros cur b; simpl; [discriminate|].
  destruct (is_ws c), b; try discriminate; apply IH.
Qed.

Lemma trim_stat_line : forall a d p, word a = true -> word d = true ->
  trim p <> EmptyString ->
  trim (a ++ TAB ++ d ++ TAB ++ p) = a ++ TAB ++ d ++ TAB ++ trim_end p.
Proof.
  intros a d p Ha Hd Hp. apply trim_end_of_trim in Hp.
  unfold trim. rewrite trim_start_word_app by exact Ha.
  assert (H1 : trim_end (TAB ++ p) = TAB ++ trim_end p)
    by (apply trim_end_app; exact Hp).
  assert (H2 : trim_end (d ++ TAB ++ p) = d ++ TAB ++ trim_end p)
    by (rewrite trim_end_app; [now rewrite H1 | rewrite H1; discriminate]).
  assert (H3 : trim_end (TAB ++ d ++ TAB ++ p) = TAB ++ d ++ TAB ++ trim_end p)
    by (rewrite trim_end_app; [now rewrite H2 | rewrite H2;
          apply word_inv in Hd as [c [s [-> _]]]; discriminate]).
  rewrite trim_end_app; [now rewrite H3 | rewrite H3; discriminate].
Qed.

Lemma split_ws_stat_line : forall a d q, word a = true -> word d = true ->
  split_ws (a ++ TAB ++ d ++ TAB ++ q) = a :: d :: split_ws_go q EmptyString true.
Proof.
  intros a d q Ha Hd. unfold split_ws.
  assert (Hna : no_ws a = true) by (apply andb_prop in Ha; apply Ha).
  rewrite split_ws_go_word by exact Hna. simpl.
  apply word_inv in Hd as [c [s [-> [Hc Hs]]]]. simpl. rewrite Hc.
  rewrite split_ws_go_word by exact Hs. reflexivity.
Qed.

Lemma parse_bodies : forall br bs, forallb wf_block bs = true ->
  map (fun c => (sha c, isMerge c))
      (flat_map (fun b => match parse_block br b with Some c => [c] | None => [] end)
                (map block_body bs))
  = map (fun b => (lb_sha b, (1 <? List.length (lb_parents b))%nat)) bs.
Proof.
  induction bs as [|b bs IH]; intros Hwf; [reflexivity|].
  simpl in Hwf. apply andb_prop in Hwf as [Hb Hbs].
  destruct (parse_block_body br b Hb) as [c [Hc [Hs Hm]]].
  cbn [map flat_map]. rewrite Hc. cbn [app map]. rewrite Hs, Hm, IH by exact Hbs.
  reflexivity.
Qed.

(** ** Evaluation checks of the store and the aggregations *)

Example daily_stats_spec_example :
  aggregateDailyStats [ex_commit "c2" "a@x.com" 7200000 4; ex_commit "c1" "a@x.com" 3600000 3] "r"
  = Some [mkDailyStat "1970-01-01" "r" "a@x.com" 2 7 0 2].
Proof. vm_compute. reflexivity. Qed.

Example etl_load_example :
  let '(r, c) := etl_load (mkConn empty_db None) "r" (Some "TypeScript")
                   [ex_commit "c2" "a@x.com" 7200000 4; ex_commit "c1" "a@x.com" 3600000 3] [] in
  r = inr tt /\ conn_txn c = None
  /\ List.length (commits_t (conn_db c)) = 2%nat
  /\ map ar_total_commits (authors_t (conn_db c)) = [2]
  /\ List.length (file_changes_t (conn_db c)) = 2%nat
  /\ map rr_total_commits (repos_t (conn_db c)) = [2].
Proof. vm_compute. repeat split; reflexivity. Qed.

(* ================================================================== *)
(** * Transactions *)

(** [C2] (amended): when no transaction is open, [withTransaction] runs the
    operation inside a new transaction; if the operation returns normally the
    transaction is committed and its result returned; if it raises, the
    store is restored to its state before the call and the same exception is
    re-raised, so none of its writes is observable.  When a transaction is
    already open, [BEGIN] raises: whatever the operation, it is not run, the
    connection is left as it was and the error of [BEGIN] is raised. *)
Theorem withTransaction_atomic : forall {A} (fn : M A) (c : Conn),
  (conn_txn c = None ->
   (forall a d', fn (conn_db c) = (inr a, d') ->
      withTransaction c fn = (inr a, mkConn d' None)) /\
   (forall e d', fn (conn_db c) = (inl e, d') ->
      withTransaction c fn = (inl e, c))) /\
  (forall snapshot, conn_txn c = Some snapshot ->
   withTransaction c fn
   = (inl (SqliteError "cannot start a transaction within a transaction"), c)).
Proof.
  intros A fn [d txn]. split.
  - intros Htxn. simpl in Htxn. subst txn.
    split; intros r d' Hfn; unfold withTransaction, beginTransaction; cbn [conn_txn];
      cbn [conn_db] in Hfn; cbv beta iota; cbn [conn_db];
      rewrite Hfn; reflexivity.
  - intros snapshot Htxn. simpl in Htxn. subst txn. reflexivity.
Qed.

Lemma withTransaction_atomic_witness :
  conn_txn (mkConn empty_db None) = None /\
  withTransaction (mkConn empty_db None) ex_failing_op = (inl RangeError, mkConn empty_db None) /\
  conn_txn (mkConn empty_db (Some empty_db)) = Some empty_db /\
  withTransaction (mkConn empty_db (Some empty_db)) ex_failing_op
  = (inl (SqliteError "cannot start a transaction within a transaction"), mkConn empty_db (Some empty_db)).
Proof.
  split; [reflexivity|]. split.
  - apply (proj2 (proj1 (withTransaction_atomic ex_failing_op (mkConn empty_db None)) eq_refl)
             RangeError (snd (ex_failing_op empty_db))).
    vm_compute. reflexivity.
  - split; [reflexivity|].
    exact (proj2 (withTransaction_atomic ex_failing_op (mkConn empty_db (Some empty_db)))
             empty_db eq_refl).
Defined.

(** [C2] counterexample: called while a transaction is already open (a
    nested call), [withTransaction] does not run the operation, although the
    operation would return normally, and raises the error of [BEGIN]. *)
Lemma withTransaction_nested_cex :
  let c := mkConn empty_db (Some empty_db) in
  let op := insertCommits "r" [ex_commit "c1" "a@x.com" 0 1] in
  fst (op (conn_db c)) = inr (1, 0) /\
  withTransaction c op
  = (inl (SqliteError "cannot start a transaction within a transaction"), c).
Proof. split; reflexivity. Qed.

(* ================================================================== *)
(** * Parsing the commit log *)

Lemma render_log_app : forall l1 l2, render_log (l1 ++ l2)%list = render_log l1 ++ render_log l2.
Proof.
  induction l1 as [|b l1 IH]; intros l2; cbn [render_log List.app]; [reflexivity|].
  rewrite IH, !str_app_assoc. reflexivity.
Qed.

Lemma block_body_split : forall b, lb_subject b = "COMMIT_START" ->
  block_body b = block_head b ++ COMMIT_START_NL ++ block_tail b.
Proof.
  intros b Hs. unfold block_body, block_head, block_tail, COMMIT_START_NL. rewrite Hs.
  rewrite !str_app_assoc. reflexivity.
Qed.

Lemma split_render_prefix : forall bs body rest,
  includes COMMIT_START_NL body = false -> forallb sentinel_free bs = true ->
  split_go (srev COMMIT_START_NL) (body ++ render_log bs ++ COMMIT_START_NL ++ rest) EmptyString
  = (body :: map block_body bs ++ split_go (srev COMMIT_START_NL) rest EmptyString)%list.
Proof.
  induction bs as [|b bs IH]; intros body rest Hbody Hbs; cbn [render_log map List.app].
  - cbn [append]. rewrite split_piece; [reflexivity | exact split_go_CS | exact Hbody].
  - simpl in Hbs. apply andb_prop in Hbs as [Hb Hbs].
    rewrite !str_app_assoc.
    rewrite split_piece; [| exact split_go_CS | exact Hbody].
    f_equal. apply IH; [now apply negb_true_iff | exact Hbs].
Qed.

Lemma word_app_nonblank : forall w y, word w = true ->
  negb (String.eqb (trim (w ++ y)) EmptyString) = true.
Proof.
  intros w y Hw. apply word_inv in Hw as [c [s [-> [Hc _]]]]. cbn [append].
  destruct (String.eqb_spec (trim (String c (s ++ y))) EmptyString) as [E|E];
    [exfalso; exact (trim_head_nonempty _ _ Hc E) | reflexivity].
Qed.

Lemma bodies_nonblank : forall bs, forallb wf_block bs = true ->
  forallb (fun b => negb (String.eqb (trim b) EmptyString)) (map block_body bs) = true.
Proof.
  induction bs as [|b bs IH]; intros H; [reflexivity|].
  simpl in H. apply andb_prop in H as [Hb Hbs]. cbn [map forallb].
  rewrite IH by exact Hbs. rewrite andb_true_r.
  unfold wf_block in Hb. do 5 (apply andb_prop in Hb as [Hb _]).
  unfold block_body. now apply word_app_nonblank.
Qed.

Lemma commit_blocks_split : forall bs1 b bs2,
  forallb wf_block bs1 = true -> wf_block b = true -> forallb wf_block bs2 = true ->
  forallb sentinel_free bs1 = true -> forallb sentinel_free bs2 = true ->
  lb_subject b = "COMMIT_START" ->
  includes COMMIT_START_NL (block_head b) = false ->
  includes COMMIT_START_NL (block_tail b) = false ->
  commit_blocks (render_log (bs1 ++ b :: bs2))
  = (map block_body bs1 ++ block_head b :: block_tail b :: map block_body bs2)%list.
Proof.
  intros bs1 b bs2 Hw1 Hb Hw2 Hs1 Hs2 Hsub Hh Ht. unfold commit_blocks, split.
  rewrite render_log_app. cbn [render_log]. rewrite (block_body_split b Hsub).
  rewrite !str_app_assoc.
  change (render_log bs1 ++ COMMIT_START_NL ++ ?r)
    with (EmptyString ++ render_log bs1 ++ COMMIT_START_NL ++ r).
  rewrite split_render_prefix by (reflexivity || exact Hs1).
  rewrite split_piece; [| exact split_go_CS | exact Hh].
  rewrite split_bodies by assumption.
  match goal with |- filter ?f (EmptyString :: ?l) = _ =>
    change (filter f (EmptyString :: l)) with (filter f l) end.
  rewrite filter_app. cbn [filter].
  assert (Hhead : negb (String.eqb (trim (block_head b)) EmptyString) = true).
  { unfold wf_block in Hb. do 5 (apply andb_prop in Hb as [Hb _]).
    unfold block_head. now apply word_app_nonblank. }
  assert (Htail : negb (String.eqb (trim (block_tail b)) EmptyString) = true)
    by (unfold block_tail; now apply word_app_nonblank).
  rewrite Hhead, Htail, !forallb_filter_id by (apply bodies_nonblank; assumption).
  reflexivity.
Qed.

Lemma lines_of_head : forall b, wf_block b = true ->
  split NL (block_head b) =
  [lb_sha b; lb_email b; lb_name b; lb_time b; String.concat " " (lb_parents b); EmptyString].
Proof.
  intros b Hb. unfold wf_block in Hb.
  apply andb_prop in Hb as [Hb _]. apply andb_prop in Hb as [Hb Ht].
  apply andb_prop in Hb as [Hb Hn]. apply andb_prop in Hb as [Hb He].
  apply andb_prop in Hb as [Hh Hp].
  apply negb_true_iff in Ht, Hn, He.
  unfold split, block_head.
  rewrite <- (str_app_nil_r (String.concat " " (lb_parents b) ++ NL)), str_app_assoc.
  rewrite (split_piece NL split_go_NL (lb_sha b)) by exact (word_no_nl _ Hh).
  rewrite (split_piece NL split_go_NL (lb_email b)) by exact He.
  rewrite (split_piece NL split_go_NL (lb_name b)) by exact Hn.
  rewrite (split_piece NL split_go_NL (lb_time b)) by exact Ht.
  rewrite (split_piece NL split_go_NL (String.concat " " (lb_parents b)))
    by exact (no_nl_concat_words _ Hp).
  reflexivity.
Qed.

Lemma parse_block_head : forall br b, wf_block b = true ->
  exists c, parse_block br (block_head b) = Some c
            /\ sha c = lb_sha b
            /\ isMerge c = (1 <? List.length (lb_parents b))%nat.
Proof.
  intros br b Hb. unfold parse_block. rewrite (lines_of_head b Hb).
  eexists. split; [reflexivity|]. cbn [nth sha isMerge].
  unfold wf_block in Hb. do 4 (apply andb_prop in Hb as [Hb _]).
  apply andb_prop in Hb as [Hh Hp]. split.
  - apply trim_no_ws. now apply andb_prop in Hh as [_ Hh].
  - rewrite parents_of_words by exact Hp.
    destruct (Nat.ltb_spec 1 (List.length (lb_parents b)));
      destruct (Z.ltb_spec 1 (Z.of_nat (List.length (lb_parents b)))); lia.
Qed.

(** [C3] (amended): for a log made of N well-formed blocks in which the
    start marker followed by a newline does not occur after any block's own
    marker, [parseGitLog] returns exactly N records, the i-th carrying the
    hash of the i-th block, and its merge flag is true iff that block lists
    more than one parent.  A well-formed block whose subject line is exactly
    [COMMIT_START], between such blocks, is cut in two at its subject line:
    its first five lines give one record, with the block's hash and merge
    flag, and the rest (the end sentinel and the numstat lines) gives a
    further record exactly when it has at least six lines. *)
Theorem parseGitLog_blocks : forall br,
  (forall bs, forallb wf_block bs = true -> forallb sentinel_free bs = true ->
   List.length (parseGitLog br (render_log bs)) = List.length bs /\
   map (fun c => (sha c, isMerge c)) (parseGitLog br (render_log bs))
   = map (fun b => (lb_sha b, (1 <? List.length (lb_parents b))%nat)) bs) /\
  (forall bs1 b bs2,
   forallb wf_block (bs1 ++ b :: bs2) = true ->
   forallb sentinel_free bs1 = true -> forallb sentinel_free bs2 = true ->
   lb_subject b = "COMMIT_START" ->
   includes COMMIT_START_NL (block_head b) = false ->
   includes COMMIT_START_NL (block_tail b) = false ->
   commit_blocks (render_log (bs1 ++ b :: bs2))
   = (map block_body bs1 ++ block_head b :: block_tail b :: map block_body bs2)%list /\
   exists ch,
     parseGitLog br (render_log (bs1 ++ b :: bs2))
     = (parseGitLog br (render_log bs1)
        ++ ch :: (match parse_block br (block_tail b) with Some c => [c] | None => [] end)
        ++ parseGitLog br (render_log bs2))%list /\
     sha ch = lb_sha b /\ isMerge ch = (1 <? List.length (lb_parents b))%nat /\
     (parse_block br (block_tail b) = None <-> (List.length (split NL (block_tail b)) < 6)%nat)).
Proof.
  intros br. split.
  - intros bs Hwf Hsf.
    assert (H : map (fun c => (sha c, isMerge c)) (parseGitLog br (render_log bs))
                = map (fun b => (lb_sha b, (1 <? List.length (lb_parents b))%nat)) bs).
    { unfold parseGitLog. rewrite commit_blocks_render by assumption.
      now apply parse_bodies. }
    split; [|exact H].
    apply (f_equal (@List.length _)) in H. now rewrite !length_map in H.
  - intros bs1 b bs2 Hwf Hs1 Hs2 Hsub Hh Ht.
    rewrite forallb_app in Hwf. apply andb_prop in Hwf as [Hw1 Hw2].
    cbn [forallb] in Hw2. apply andb_prop in Hw2 as [Hb Hw2].
    pose proof (commit_blocks_split bs1 b bs2 Hw1 Hb Hw2 Hs1 Hs2 Hsub Hh Ht) as Hcb.
    split; [exact Hcb|].
    destruct (parse_block_head br b Hb) as [ch [Hch [Hsha Hm]]].
    exists ch. split; [|split; [exact Hsha | split; [exact Hm|]]].
    + unfold parseGitLog at 1. rewrite Hcb, flat_map_app. cbn [flat_map]. rewrite Hch.
      unfold parseGitLog. rewrite !commit_blocks_render by assumption. reflexivity.
    + unfold parse_block at 1.
      destruct (Nat.ltb_spec (List.length (split NL (block_tail b))) 6) as [Hl|Hl];
        split; intros H; solve [reflexivity | assumption | discriminate | lia].
Qed.

Lemma parseGitLog_blocks_witness :
  forallb wf_block [ex_block "fix" ex_numstat3; ex_block "add" ""] = true /\
  forallb sentinel_free [ex_block "fix" ex_numstat3; ex_block "add" ""] = true /\
  List.length (parseGitLog "main" (render_log [ex_block "fix" ex_numstat3; ex_block "add" ""])) = 2%nat /\
  List.length (parseGitLog "main" (render_log [ex_block "COMMIT_START" ex_numstat3; ex_block "fix" ""]))
  = 3%nat.
Proof.
  split; [reflexivity|]. split; [reflexivity|]. split.
  - apply (proj1 (parseGitLog_blocks "main") [ex_block "fix" ex_numstat3; ex_block "add" ""]);
      reflexivity.
  - destruct (proj2 (parseGitLog_blocks "main") [] (ex_block "COMMIT_START" ex_numstat3)
                [ex_block "fix" ""]) as [_ [ch [E _]]];
      [reflexivity | reflexivity | reflexivity | reflexivity | vm_compute; reflexivity
       | vm_compute; reflexivity |].
    change [ex_block "COMMIT_START" ex_numstat3; ex_block "fix" ""]
      with ([] ++ ex_block "COMMIT_START" ex_numstat3 :: [ex_block "fix" ""])%list.
    rewrite E. vm_compute. reflexivity.
Defined.

(** [C3] counterexample: one well-formed block (as [git log] prints it for a
    commit whose subject line is [COMMIT_START] and which changes three
    files) gives two records. *)
Lemma parseGitLog_sentinel_subject_cex :
  forallb wf_block [ex_block "COMMIT_START" ex_numstat3] = true /\
  List.length (parseGitLog "main" (render_log [ex_block "COMMIT_START" ex_numstat3])) = 2%nat.
Proof. split; vm_compute; reflexivity. Qed.

(** [C4] (amended): [parseGitLog] emits at most one record per block, in
    block order; a block of fewer than six lines emits none; a block of at
    least six lines emits one even when it has no [COMMIT_MSG_END] line, and
    that record then has zero additions, deletions and files changed and no
    file changes. *)
Theorem parseGitLog_block_emission : forall br logOutput,
  parseGitLog br logOutput
  = flat_map (fun b => match parse_block br b with Some c => [c] | None => [] end)
             (commit_blocks logOutput) /\
  (forall block, parse_block br block = None <-> (List.length (split NL block) < 6)%nat) /\
  (forall block, (6 <= List.length (split NL block))%nat ->
     find_index (fun l => String.eqb l COMMIT_MSG_END) (split NL block) = None ->
     exists c, parse_block br block = Some c /\ additions c = 0 /\ deletions c = 0
               /\ filesChanged c = 0 /\ fileChanges c = []).
Proof.
  intros br logOutput. split; [reflexivity|]. split.
  - intros block. unfold parse_block.
    destruct (Nat.ltb_spec (List.length (split NL block)) 6) as [Hl|Hl];
      split; intros H; solve [reflexivity | assumption | discriminate | lia].
  - intros block Hl Hf. unfold parse_block.
    destruct (Nat.ltb_spec (List.length (split NL block)) 6) as [Hl'|_]; [lia|].
    rewrite Hf. eexists. repeat split; reflexivity.
Qed.

Lemma parseGitLog_block_emission_witness :
  (6 <= List.length (split NL (hd EmptyString (commit_blocks ex_short_log))))%nat /\
  exists c, parse_block "main" (hd EmptyString (commit_blocks ex_short_log)) = Some c
            /\ additions c = 0 /\ deletions c = 0 /\ filesChanged c = 0 /\ fileChanges c = [].
Proof.
  split; [vm_compute; lia|].
  apply (proj2 (proj2 (parseGitLog_block_emission "main" ex_short_log))).
  - vm_compute. lia.
  - vm_compute. reflexivity.
Defined.

(** [C4] counterexample: a block without its [COMMIT_MSG_END] line still
    yields a record. *)
Lemma parseGitLog_missing_sentinel_cex :
  commit_blocks ex_short_log = ["abc1234" ++ NL ++ "a@x.com" ++ NL ++ "A" ++ NL ++ "1000"
                                ++ NL ++ "def5678" ++ NL ++ "subject"] /\
  find_index (fun l => String.eqb l COMMIT_MSG_END) (split NL (hd EmptyString (commit_blocks ex_short_log))) = None /\
  List.length (parseGitLog "main" ex_short_log) = 1%nat.
Proof. repeat split; vm_compute; reflexivity. Qed.

(** [C8]: a numstat line [a TAB d TAB path] after [COMMIT_MSG_END] (one
    iteration [stat_step] of the loop over those lines) adds [stat_field a]
    to the commit's additions and [stat_field d] to its deletions, counts
    one changed file and appends one [FileChange]; a field that is the
    binary-file marker ["-"], or on which [parseInt] gives NaN, counts as
    zero. *)
Theorem stat_step_binary_line : forall st a d p,
  word a = true -> word d = true -> trim p <> EmptyString ->
  (exists path,
     stat_step st (a ++ TAB ++ d ++ TAB ++ p)
     = mkStatAcc (acc_additions st + stat_field a) (acc_deletions st + stat_field d)
                 (acc_filesChanged st + 1)
                 (acc_fileChanges st ++ [mkFileChange path (stat_field a) (stat_field d)])) /\
  (a = "-" \/ parseInt a = None -> stat_field a = 0) /\
  (d = "-" \/ parseInt d = None -> stat_field d = 0).
Proof.
  intros st a d p Ha Hd Hp.
  assert (Hz : forall x, x = "-" \/ parseInt x = None -> stat_field x = 0).
  { intros x [->|Hx]; [reflexivity|]. unfold stat_field. rewrite Hx.
    destruct (String.eqb x "-"); reflexivity. }
  split; [|split; apply Hz].
  unfold stat_step. rewrite trim_stat_line by assumption.
  assert (Hne : String.eqb (a ++ TAB ++ d ++ TAB ++ trim_end p) EmptyString = false).
  { apply word_inv in Ha as [c [s [-> _]]]. reflexivity. }
  rewrite Hne, split_ws_stat_line by assumption.
  destruct (split_ws_go (trim_end p) EmptyString true) as [|x xs] eqn:E;
    [exfalso; exact (split_ws_go_nonempty _ _ _ E)|].
  eexists. reflexivity.
Qed.

Lemma stat_step_binary_line_witness :
  (exists path,
     stat_step stat_init ("-" ++ TAB ++ "-" ++ TAB ++ "logo.png")
     = mkStatAcc (0 + stat_field "-") (0 + stat_field "-") (0 + 1)
                 ([] ++ [mkFileChange path (stat_field "-") (stat_field "-")])) /\
  stat_field "-" = 0.
Proof.
  destruct (stat_step_binary_line stat_init "-" "-" "logo.png" eq_refl eq_refl
              ltac:(vm_compute; discriminate)) as [H1 [H2 _]].
  split; [exact H1 | apply H2; left; reflexivity].
Defined.

(* ================================================================== *)
(** * Dates *)

Lemma digits_rev_digits : forall f n, str_forallb is_digit (Date.digits_rev f n) = true.
Proof.
  induction f as [|f IH]; intros n; cbn [Date.digits_rev str_forallb]; [reflexivity|].
  rewrite IH, andb_true_r. unfold is_digit.
  pose proof (Z.mod_pos_bound n 10 ltac:(lia)).
  rewrite nat_ascii_embedding by lia.
  apply andb_true_intro; split; apply Nat.leb_le; lia.
Qed.

Lemma srev_forallb : forall f s, str_forallb f (srev s) = str_forallb f s.
Proof.
  intros f s. induction s as [|c s IH]; simpl; [reflexivity|].
  rewrite str_forallb_app, IH. simpl. now rewrite andb_true_r, andb_comm.
Qed.

Lemma pad_date_chars : forall w n, str_forallb date_char (Date.pad w n) = true.
Proof.
  intros w n. unfold Date.pad. rewrite srev_forallb.
  apply (str_forallb_impl is_digit); [|apply digits_rev_digits].
  intros d Hd. unfold date_char. now rewrite Hd.
Qed.

Lemma date_string_chars : forall t, str_forallb date_char (Date.date_string t) = true.
Proof.
  intros t. unfold Date.date_string.
  destruct (Date.civil_from_days (t / 86400000)) as [[y m] d].
  rewrite !str_forallb_app, !pad_date_chars. simpl.
  unfold Date.year_string.
  destruct ((0 <=? y) && (y <=? 9999)); [now rewrite pad_date_chars|].
  rewrite str_forallb_app, pad_date_chars.
  destruct (y <? 0); reflexivity.
Qed.

Lemma date_string_excludes : forall c t, date_char c = false ->
  includes (String c EmptyString) (Date.date_string t) = false.
Proof.
  intros c t Hc. rewrite includes_single. apply negb_false_iff.
  apply (str_forallb_impl date_char); [|apply date_string_chars].
  intros d Hd. destruct (Ascii.eqb_spec c d); [subst; congruence | reflexivity].
Qed.

Lemma split_go_T : forall p rest,
  split_go (srev "T") ("T" ++ rest) (srev p) = p :: split_go (srev "T") rest EmptyString.
Proof. intros. simpl. now rewrite srev_involutive. Qed.

(** [date.toISOString().split("T")[0]] is the [YYYY-MM-DD] part. *)
Lemma iso_day_valid : forall t, Date.iso_day (Some t) = Some (Date.date_string t).
Proof.
  intros t. unfold Date.iso_day, Date.toISOString. cbn [option_map]. f_equal.
  unfold split. rewrite (split_piece "T" split_go_T); [reflexivity|].
  apply date_string_excludes. reflexivity.
Qed.

Lemma or_empty_id : forall s, or_empty s = s.
Proof. intros s. unfold or_empty. destruct (String.eqb_spec s EmptyString); congruence. Qed.

Lemma recent_first_valid : forall cs x, recent_first cs = true -> In x cs ->
  exists t, committedAt x = Some t.
Proof.
  induction cs as [|c cs IH]; intros x H Hin; [destruct Hin|].
  simpl in H. destruct (committedAt c) as [t|] eqn:Ec; [|discriminate].
  apply andb_prop in H as [_ H].
  destruct Hin as [->|Hin]; [now exists t | now apply IH].
Qed.

Lemma last_in : forall {A} (l : list A) (x : A), In (last l x) (x :: l).
Proof.
  intros A l. induction l as [|a l IH]; intros x; [now left|].
  destruct l as [|b l]; [right; now left|].
  change (last (a :: b :: l) x) with (last (b :: l) x).
  destruct (IH x) as [E|E]; [left; exact E | right; right; exact E].
Qed.

(** [C9]: for a commit list in [git log] order (most recent first, every
    date valid), [calculateSummaryStats] gives the range from the UTC
    calendar date of the last commit to that of the first; for the empty
    list both bounds are the empty string. *)
Theorem summary_date_range :
  (exists s, calculateSummaryStats [] = Some s
             /\ dateRange_from s = EmptyString /\ dateRange_to s = EmptyString) /\
  (forall c rest, recent_first (c :: rest) = true ->
   exists s tf tl, calculateSummaryStats (c :: rest) = Some s
     /\ committedAt c = Some tf /\ committedAt (last rest c) = Some tl
     /\ dateRange_from s = Date.date_string tl /\ dateRange_to s = Date.date_string tf).
Proof.
  split; [eexists; repeat split; reflexivity|].
  intros c rest H.
  destruct (recent_first_valid _ c H (or_introl eq_refl)) as [tf Ef].
  destruct (recent_first_valid _ _ H (last_in rest c)) as [tl El].
  unfold calculateSummaryStats, day_or_empty, last_opt, hd_error.
  rewrite El, Ef, !iso_day_valid. cbn [option_map]. rewrite !or_empty_id.
  do 3 eexists. repeat split; eassumption || reflexivity.
Qed.

Lemma summary_date_range_witness :
  recent_first [ex_commit "c2" "a@x.com" 90000000 4; ex_commit "c1" "a@x.com" 3600000 3] = true /\
  exists s, calculateSummaryStats [ex_commit "c2" "a@x.com" 90000000 4; ex_commit "c1" "a@x.com" 3600000 3] = Some s
    /\ dateRange_from s = "1970-01-01" /\ dateRange_to s = "1970-01-02".
Proof.
  split; [reflexivity|].
  destruct (proj2 summary_date_range (ex_commit "c2" "a@x.com" 90000000 4)
              [ex_commit "c1" "a@x.com" 3600000 3] eq_refl)
    as [s [tf [tl [Hs [Hf [Hl [Hfrom Hto]]]]]]].
  exists s. split; [exact Hs|].
  cbn in Hf, Hl. injection Hf as <-. injection Hl as <-.
  rewrite Hfrom, Hto. split; vm_compute; reflexivity.
Defined.

(* ================================================================== *)
(** * Merging an author into its stored row *)

(** [C6]: [insertAuthors] merges the dates with SQL [MIN] and [MAX] on the
    [toISOString] texts, which compare as byte strings.  A stored row dated
    2020-01-01 merged with an incoming author first and last seen on
    10000-01-01 (written ["+010000-..."]) ends with the year 10000 date as
    [first_commit_at], which is not the minimum, and keeps 2020-01-01 as
    [last_commit_at], which is not the maximum; the name is the incoming one
    and the counts add up. *)
Theorem insertAuthors_textual_min_max :
  let stored := mkAuthorRow "a@x.com" "A" "2020-01-01T00:00:00.000Z"
                            "2020-01-01T00:00:00.000Z" 1 in
  let incoming := mkAuthor "a@x.com" "B" (Some 253402300800000) (Some 253402300800000) 1 in
  Date.toISOString (Some 1577836800000) = Some "2020-01-01T00:00:00.000Z" /\
  Date.toISOString (Some 253402300800000) = Some "+010000-01-01T00:00:00.000Z" /\
  1577836800000 < 253402300800000 /\
  insertAuthors [incoming] (set_authors empty_db [stored])
  = (inr 1, set_authors empty_db
              [mkAuthorRow "a@x.com" "B" "+010000-01-01T00:00:00.000Z"
                           "2020-01-01T00:00:00.000Z" 2]).
Proof. repeat split; vm_compute; reflexivity. Qed.

(* ================================================================== *)
(** * Tables with a unique key *)

Lemma key_eqb_true : forall k1 k2, key_eqb k1 k2 = true <-> k1 = k2.
Proof.
  intros k1 k2. unfold key_eqb.
  destruct (list_eq_dec string_dec k1 k2); split; congruence.
Qed.

Lemma find_app_split : forall {A} (f : A -> bool) l1 l2,
  find f (l1 ++ l2) = match find f l1 with Some x => Some x | None => find f l2 end.
Proof.
  intros A f l1 l2. induction l1 as [|x l1 IH]; simpl; [reflexivity|].
  destruct (f x); [reflexivity | exact IH].
Qed.

Lemma NoDup_snoc : forall {A} (l : list A) x, NoDup l -> ~ In x l -> NoDup (l ++ [x]).
Proof.
  intros A l x Hl Hx. apply NoDup_app; [exact Hl | constructor; [intros []|constructor] |].
  intros a Ha [->|[]]. contradiction.
Qed.

Section TableFacts.
Context {R : Type} (key : R -> Key).

Lemma has_key_spec : forall k t, has_key key k t = true <-> In k (map key t).
Proof.
  intros k t. unfold has_key. rewrite existsb_exists, in_map_iff.
  split; intros [o [H1 H2]]; exists o.
  - apply key_eqb_true in H2. now split.
  - split; [exact H2 | now apply key_eqb_true].
Qed.

Lemma has_key_find : forall k t, has_key key k t = false -> find_key key k t = None.
Proof.
  intros k t H. unfold find_key. destruct (find _ t) as [o|] eqn:E; [|reflexivity].
  apply find_some in E as [Hin Hk]. apply key_eqb_true in Hk.
  assert (has_key key k t = true) by (apply has_key_spec, in_map_iff; now exists o).
  congruence.
Qed.

Lemma ioi_find : forall r t k,
  find_key key k (fst (insert_or_ignore key r t)) = find_key key k (t ++ [r]).
Proof.
  intros r t k. unfold insert_or_ignore.
  destruct (has_key key (key r) t) eqn:H; [|reflexivity].
  cbn [fst]. unfold find_key. rewrite find_app_split.
  destruct (find _ t) as [o|] eqn:E; [reflexivity|].
  simpl. destruct (key_eqb (key r) k) eqn:Ek; [|reflexivity].
  apply key_eqb_true in Ek. subst k.
  apply has_key_spec, in_map_iff in H as [o [Ho Hin]].
  apply (find_none _ _ E) in Hin. rewrite Ho in Hin.
  assert (key_eqb (key r) (key r) = true) by now apply key_eqb_true. congruence.
Qed.

Lemma ioi_nodup : forall r t, NoDup (map key t) -> NoDup (map key (fst (insert_or_ignore key r t))).
Proof.
  intros r t H. unfold insert_or_ignore.
  destruct (has_key key (key r) t) eqn:Hk; [exact H|]. cbn [fst].
  rewrite map_app. apply NoDup_snoc; [exact H|].
  intros Hin. apply has_key_spec in Hin. congruence.
Qed.

Lemma ioi_prefix : forall r t, exists n, fst (insert_or_ignore key r t) = (t ++ n)%list.
Proof.
  intros r t. unfold insert_or_ignore.
  destruct (has_key key (key r) t); [exists []; now rewrite app_nil_r | now exists [r]].
Qed.

Lemma find_key_app_congr : forall k x y z, find_key key k x = find_key key k y ->
  find_key key k (x ++ z) = find_key key k (y ++ z).
Proof. intros k x y z H. unfold find_key in *. rewrite !find_app_split, H. reflexivity. Qed.

Lemma ioi_fold_find : forall rows t k,
  find_key key k (fold_left (ioi_table key) rows t) = find_key key k (t ++ rows).
Proof.
  induction rows as [|r rows IH]; intros t k; simpl; [now rewrite app_nil_r|].
  rewrite IH.
  replace ((t ++ r :: rows)%list) with (((t ++ [r]) ++ rows)%list)
    by now rewrite <- app_assoc.
  apply find_key_app_congr, ioi_find.
Qed.

Lemma ioi_fold_nodup : forall rows t, NoDup (map key t) ->
  NoDup (map key (fold_left (ioi_table key) rows t)).
Proof.
  induction rows as [|r rows IH]; intros t H; simpl; [exact H|].
  apply IH, ioi_nodup, H.
Qed.

Lemma ioi_fold_prefix : forall rows t, exists n, fold_left (ioi_table key) rows t = (t ++ n)%list.
Proof.
  induction rows as [|r rows IH]; intros t; simpl; [exists []; now rewrite app_nil_r|].
  destruct (IH ((ioi_table key) t r)) as [n1 E1]. destruct (ioi_prefix r t) as [n2 E2].
  exists (n2 ++ n1)%list. rewrite E1. unfold ioi_table. rewrite E2, app_assoc. reflexivity.
Qed.

End TableFacts.

(* ================================================================== *)
(** * [insertFileChanges] *)

Lemma batches_go_concat : forall {A} fuel (l : list A), (List.length l <= fuel)%nat ->
  List.concat (batches_go fuel l) = l.
Proof.
  intros A fuel. induction fuel as [|f IH]; intros l Hl.
  - destruct l; [reflexivity | simpl in Hl; lia].
  - destruct l as [|x l']; [reflexivity|].
    cbn [batches_go List.concat]. rewrite IH; [apply firstn_skipn|].
    rewrite length_skipn. simpl in Hl |- *. unfold BATCH_SIZE. lia.
Qed.

Lemma batches_concat : forall {A} (l : list A), List.concat (batches l) = l.
Proof. intros A l. apply batches_go_concat. lia. Qed.

Lemma fold_batches : forall {A B} (f : B -> A -> B) bs acc,
  fold_left (fun acc batch => fold_left f batch acc) bs acc = fold_left f (List.concat bs) acc.
Proof.
  intros A B f bs. induction bs as [|b bs IH]; intros acc; simpl; [reflexivity|].
  now rewrite IH, fold_left_app.
Qed.

Lemma fold_insert_change : forall rows t n,
  fst (fold_left insert_change rows (t, n)) = fold_left (ioi_table fc_key) rows t.
Proof.
  induction rows as [|r rows IH]; intros t n; cbn [fold_left]; [reflexivity|].
  replace (insert_change (t, n) r)
    with (fst (insert_or_ignore fc_key r t), n + snd (insert_or_ignore fc_key r t))
    by (unfold insert_change; destruct (insert_or_ignore fc_key r t); reflexivity).
  apply IH.
Qed.

Lemma insertFileChanges_table : forall repoName commits d,
  (exists n, fst (insertFileChanges repoName commits d) = inr n) /\
  snd (insertFileChanges repoName commits d)
  = set_file_changes d (fold_left (ioi_table fc_key) (file_change_rows repoName commits)
                                  (file_changes_t d)).
Proof.
  intros repoName commits d. unfold insertFileChanges.
  rewrite fold_batches, batches_concat.
  pose proof (fold_insert_change (file_change_rows repoName commits) (file_changes_t d) 0) as H.
  destruct (fold_left insert_change _ _) as [t n]. cbn [fst] in H. subst t.
  split; [now exists n | reflexivity].
Qed.

(** [C5]: over any sequence of [insertFileChanges] calls on a table whose
    (repo name, commit sha, file path) keys are distinct, every call returns
    normally, the keys stay distinct, the rows stored before are kept in
    place, and the row stored for each key is the first one with that key
    among the rows stored before followed by every input row in order: a
    later duplicate is dropped, it does not overwrite. *)
Theorem insertFileChanges_no_duplicates : forall calls d,
  NoDup (map fc_key (file_changes_t d)) ->
  (forall repoName commits d', exists n, fst (insertFileChanges repoName commits d') = inr n) /\
  NoDup (map fc_key (file_changes_t (run_file_changes calls d))) /\
  (exists added, file_changes_t (run_file_changes calls d) = (file_changes_t d ++ added)%list) /\
  (forall k, find_key fc_key k (file_changes_t (run_file_changes calls d))
             = find_key fc_key k (file_changes_t d
                 ++ flat_map (fun call => file_change_rows (fst call) (snd call)) calls)).
Proof.
  intros calls d Hd. split; [intros; apply insertFileChanges_table|].
  revert d Hd. induction calls as [|[repoName commits] calls IH]; intros d Hd.
  - simpl. repeat split; [exact Hd | exists []; now rewrite app_nil_r | intros k; now rewrite app_nil_r].
  - cbn [run_file_changes flat_map fst snd].
    pose proof (proj2 (insertFileChanges_table repoName commits d)) as E.
    set (d1 := snd (insertFileChanges repoName commits d)) in *.
    assert (Hd1 : NoDup (map fc_key (file_changes_t d1)))
      by (rewrite E; apply ioi_fold_nodup, Hd).
    destruct (IH d1 Hd1) as [Hn [[added Ha] Hf]].
    split; [exact Hn|]. split.
    + destruct (ioi_fold_prefix fc_key (file_change_rows repoName commits) (file_changes_t d))
        as [n1 En1].
      exists (n1 ++ added)%list. rewrite Ha, E. cbn [file_changes_t set_file_changes].
      rewrite En1, app_assoc. reflexivity.
    + intros k. rewrite Hf, app_assoc. apply find_key_app_congr.
      rewrite E. cbn [file_changes_t set_file_changes]. apply ioi_fold_find.
Qed.

Lemma insertFileChanges_no_duplicates_witness :
  NoDup (map fc_key (file_changes_t empty_db)) /\
  find_key fc_key ["r"; "c1"; "f.ts"]
    (file_changes_t (run_file_changes [("r", [ex_dup_commit]); ("r", [ex_dup_commit])] empty_db))
  = Some (mkFileChangeRow "r" "c1" "f.ts" 1 0).
Proof.
  assert (H0 : NoDup (map fc_key (file_changes_t empty_db))) by constructor.
  split; [exact H0|].
  destruct (insertFileChanges_no_duplicates [("r", [ex_dup_commit]); ("r", [ex_dup_commit])]
              empty_db H0) as [_ [_ [_ Hf]]].
  rewrite Hf. vm_compute. reflexivity.
Defined.

(* ================================================================== *)
(** * [aggregateDailyStats] *)

Lemma assoc_get_set_eq : forall {V} k (v : V) m, assoc_get k (assoc_set k v m) = Some v.
Proof.
  intros V k v m. induction m as [|[k' v'] m IH]; simpl.
  - now rewrite String.eqb_refl.
  - destruct (String.eqb k k') eqn:E; simpl; [now rewrite String.eqb_refl|].
    rewrite E. exact IH.
Qed.

Lemma assoc_get_set_neq : forall {V} k k' (v : V) m, k <> k' ->
  assoc_get k (assoc_set k' v m) = assoc_get k m.
Proof.
  intros V k k' v m Hk. induction m as [|[k'' v'] m IH]; simpl.
  - apply String.eqb_neq in Hk. now rewrite Hk.
  - destruct (String.eqb_spec k' k''); simpl.
    + subst k''. apply String.eqb_neq in Hk. now rewrite Hk.
    + destruct (String.eqb k k''); [reflexivity | exact IH].
Qed.

Lemma assoc_set_keys : forall {V} k (v : V) m x,
  In x (map fst (assoc_set k v m)) -> x = k \/ In x (map fst m).
Proof.
  intros V k v m x. induction m as [|[k' v'] m IH]; simpl; [intuition|].
  destruct (String.eqb_spec k k'); simpl; [intuition|].
  intros [H|H]; [now right; left | destruct (IH H); [now left | now right; right]].
Qed.

Lemma assoc_set_nodup : forall {V} k (v : V) m, NoDup (map fst m) -> NoDup (map fst (assoc_set k v m)).
Proof.
  intros V k v m. induction m as [|[k' v'] m IH]; intros H; simpl.
  - constructor; [intros []|constructor].
  - inversion H as [|? ? Hn Hd]; subst.
    destruct (String.eqb_spec k k'); simpl; [subst; now constructor|].
    constructor; [|now apply IH].
    intros Hin. apply assoc_set_keys in Hin as [->|Hin]; [congruence | contradiction].
Qed.

Lemma assoc_get_in : forall {V} k (v : V) m, assoc_get k m = Some v -> In (k, v) m.
Proof.
  intros V k v m. induction m as [|[k' v'] m IH]; simpl; [discriminate|].
  destruct (String.eqb_spec k k'); [intros [= <-]; subst; now left | intros H; right; auto].
Qed.

Lemma in_assoc_get : forall {V} k (v : V) m, NoDup (map fst m) -> In (k, v) m ->
  assoc_get k m = Some v.
Proof.
  intros V k v m. induction m as [|[k' v'] m IH]; intros Hd Hin; [destruct Hin|].
  inversion Hd as [|? ? Hn Hd']; subst. simpl.
  destruct Hin as [[= <- <-]|Hin]; [now rewrite String.eqb_refl|].
  destruct (String.eqb_spec k k'); [|now apply IH].
  subst k'. exfalso. apply Hn, in_map_iff. now exists (k, v).
Qed.

Lemma sum_Z_snoc : forall {A} (f : A -> Z) l x, sum_Z f (l ++ [x]) = sum_Z f l + f x.
Proof. intros. unfold sum_Z. now rewrite fold_left_app. Qed.

Lemma daily_members_snoc : forall repoName P c k,
  daily_members repoName (P ++ [c]) k
  = (daily_members repoName P k
     ++ (if String.eqb (daily_key (commit_day c) repoName (authorEmail c)) k then [c] else []))%list.
Proof. intros. unfold daily_members. rewrite filter_app. reflexivity. Qed.

Lemma commit_day_valid : forall c t, committedAt c = Some t -> commit_day c = Date.date_string t.
Proof. intros c t H. unfold commit_day. now rewrite H, iso_day_valid. Qed.

(** The loop keeps, for every key, the row its commits so far add up to. *)
Lemma daily_loop_spec : forall repoName cs P m,
  (forall c, In c cs -> committedAt c <> None) ->
  NoDup (map fst m) ->
  (forall k, assoc_get k m = stat_of repoName (daily_members repoName P k)) ->
  exists m', aggregateDailyStats_loop repoName cs m = Some m' /\ NoDup (map fst m')
    /\ forall k, assoc_get k m' = stat_of repoName (daily_members repoName (P ++ cs) k).
Proof.
  intros repoName cs. induction cs as [|c cs IH]; intros P m Hv Hd Hm.
  - exists m. rewrite app_nil_r. now repeat split.
  - destruct (committedAt c) as [t|] eqn:Et; [|exfalso; now apply (Hv c (or_introl eq_refl))].
    cbn [aggregateDailyStats_loop]. rewrite Et, iso_day_valid.
    rewrite <- (commit_day_valid c t Et).
    replace ((P ++ c :: cs)%list) with (((P ++ [c]) ++ cs)%list) by now rewrite <- app_assoc.
    apply IH; [intros x Hx; apply Hv; now right | |].
    + destruct (assoc_get _ m); now apply assoc_set_nodup.
    + intros k. rewrite daily_members_snoc.
      set (kc := daily_key (commit_day c) repoName (authorEmail c)).
      destruct (String.eqb_spec kc k) as [<-|Hk].
      * rewrite Hm. destruct (daily_members repoName P kc) as [|c0 rest];
          cbn [stat_of app]; rewrite assoc_get_set_eq; [reflexivity|].
        rewrite app_comm_cons, !sum_Z_snoc, length_app. cbn [List.length].
        cbn [commitsCount ds_date ds_repoName ds_authorEmail ds_additions ds_deletions
             ds_filesChanged].
        do 2 f_equal. lia.
      * rewrite app_nil_r, <- Hm.
        destruct (assoc_get kc m); apply assoc_get_set_neq; congruence.
Qed.

Lemma str_app_cancel_l : forall p x y : string, p ++ x = p ++ y -> x = y.
Proof. induction p as [|c p IH]; intros x y H; [exact H | injection H; apply IH]. Qed.

Lemma pipe_split_inj : forall d1 d2 x y, no_pipe d1 = true -> no_pipe d2 = true ->
  d1 ++ "|" ++ x = d2 ++ "|" ++ y -> d1 = d2 /\ x = y.
Proof.
  unfold no_pipe. induction d1 as [|c1 d1 IH]; intros [|c2 d2] x y H1 H2 H; simpl in *.
  - injection H as ->. now split.
  - injection H as <- _. discriminate.
  - injection H as -> _. discriminate.
  - injection H as <- H. apply andb_prop in H1 as [_ H1]. apply andb_prop in H2 as [_ H2].
    destruct (IH d2 x y H1 H2 H) as [-> ->]. now split.
Qed.

Lemma daily_key_inj : forall d1 d2 r e1 e2, no_pipe d1 = true -> no_pipe d2 = true ->
  daily_key d1 r e1 = daily_key d2 r e2 -> d1 = d2 /\ e1 = e2.
Proof.
  intros d1 d2 r e1 e2 H1 H2 H. unfold daily_key in H.
  apply pipe_split_inj in H as [-> H]; [|assumption..].
  split; [reflexivity|]. apply str_app_cancel_l in H. now injection H.
Qed.

Lemma commit_day_no_pipe : forall c, committedAt c <> None -> no_pipe (commit_day c) = true.
Proof.
  intros c H. destruct (committedAt c) as [t|] eqn:Et; [|congruence].
  rewrite (commit_day_valid c t Et). unfold no_pipe.
  apply (str_forallb_impl date_char); [|apply date_string_chars].
  intros x Hx. destruct (Ascii.eqb_spec "|" x); [subst; discriminate | reflexivity].
Qed.

Lemma daily_members_group : forall repoName cs d e,
  (forall c, In c cs -> committedAt c <> None) -> no_pipe d = true ->
  daily_members repoName cs (daily_key d repoName e) = filter (same_group d e) cs.
Proof.
  intros repoName cs d e Hv Hd. unfold daily_members. apply filter_ext_in.
  intros c Hc. unfold same_group.
  destruct (String.eqb_spec (daily_key (commit_day c) repoName (authorEmail c))
                            (daily_key d repoName e)) as [E|E].
  - apply daily_key_inj in E as [-> ->]; [|now apply commit_day_no_pipe, Hv | exact Hd].
    now rewrite !String.eqb_refl.
  - destruct (String.eqb_spec (commit_day c) d), (String.eqb_spec (authorEmail c) e);
      subst; try reflexivity. contradiction.
Qed.

Lemma NoDup_map_through : forall {A B C} (f : A -> B) (g : A -> C) (h : C -> B) l,
  NoDup (map f l) -> (forall x, In x l -> f x = h (g x)) -> NoDup (map g l).
Proof.
  intros A B C f g h l. induction l as [|x l IH]; intros Hd Hfg; simpl; [constructor|].
  inversion Hd as [|? ? Hn Hd']; subst. constructor.
  - intros Hin. apply in_map_iff in Hin as [y [Hy Hin]]. apply Hn, in_map_iff.
    exists y. split; [|exact Hin].
    rewrite (Hfg x (or_introl eq_refl)), (Hfg y (or_intror Hin)), Hy. reflexivity.
  - apply IH; [exact Hd' | intros y Hy; apply Hfg; now right].
Qed.

(** [C7]: when every commit date is valid, [aggregateDailyStats] returns one
    row per (UTC date, repo name, author e-mail) group present in the input,
    with no two rows for the same group, and each row's counts are the
    number of commits and the sums of additions, deletions and files changed
    over exactly the input commits of that author on that UTC date. *)
Theorem daily_stats_groups : forall commits repoName,
  (forall c, In c commits -> committedAt c <> None) ->
  exists rows, aggregateDailyStats commits repoName = Some rows
  /\ NoDup (map (fun r => (ds_date r, ds_repoName r, ds_authorEmail r)) rows)
  /\ (forall c, In c commits ->
        exists r, In r rows /\ ds_date r = commit_day c /\ ds_repoName r = repoName
                  /\ ds_authorEmail r = authorEmail c)
  /\ (forall r, In r rows ->
        let grp := filter (same_group (ds_date r) (ds_authorEmail r)) commits in
        ds_repoName r = repoName /\ grp <> []
        /\ commitsCount r = Z.of_nat (List.length grp)
        /\ ds_additions r = sum_Z additions grp /\ ds_deletions r = sum_Z deletions grp
        /\ ds_filesChanged r = sum_Z filesChanged grp).
Proof.
  intros commits repoName Hv.
  destruct (daily_loop_spec repoName commits [] [] Hv (NoDup_nil _) (fun k => eq_refl))
    as [m [Hl [Hd Hm]]].
  cbn [app] in Hm.
  (* what an entry of the final map holds *)
  assert (Hent : forall k v, In (k, v) m ->
    exists c0, In c0 commits /\ k = daily_key (commit_day c0) repoName (authorEmail c0)
      /\ v = mkDailyStat (commit_day c0) repoName (authorEmail c0)
               (Z.of_nat (List.length (daily_members repoName commits k)))
               (sum_Z additions (daily_members repoName commits k))
               (sum_Z deletions (daily_members repoName commits k))
               (sum_Z filesChanged (daily_members repoName commits k))).
  { intros k v Hin. pose proof (in_assoc_get k v m Hd Hin) as Hg. rewrite Hm in Hg.
    destruct (daily_members repoName commits k) as [|c0 rest] eqn:E; [discriminate|].
    assert (Hc0 : In c0 (daily_members repoName commits k)) by (rewrite E; now left).
    unfold daily_members in Hc0. apply filter_In in Hc0 as [Hc0 Hk].
    apply String.eqb_eq in Hk.
    exists c0. split; [exact Hc0|]. split; [now symmetry|].
    injection Hg as <-. reflexivity. }
  exists (map snd m). unfold aggregateDailyStats. rewrite Hl. split; [reflexivity|].
  split; [|split].
  - rewrite map_map.
    apply (NoDup_map_through fst _ (fun '(d, r, e) => daily_key d r e) m Hd).
    intros [k v] Hin. destruct (Hent k v Hin) as [c0 [_ [-> ->]]]. reflexivity.
  - intros c Hc. set (kc := daily_key (commit_day c) repoName (authorEmail c)).
    assert (Hne : daily_members repoName commits kc <> []).
    { intros E. assert (In c (daily_members repoName commits kc)) as Hin
        by (apply filter_In; split; [exact Hc | apply String.eqb_refl]).
      rewrite E in Hin. destruct Hin. }
    destruct (assoc_get kc m) as [v|] eqn:Ev.
    + apply assoc_get_in in Ev as Hin. destruct (Hent kc v Hin) as [c0 [Hc0 [Hk ->]]].
      apply daily_key_inj in Hk as [Hday Hem];
        [|now apply commit_day_no_pipe, Hv | now apply commit_day_no_pipe, Hv].
      exists (mkDailyStat (commit_day c0) repoName (authorEmail c0)
                (Z.of_nat (List.length (daily_members repoName commits kc)))
                (sum_Z additions (daily_members repoName commits kc))
                (sum_Z deletions (daily_members repoName commits kc))
                (sum_Z filesChanged (daily_members repoName commits kc))).
      split; [apply in_map_iff; eexists; split; [|exact Hin]; reflexivity
             | cbn; now repeat split].
    + rewrite Hm in Ev. destruct (daily_members repoName commits kc); [contradiction|discriminate].
  - intros r Hr. apply in_map_iff in Hr as [[k v] [<- Hin]]. cbn [snd].
    destruct (Hent k v Hin) as [c0 [Hc0 [Hk ->]]]. cbn.
    rewrite Hk, daily_members_group by (assumption || now apply commit_day_no_pipe, Hv).
    split; [reflexivity|]. split; [|now repeat split].
    intros E. assert (In c0 (filter (same_group (commit_day c0) (authorEmail c0)) commits))
      as Hin0 by (apply filter_In; split; [exact Hc0 | unfold same_group; now rewrite !String.eqb_refl]).
    rewrite E in Hin0. destruct Hin0.
Qed.

Lemma daily_stats_groups_witness :
  (forall c, In c [ex_commit "c2" "a@x.com" 7200000 4; ex_commit "c1" "a@x.com" 3600000 3;
                   ex_commit "c0" "b@x.com" 100000000 1] -> committedAt c <> None) /\
  exists rows,
    aggregateDailyStats [ex_commit "c2" "a@x.com" 7200000 4; ex_commit "c1" "a@x.com" 3600000 3;
                         ex_commit "c0" "b@x.com" 100000000 1] "r" = Some rows
    /\ NoDup (map (fun r => (ds_date r, ds_repoName r, ds_authorEmail r)) rows)
    /\ List.length rows = 2%nat.
Proof.
  assert (Hv : forall c, In c [ex_commit "c2" "a@x.com" 7200000 4; ex_commit "c1" "a@x.com" 3600000 3;
                               ex_commit "c0" "b@x.com" 100000000 1] -> committedAt c <> None)
    by (intros c [<-|[<-|[<-|[]]]]; discriminate).
  split; [exact Hv|].
  destruct (daily_stats_groups _ "r" Hv) as [rows [Hr [Hn _]]].
  exists rows. split; [exact Hr|]. split; [exact Hn|].
  vm_compute in Hr. injection Hr as <-. reflexivity.
Defined.

(* ================================================================== *)
(** * Re-running the load step: keys *)

Lemma existsb_map_comp : forall {A B} (p : B -> bool) (f : A -> B) l,
  existsb p (map f l) = existsb (fun x => p (f x)) l.
Proof. intros A B p f l. induction l as [|x l IH]; simpl; [reflexivity | now rewrite IH]. Qed.

Lemma upsert_keys : forall {R} (key : R -> Key) update r t,
  (forall o, key (update o r) = key o) ->
  map key (upsert key update r t) = add_key (map key t) (key r).
Proof.
  intros R key update r t Hu. unfold upsert, add_key, has_key.
  rewrite existsb_map_comp. cbv beta. destruct (existsb _ t).
  - rewrite map_map. apply map_ext. intros o. destruct (key_eqb _ _); [apply Hu | reflexivity].
  - now rewrite map_app.
Qed.

Lemma ioi_keys : forall {R} (key : R -> Key) r t,
  map key (fst (insert_or_ignore key r t)) = add_key (map key t) (key r).
Proof.
  intros R key r t. unfold insert_or_ignore, add_key, has_key.
  rewrite existsb_map_comp. cbv beta.
  destruct (existsb _ t); cbn [fst]; [reflexivity | now rewrite map_app].
Qed.

Lemma ioi_fold_keys : forall {R} (key : R -> Key) rows t,
  map key (fold_left (ioi_table key) rows t) = fold_left add_key (map key rows) (map key t).
Proof.
  intros R key rows. induction rows as [|r rows IH]; intros t; simpl; [reflexivity|].
  rewrite IH. unfold ioi_table. now rewrite ioi_keys.
Qed.

Lemma add_view_app : forall v w1 w2, add_view (add_view v w1) w2 = add_view v (view_app w1 w2).
Proof. intros [] [] []. unfold add_view, view_app; cbn. now rewrite !fold_left_app. Qed.

Lemma add_view_nil : forall v, add_view v no_keys = v.
Proof. intros []. reflexivity. Qed.

Lemma KeyEffect_ret : forall {A} (a : A), KeyEffect (ret a) true no_keys.
Proof. intros A a d. split; [reflexivity | now rewrite add_view_nil]. Qed.

Lemma KeyEffect_bind : forall {A B} (m : M A) (k : A -> M B) ok1 ok2 w1 w2,
  KeyEffect m ok1 w1 -> (forall a, KeyEffect (k a) ok2 w2) ->
  KeyEffect (bind m k) (ok1 && ok2) (view_app w1 w2).
Proof.
  intros A B m k ok1 ok2 w1 w2 H1 H2 d. unfold bind. specialize (H1 d).
  destruct (m d) as [[e|a] d1]; [now rewrite H1|].
  destruct H1 as [-> Hv]. specialize (H2 a d1).
  destruct (k a d1) as [[e|b] d2]; [exact H2|].
  destruct H2 as [-> Hv2]. split; [reflexivity|]. now rewrite Hv2, Hv, add_view_app.
Qed.

Lemma add_key_in : forall l k, In k (add_key l k).
Proof.
  intros l k. unfold add_key. destruct (existsb _ l) eqn:E.
  - apply existsb_exists in E as [k' [Hin Hk]]. apply key_eqb_true in Hk. now subst.
  - apply in_or_app. now right; left.
Qed.

Lemma add_key_mono : forall l k x, In x l -> In x (add_key l k).
Proof.
  intros l k x H. unfold add_key. destruct (existsb _ l); [exact H | apply in_or_app; now left].
Qed.

Lemma add_key_noop : forall l k, In k l -> add_key l k = l.
Proof.
  intros l k H. unfold add_key.
  assert (existsb (fun k' => key_eqb k' k) l = true) as ->; [|reflexivity].
  apply existsb_exists. exists k. split; [exact H | now apply key_eqb_true].
Qed.

Lemma add_keys_mono : forall ks l x, In x l -> In x (fold_left add_key ks l).
Proof.
  induction ks as [|k ks IH]; intros l x H; simpl; [exact H|].
  apply IH, add_key_mono, H.
Qed.

Lemma add_keys_in : forall ks l k, In k ks -> In k (fold_left add_key ks l).
Proof.
  induction ks as [|k' ks IH]; intros l k H; [destruct H|].
  simpl. destruct H as [<-|H]; [apply add_keys_mono, add_key_in | now apply IH].
Qed.

Lemma add_keys_noop : forall ks l, (forall k, In k ks -> In k l) -> fold_left add_key ks l = l.
Proof.
  induction ks as [|k ks IH]; intros l H; simpl; [reflexivity|].
  rewrite add_key_noop by (apply H; now left). apply IH. intros; apply H; now right.
Qed.

Lemma add_keys_idem : forall ks l,
  fold_left add_key ks (fold_left add_key ks l) = fold_left add_key ks l.
Proof. intros ks l. apply add_keys_noop. intros k H. now apply add_keys_in. Qed.

Lemma add_view_idem : forall v w, add_view (add_view v w) w = add_view v w.
Proof. intros [] []. unfold add_view; cbn. now rewrite !add_keys_idem. Qed.

Lemma counts_of_view : forall d1 d2, key_view d1 = key_view d2 -> table_counts d1 = table_counts d2.
Proof.
  intros d1 d2 H. unfold key_view in H. injection H as H1 H2 H3 H4 H5.
  unfold table_counts.
  rewrite <- (length_map commit_key (commits_t d1)), H1, length_map.
  rewrite <- (length_map author_key (authors_t d1)), H2, length_map.
  rewrite <- (length_map fc_key (file_changes_t d1)), H3, length_map.
  rewrite <- (length_map tag_key (tags_t d1)), H4, length_map.
  rewrite <- (length_map repo_key (repos_t d1)), H5, length_map.
  reflexivity.
Qed.

Lemma insertCommits_loop_keys : forall repoName cs,
  exists w, forall p e d,
    key_view (snd (insertCommits_loop repoName cs p e d)) = add_view (key_view d) w.
Proof.
  intros repoName cs. induction cs as [|c cs [w IH]].
  - exists no_keys. intros. simpl. now rewrite add_view_nil.
  - destruct (Date.toISOString (committedAt c)) as [iso|] eqn:Ei.
    + exists (view_app (mkKeyView [commit_key (commit_row repoName c iso)] [] [] [] []) w).
      intros p e d. cbn [insertCommits_loop]. rewrite Ei, IH, <- add_view_app. f_equal.
      unfold key_view, add_view, set_commits; cbn.
      rewrite upsert_keys by reflexivity. reflexivity.
    + exists w. intros p e d. cbn [insertCommits_loop]. now rewrite Ei, IH.
Qed.

Lemma insertCommits_effect : forall repoName cs, exists w, KeyEffect (insertCommits repoName cs) true w.
Proof.
  intros repoName cs. destruct (insertCommits_loop_keys repoName cs) as [w Hw].
  exists w. intros d. unfold insertCommits.
  pose proof (Hw 0 0 d) as H. destruct (insertCommits_loop repoName cs 0 0 d) as [r d'].
  now split.
Qed.

Lemma insertAuthors_loop_effect : forall authors,
  exists ok w, KeyEffect (insertAuthors_loop authors) ok w.
Proof.
  induction authors as [|a rest [ok [w IH]]].
  - exists true, no_keys. apply KeyEffect_ret.
  - cbn [insertAuthors_loop].
    destruct (Date.toISOString (firstCommitAt a)) as [f|];
      [destruct (Date.toISOString (lastCommitAt a)) as [l|]|].
    + exists ok, (view_app (mkKeyView [] [[email a]] [] [] []) w). intros d.
      specialize (IH (set_authors d (upsert author_key author_update (author_row a f l)
                                      (authors_t d)))).
      destruct (insertAuthors_loop rest _) as [[e|u] d']; [exact IH|].
      destruct IH as [-> Hv]. split; [reflexivity|]. rewrite Hv, <- add_view_app. f_equal.
      unfold key_view, add_view, set_authors; cbn.
      rewrite upsert_keys by reflexivity. reflexivity.
    + exists false, no_keys. intros d. reflexivity.
    + exists false, no_keys. intros d. reflexivity.
Qed.

Lemma insertAuthors_effect : forall authors, exists ok w, KeyEffect (insertAuthors authors) ok w.
Proof.
  intros authors. destruct (insertAuthors_loop_effect authors) as [ok [w H]].
  exists (ok && true), (view_app w no_keys).
  apply KeyEffect_bind; [exact H | intros; apply KeyEffect_ret].
Qed.

Lemma insertFileChanges_effect : forall repoName cs,
  exists w, KeyEffect (insertFileChanges repoName cs) true w.
Proof.
  intros repoName cs.
  exists (mkKeyView [] [] (map fc_key (file_change_rows repoName cs)) [] []). intros d.
  destruct (insertFileChanges_table repoName cs d) as [[n Hn] Ht].
  destruct (insertFileChanges repoName cs d) as [r d']. cbn in Hn, Ht. subst r d'.
  split; [reflexivity|]. unfold key_view, add_view, set_file_changes; cbn.
  now rewrite ioi_fold_keys.
Qed.

Lemma insertTags_loop_effect : forall repoName tags,
  exists ok w, KeyEffect (insertTags_loop repoName tags) ok w.
Proof.
  intros repoName tags. induction tags as [|tg rest [ok [w IH]]].
  - exists true, no_keys. apply KeyEffect_ret.
  - assert (Hput : forall date, KeyEffect
              (fun d => insertTags_loop repoName rest
                 (set_tags d (upsert tag_key tag_update (tag_row repoName tg date) (tags_t d))))
              ok (view_app (mkKeyView [] [] [] [[repoName; tagName tg]] []) w)).
    { intros date d.
      specialize (IH (set_tags d (upsert tag_key tag_update (tag_row repoName tg date) (tags_t d)))).
      destruct (insertTags_loop repoName rest _) as [[e|u] d']; [exact IH|].
      destruct IH as [-> Hv]. split; [reflexivity|]. rewrite Hv, <- add_view_app. f_equal.
      unfold key_view, add_view, set_tags; cbn.
      rewrite upsert_keys by reflexivity. reflexivity. }
    cbn [insertTags_loop].
    destruct (tagDate tg) as [dt|]; [destruct (Date.toISOString dt) as [s|]|].
    + exists ok, (view_app (mkKeyView [] [] [] [[repoName; tagName tg]] []) w). apply Hput.
    + exists false, no_keys. intros d. reflexivity.
    + exists ok, (view_app (mkKeyView [] [] [] [[repoName; tagName tg]] []) w). apply Hput.
Qed.

Lemma insertTags_step_effect : forall repoName tags,
  exists ok w, KeyEffect (match tags with [] => ret 0 | _ => insertTags repoName tags end) ok w.
Proof.
  intros repoName tags. destruct tags as [|tg rest].
  - exists true, no_keys. apply KeyEffect_ret.
  - destruct (insertTags_loop_effect repoName (tg :: rest)) as [ok [w H]].
    exists (ok && true), (view_app w no_keys).
    apply KeyEffect_bind; [exact H | intros; apply KeyEffect_ret].
Qed.

Lemma upsertRepositoryMetadata_effect : forall repoName language cs,
  exists ok w, KeyEffect (upsertRepositoryMetadata repoName language cs) ok w.
Proof.
  intros repoName language cs.
  assert (Hput : forall lc d,
    key_view (set_repos d (upsert repo_key repo_update
                (mkRepoRow repoName language 0 lc (Z.of_nat (List.length cs))) (repos_t d)))
    = add_view (key_view d) (mkKeyView [] [] [] [] [[repoName]])).
  { intros lc d. unfold key_view, add_view, set_repos; cbn.
    rewrite upsert_keys by reflexivity. reflexivity. }
  unfold upsertRepositoryMetadata. destruct cs as [|c rest].
  - exists true, (mkKeyView [] [] [] [] [[repoName]]). intros d. split; [reflexivity | apply Hput].
  - destruct (Date.toISOString (committedAt c)) as [s|].
    + exists true, (mkKeyView [] [] [] [] [[repoName]]). intros d. split; [reflexivity | apply Hput].
    + exists false, no_keys. intros d. reflexivity.
Qed.

Lemma load_ops_effect : forall repoName language commits authors tags,
  exists ok w, KeyEffect (load_ops repoName language commits authors tags) ok w.
Proof.
  intros repoName language commits authors tags. unfold load_ops.
  destruct (insertCommits_effect repoName commits) as [w1 H1].
  destruct (insertAuthors_effect authors) as [ok2 [w2 H2]].
  destruct (insertFileChanges_effect repoName commits) as [w3 H3].
  destruct (insertTags_step_effect repoName tags) as [ok4 [w4 H4]].
  destruct (upsertRepositoryMetadata_effect repoName language commits) as [ok5 [w5 H5]].
  eexists. eexists.
  apply KeyEffect_bind; [exact H1|]. intros _.
  apply KeyEffect_bind; [exact H2|]. intros _.
  apply KeyEffect_bind; [exact H3|]. intros _.
  apply KeyEffect_bind; [exact H4|]. intros _.
  exact H5.
Qed.

(* ================================================================== *)
(** * Re-running the load step: [total_commits] *)

Lemma find_map_comp : forall {A B} (p : B -> bool) (f : A -> B) l,
  find p (map f l) = option_map f (find (fun x => p (f x)) l).
Proof. intros A B p f l. induction l as [|x l IH]; simpl; [reflexivity|]. now destruct (p (f x)). Qed.

Lemma find_ext_fun : forall {A} (p q : A -> bool) l, (forall x, p x = q x) -> find p l = find q l.
Proof. intros A p q l H. induction l as [|x l IH]; simpl; [reflexivity|]. now rewrite H, IH. Qed.

Lemma fold_sum_shift : forall {A} (f : A -> Z) l a,
  fold_left (fun s c => s + f c) l a = a + fold_left (fun s c => s + f c) l 0.
Proof.
  intros A f l. induction l as [|x l IH]; intros a; cbn [fold_left]; [lia|].
  rewrite (IH (a + f x)), (IH (0 + f x)). lia.
Qed.

Lemma sum_Z_cons : forall {A} (f : A -> Z) x l, sum_Z f (x :: l) = f x + sum_Z f l.
Proof. intros. unfold sum_Z. cbn [fold_left]. rewrite (fold_sum_shift f l (0 + f x)). lia. Qed.

Lemma existsb_false_filter : forall {A} (p : A -> bool) l, existsb p l = false -> filter p l = [].
Proof.
  intros A p l. induction l as [|x l IH]; simpl; [reflexivity|].
  destruct (p x); [discriminate | exact IH].
Qed.

(** One author upsert on the [total_commits] of the first row of e-mail [e]. *)
Lemma author_upsert_total : forall r t e,
  option_map ar_total_commits
    (find (fun x => String.eqb (ar_email x) e) (upsert author_key author_update r t))
  = if String.eqb (ar_email r) e
    then Some (or_zero (option_map ar_total_commits (find (fun x => String.eqb (ar_email x) e) t))
               + ar_total_commits r)
    else option_map ar_total_commits (find (fun x => String.eqb (ar_email x) e) t).
Proof.
  intros r t e. unfold upsert.
  destruct (has_key author_key (author_key r) t) eqn:Hk.
  - rewrite find_map_comp.
    rewrite (find_ext_fun _ (fun x => String.eqb (ar_email x) e)) by
      (intros x; destruct (key_eqb _ _); reflexivity).
    destruct (find (fun x => String.eqb (ar_email x) e) t) as [o|] eqn:F.
    + apply find_some in F as [_ Fo]. apply String.eqb_eq in Fo. cbn [option_map or_zero].
      unfold author_key. destruct (String.eqb_spec (ar_email r) e) as [Er|Er].
      * rewrite (proj2 (key_eqb_true [ar_email o] [ar_email r])) by congruence. reflexivity.
      * destruct (key_eqb [ar_email o] [ar_email r]) eqn:Ek; [|reflexivity].
        apply key_eqb_true in Ek. injection Ek. congruence.
    + destruct (String.eqb_spec (ar_email r) e) as [Er|Er]; [|reflexivity].
      exfalso. apply has_key_spec, in_map_iff in Hk as [o [Ho Hin]].
      apply (find_none _ _ F) in Hin. unfold author_key in Ho. injection Ho as Ho.
      rewrite Ho, Er, String.eqb_refl in Hin. discriminate.
  - rewrite find_app_split.
    destruct (find (fun x => String.eqb (ar_email x) e) t) as [o|] eqn:F.
    + destruct (String.eqb_spec (ar_email r) e) as [Er|Er]; [|reflexivity].
      exfalso. apply find_some in F as [Hin Fo]. apply String.eqb_eq in Fo.
      assert (has_key author_key (author_key r) t = true); [|congruence].
      apply has_key_spec, in_map_iff. exists o. unfold author_key. split; [congruence | exact Hin].
    + simpl. destruct (String.eqb (ar_email r) e); reflexivity.
Qed.

Lemma author_total_upsert : forall d r e,
  author_total e (set_authors d (upsert author_key author_update r (authors_t d)))
  = if String.eqb (ar_email r) e
    then Some (or_zero (author_total e d) + ar_total_commits r)
    else author_total e d.
Proof. intros d r e. unfold author_total. cbn [authors_t set_authors]. apply author_upsert_total. Qed.

Lemma insertAuthors_loop_total : forall authors d u d',
  insertAuthors_loop authors d = (inr u, d') ->
  forall e, author_total e d'
  = if existsb (fun a => String.eqb (email a) e) authors
    then Some (or_zero (author_total e d)
               + sum_Z totalCommits (filter (fun a => String.eqb (email a) e) authors))
    else author_total e d.
Proof.
  induction authors as [|a rest IH]; intros d u d' H e.
  - cbn in H. now injection H as _ <-.
  - cbn [insertAuthors_loop] in H.
    destruct (Date.toISOString (firstCommitAt a)) as [f|];
      [destruct (Date.toISOString (lastCommitAt a)) as [l|]|]; try discriminate.
    rewrite (IH _ _ _ H e), author_total_upsert.
    cbn [ar_email ar_total_commits author_row existsb filter].
    destruct (String.eqb (email a) e).
    + cbn [orb]. rewrite sum_Z_cons.
      destruct (existsb (fun a0 => String.eqb (email a0) e) rest) eqn:Ex.
      * cbn [or_zero]. f_equal. lia.
      * rewrite existsb_false_filter by exact Ex. unfold sum_Z. cbn. f_equal. lia.
    + reflexivity.
Qed.

Lemma bind_inr : forall {A B} (m : M A) (k : A -> M B) d b d'',
  bind m k d = (inr b, d'') -> exists a d', m d = (inr a, d') /\ k a d' = (inr b, d'').
Proof.
  intros A B m k d b d'' H. unfold bind in H.
  destruct (m d) as [[e|a] d']; [discriminate|]. now exists a, d'.
Qed.

Lemma insertCommits_loop_authors : forall repoName cs p e d,
  authors_t (snd (insertCommits_loop repoName cs p e d)) = authors_t d.
Proof.
  intros repoName cs. induction cs as [|c cs IH]; intros p e d; [reflexivity|].
  cbn [insertCommits_loop]. destruct (Date.toISOString (committedAt c)); now rewrite IH.
Qed.

Lemma insertTags_loop_authors : forall repoName tags d,
  authors_t (snd (insertTags_loop repoName tags d)) = authors_t d.
Proof.
  intros repoName tags. induction tags as [|tg rest IH]; intros d; [reflexivity|].
  cbn [insertTags_loop].
  destruct (tagDate tg) as [dt|]; [destruct (Date.toISOString dt)|]; try reflexivity;
    rewrite IH; reflexivity.
Qed.

Lemma author_total_same : forall e d d', authors_t d' = authors_t d ->
  author_total e d' = author_total e d.
Proof. intros e d d' H. unfold author_total. now rewrite H. Qed.

Lemma load_ops_author_total : forall repoName language commits authors tags d u d',
  load_ops repoName language commits authors tags d = (inr u, d') ->
  forall e, author_total e d'
  = if existsb (fun a => String.eqb (email a) e) authors
    then Some (or_zero (author_total e d)
               + sum_Z totalCommits (filter (fun a => String.eqb (email a) e) authors))
    else author_total e d.
Proof.
  intros repoName language commits authors tags d u d' H e. unfold load_ops in H.
  apply bind_inr in H as [r1 [d1 [H1 H]]].
  apply bind_inr in H as [r2 [d2 [H2 H]]].
  apply bind_inr in H as [r3 [d3 [H3 H]]].
  apply bind_inr in H as [r4 [d4 [H4 H5]]].
  assert (E1 : authors_t d1 = authors_t d).
  { unfold insertCommits in H1. pose proof (insertCommits_loop_authors repoName commits 0 0 d).
    destruct (insertCommits_loop _ _ _ _ _). injection H1 as _ <-. assumption. }
  assert (E2 : forall e, author_total e d2
    = if existsb (fun a => String.eqb (email a) e) authors
      then Some (or_zero (author_total e d1)
                 + sum_Z totalCommits (filter (fun a => String.eqb (email a) e) authors))
      else author_total e d1).
  { unfold insertAuthors in H2. apply bind_inr in H2 as [[] [d1' [Hl Hr]]].
    cbn in Hr. injection Hr as _ <-. exact (insertAuthors_loop_total _ _ _ _ Hl). }
  assert (E3 : authors_t d3 = authors_t d2).
  { pose proof (proj2 (insertFileChanges_table repoName commits d2)) as Ht.
    rewrite H3 in Ht. cbn in Ht. now subst d3. }
  assert (E4 : authors_t d4 = authors_t d3).
  { destruct tags as [|tg rest]; [cbn in H4; now injection H4 as _ <-|].
    unfold insertTags in H4. apply bind_inr in H4 as [[] [d3' [Hl Hr]]].
    cbn in Hr. injection Hr as _ <-.
    pose proof (insertTags_loop_authors repoName (tg :: rest) d3) as Ha.
    rewrite Hl in Ha. exact Ha. }
  assert (E5 : authors_t d' = authors_t d4).
  { unfold upsertRepositoryMetadata in H5. destruct commits as [|c rest].
    - now injection H5 as _ <-.
    - destruct (Date.toISOString (committedAt c)); [now injection H5 as _ <- | discriminate]. }
  rewrite (author_total_same e d4 d') by exact E5.
  rewrite (author_total_same e d3 d4) by exact E4.
  rewrite (author_total_same e d2 d3) by exact E3.
  rewrite E2, (author_total_same e d d1) by exact E1. reflexivity.
Qed.

Lemma assoc_set_in : forall {V} k (v : V) m x, In x (assoc_set k v m) -> x = (k, v) \/ In x m.
Proof.
  intros V k v m x. induction m as [|[k' v'] m IH]; simpl; [intuition|].
  destruct (String.eqb k k'); simpl; [intuition|].
  intros [H|H]; [now right; left | destruct (IH H); [now left | now right; right]].
Qed.

Lemma count_by_snoc : forall e P c,
  count_by e (P ++ [c]) = count_by e P + (if String.eqb (authorEmail c) e then 1 else 0).
Proof.
  intros e P c. unfold count_by. rewrite filter_app, length_app. cbn [filter].
  destruct (String.eqb (authorEmail c) e); cbn [List.length]; lia.
Qed.

Lemma authors_inv_step : forall P m c, authors_inv P m ->
  authors_inv (P ++ [c]) (aggregateAuthors_step m c).
Proof.
  intros P m c [Hd [He Ht]]. unfold aggregateAuthors_step.
  destruct (assoc_get (authorEmail c) m) as [ex|] eqn:Eg.
  - assert (Hex : email ex = authorEmail c) by (apply He, assoc_get_in, Eg).
    split; [now apply assoc_set_nodup|]. split.
    + intros k v Hin. apply assoc_set_in in Hin as [[= -> ->]|Hin]; [exact Hex | now apply He].
    + intros e. rewrite existsb_app, count_by_snoc. cbn [existsb].
      destruct (String.eqb_spec (authorEmail c) e) as [<-|Hne].
      * rewrite assoc_get_set_eq. specialize (Ht (authorEmail c)). rewrite Eg in Ht.
        destruct (existsb _ P); [|discriminate]. injection Ht as Ht. cbn. f_equal. lia.
      * rewrite assoc_get_set_neq by congruence. rewrite orb_false_r, Z.add_0_r. apply Ht.
  - split; [now apply assoc_set_nodup|]. split.
    + intros k v Hin. apply assoc_set_in in Hin as [[= -> ->]|Hin]; [reflexivity | now apply He].
    + intros e. rewrite existsb_app, count_by_snoc. cbn [existsb].
      destruct (String.eqb_spec (authorEmail c) e) as [<-|Hne].
      * rewrite assoc_get_set_eq. specialize (Ht (authorEmail c)). rewrite Eg in Ht.
        destruct (existsb _ P) eqn:Ex; [discriminate|].
        unfold count_by. rewrite existsb_false_filter by exact Ex. reflexivity.
      * rewrite assoc_get_set_neq by congruence. rewrite orb_false_r, Z.add_0_r. apply Ht.
Qed.

Lemma authors_inv_fold : forall cs P m, authors_inv P m ->
  authors_inv (P ++ cs) (fold_left aggregateAuthors_step cs m).
Proof.
  induction cs as [|c cs IH]; intros P m H; simpl; [now rewrite app_nil_r|].
  replace ((P ++ c :: cs)%list) with (((P ++ [c]) ++ cs)%list) by now rewrite <- app_assoc.
  apply IH, authors_inv_step, H.
Qed.

Lemma filter_email_assoc : forall m e, NoDup (map fst m) ->
  (forall k v, In (k, v) m -> email v = k) ->
  filter (fun a => String.eqb (email a) e) (map snd m)
  = match assoc_get e m with Some v => [v] | None => [] end.
Proof.
  induction m as [|[k v] m IH]; intros e Hd He; [reflexivity|].
  inversion Hd as [|? ? Hn Hd']; subst. cbn [map snd filter assoc_get].
  rewrite (He k v (or_introl eq_refl)).
  rewrite IH by (assumption || (intros; apply He; now right)).
  destruct (String.eqb_spec k e) as [<-|Hne].
  2: { destruct (String.eqb_spec e k); [congruence | reflexivity]. }
  rewrite String.eqb_refl.
  destruct (assoc_get k m) as [v'|] eqn:Eg; [|reflexivity].
  exfalso. apply Hn, in_map_iff. exists (k, v'). split; [reflexivity | now apply assoc_get_in].
Qed.

Lemma aggregateAuthors_counts : forall commits e,
  existsb (fun a => String.eqb (email a) e) (aggregateAuthors commits)
  = existsb (fun c => String.eqb (authorEmail c) e) commits /\
  sum_Z totalCommits (filter (fun a => String.eqb (email a) e) (aggregateAuthors commits))
  = count_by e commits.
Proof.
  intros commits e.
  assert (H0 : authors_inv [] []) by (split; [constructor | split; [intros ? ? [] | reflexivity]]).
  destruct (authors_inv_fold commits [] [] H0) as [Hd [He Ht]]. cbn [app] in Ht.
  unfold aggregateAuthors.
  assert (Hx : forall l : list Author, existsb (fun a => String.eqb (email a) e) l
               = match filter (fun a => String.eqb (email a) e) l with [] => false | _ => true end).
  { induction l as [|a l IHl]; [reflexivity|]. cbn. destruct (String.eqb (email a) e); auto. }
  rewrite Hx, filter_email_assoc by assumption. specialize (Ht e).
  destruct (assoc_get e _) as [v|]; destruct (existsb _ commits) eqn:Ex; try discriminate.
  - injection Ht as Ht. split; [reflexivity|]. rewrite sum_Z_cons, Ht. unfold sum_Z. cbn. lia.
  - split; [reflexivity|]. unfold count_by. now rewrite existsb_false_filter.
Qed.

(** [etlGitRepo]'s load step, case by case. *)
Lemma etl_load_cases : forall c repoName language commits tags, commits <> [] ->
  etl_load c repoName language commits tags
  = match conn_txn c with
    | Some _ => (inl (SqliteError "cannot start a transaction within a transaction"), c)
    | None =>
        match load_ops repoName language commits (aggregateAuthors commits) tags (conn_db c) with
        | (inr u, d') => (inr u, mkConn d' None)
        | (inl e, _) => (inl e, c)
        end
    end.
Proof.
  intros c repoName language commits tags Hc. unfold etl_load.
  destruct commits as [|c0 cs]; [contradiction|].
  unfold withTransaction, beginTransaction. destruct c as [d [s|]]; [reflexivity|].
  cbv beta iota. cbn [conn_db conn_txn].
  destruct (load_ops _ _ _ _ _ d) as [[e|u] d']; reflexivity.
Qed.

Lemma in_authorEmail_existsb : forall e commits, In e (map authorEmail commits) ->
  existsb (fun c => String.eqb (authorEmail c) e) commits = true.
Proof.
  intros e commits H. apply existsb_exists. apply in_map_iff in H as [c [<- Hc]].
  exists c. split; [exact Hc | apply String.eqb_refl].
Qed.

(** [C1] (amended): running the load step of [etlGitRepo] a second time on
    the same parsed input leaves the number of rows of commits, authors,
    file_changes, tags and repos as the first run left them. When the first
    run completes, so does the second, and each input author's total_commits
    grows in each run by that author's number of input commits: after the
    first run it is [n1 = n0 + k], where [n0] is the value stored before the
    first run (0 when the author had no row) and [k] the author's number of
    input commits, and after the second run [n1 + k].  It is twice [n1]
    exactly when [n0] is 0, in particular when the author had no row. *)
Theorem etl_rerun_counts : forall c repoName language commits tags,
  let r1 := etl_load c repoName language commits tags in
  let r2 := etl_load (snd r1) repoName language commits tags in
  table_counts (conn_db (snd r2)) = table_counts (conn_db (snd r1)) /\
  (fst r1 = inr tt ->
   fst r2 = inr tt /\
   forall e, In e (map authorEmail commits) ->
   exists n1, author_total e (conn_db (snd r1)) = Some n1 /\
              n1 = or_zero (author_total e (conn_db c)) + count_by e commits /\
              author_total e (conn_db (snd r2)) = Some (n1 + count_by e commits) /\
              (author_total e (conn_db (snd r2)) = Some (2 * n1)
               <-> or_zero (author_total e (conn_db c)) = 0) /\
              (author_total e (conn_db c) = None ->
               n1 = count_by e commits /\ author_total e (conn_db (snd r2)) = Some (2 * n1))).
Proof.
  intros c repoName language commits tags. cbv zeta.
  destruct commits as [|c0 cs].
  { cbn [etl_load fst snd]. split; [reflexivity|]. intros _. split; [reflexivity|]. intros e []. }
  set (commits := c0 :: cs).
  assert (Hne : commits <> []) by discriminate.
  set (authors := aggregateAuthors commits).
  destruct (conn_txn c) as [s|] eqn:Et.
  { assert (R1 : etl_load c repoName language commits tags
                 = (inl (SqliteError "cannot start a transaction within a transaction"), c))
      by (rewrite etl_load_cases by exact Hne; now rewrite Et).
    rewrite R1. cbn [fst snd]. rewrite R1. cbn [fst snd].
    split; [reflexivity | discriminate]. }
  destruct (load_ops_effect repoName language commits authors tags) as [ok [w Hk]].
  pose proof (Hk (conn_db c)) as Hk1.
  destruct (load_ops repoName language commits authors tags (conn_db c)) as [[ex|u] d1] eqn:E1.
  { assert (R1 : etl_load c repoName language commits tags = (inl ex, c))
      by (rewrite etl_load_cases by exact Hne; rewrite Et; fold authors; now rewrite E1).
    rewrite R1. cbn [fst snd]. rewrite R1. cbn [fst snd].
    split; [reflexivity | discriminate]. }
  destruct Hk1 as [Hok Hv1].
  assert (R1 : etl_load c repoName language commits tags = (inr u, mkConn d1 None))
    by (rewrite etl_load_cases by exact Hne; rewrite Et; fold authors; now rewrite E1).
  pose proof (Hk d1) as Hk2.
  destruct (load_ops repoName language commits authors tags d1) as [[ex2|u2] d2] eqn:E2.
  { congruence. }
  destruct Hk2 as [_ Hv2].
  assert (R2 : etl_load (mkConn d1 None) repoName language commits tags = (inr u2, mkConn d2 None))
    by (rewrite etl_load_cases by exact Hne; cbn [conn_txn conn_db]; fold authors; now rewrite E2).
  rewrite R1. cbn [fst snd]. rewrite R2. cbn [fst snd conn_db].
  split.
  { apply counts_of_view. rewrite Hv2, Hv1. apply add_view_idem. }
  intros _. split; [now destruct u2|].
  intros e He.
  pose proof (in_authorEmail_existsb e commits He) as Hx.
  destruct (aggregateAuthors_counts commits e) as [Ha Hs]. fold authors in Ha, Hs.
  rewrite Hx in Ha.
  pose proof (load_ops_author_total _ _ _ _ _ _ _ _ E1 e) as T1.
  pose proof (load_ops_author_total _ _ _ _ _ _ _ _ E2 e) as T2.
  rewrite Ha, Hs in T1, T2.
  exists (or_zero (author_total e (conn_db c)) + count_by e commits).
  rewrite T2, T1.
  destruct (author_total e (conn_db c)) as [n0|]; cbn [or_zero];
    split; try reflexivity; split; try reflexivity; split; try reflexivity; split.
  - split; [intros H; apply (f_equal or_zero) in H; cbn [or_zero] in H; lia | intros H; f_equal; lia].
  - intros H0. discriminate H0.
  - split; [intros H; apply (f_equal or_zero) in H; cbn [or_zero] in H; lia | intros H; f_equal; lia].
  - intros _. split; [lia | f_equal; lia].
Qed.

Lemma etl_rerun_counts_witness :
  let cs := [ex_commit "c1" "a@x.com" 3600000 3] in
  let r1 := etl_load (mkConn empty_db None) "r" None cs [] in
  fst r1 = inr tt /\
  author_total "a@x.com" (conn_db (snd (etl_load (snd r1) "r" None cs []))) = Some 2.
Proof.
  cbv zeta.
  destruct (etl_rerun_counts (mkConn empty_db None) "r" None [ex_commit "c1" "a@x.com" 3600000 3] [])
    as [_ H].
  cbv zeta in H.
  assert (H1 : fst (etl_load (mkConn empty_db None) "r" None [ex_commit "c1" "a@x.com" 3600000 3] [])
               = inr tt) by (vm_compute; reflexivity).
  split; [exact H1|].
  destruct (proj2 (H H1) "a@x.com" (or_introl eq_refl)) as [n1 [_ [_ [_ [_ H3]]]]].
  destruct (H3 (eq_refl : author_total "a@x.com" (conn_db (mkConn empty_db None)) = None)) as [Hn H4].
  rewrite H4, Hn. vm_compute. reflexivity.
Defined.

(** [C1] counterexample: the authors table is shared by all repositories. An
    author who already has a row with total_commits 5 (from another
    repository) and has one commit in the input gets 6 after the first run
    and 7 after the second: the value does not double. *)
Lemma etl_rerun_not_doubled_cex :
  let c := mkConn (set_authors empty_db
             [mkAuthorRow "a@x.com" "A" "2019-01-01T00:00:00.000Z" "2019-01-01T00:00:00.000Z" 5]) None in
  let cs := [ex_commit "c1" "a@x.com" 3600000 3] in
  let r1 := etl_load c "r" None cs [] in
  let r2 := etl_load (snd r1) "r" None cs [] in
  fst r1 = inr tt /\ fst r2 = inr tt /\
  author_total "a@x.com" (conn_db (snd r1)) = Some 6 /\
  author_total "a@x.com" (conn_db (snd r2)) = Some 7 /\
  table_counts (conn_db (snd r2)) = table_counts (conn_db (snd r1)).
Proof. vm_compute. repeat split. Qed.

(* ================================================================== *)
(** ** Further properties: [parseGitLog] *)

Lemma stat_step_ok : forall st raw, stat_ok st -> stat_ok (stat_step st raw).
Proof.
  intros st raw (H1 & H2 & H3). unfold stat_step. cbv zeta.
  destruct (String.eqb (trim raw) EmptyString); [now split|].
  destruct (3 <=? List.length (split_ws (trim raw)))%nat; [|now split].
  unfold stat_ok; cbn [acc_additions acc_deletions acc_filesChanged acc_fileChanges].
  rewrite length_app, !sum_Z_snoc. cbn [List.length fc_additions fc_deletions].
  rewrite H1, H2, H3. split; [lia | split; reflexivity].
Qed.

Lemma fold_stat_ok : forall l st, stat_ok st -> stat_ok (fold_left stat_step l st).
Proof.
  induction l as [|x l IH]; intros st H; [exact H|]. apply IH, stat_step_ok, H.
Qed.

Lemma stat_init_ok : stat_ok stat_init.
Proof. repeat split. Qed.

Lemma in_parseGitLog : forall br log c, In c (parseGitLog br log) ->
  exists b, In b (commit_blocks log) /\ parse_block br b = Some c.
Proof.
  intros br log c H. unfold parseGitLog in H. apply in_flat_map in H as [b [Hb Hc]].
  exists b. split; [exact Hb|]. destruct (parse_block br b); [|contradiction].
  destruct Hc as [<-|[]]. reflexivity.
Qed.

(** Every commit [parseGitLog] returns carries the branch it was given, and
    its [filesChanged], [additions] and [deletions] are the number of its
    [fileChanges] and the sums of their additions and deletions. *)
Theorem parseGitLog_commit_totals : forall br log c, In c (parseGitLog br log) ->
  branch c = br /\
  filesChanged c = Z.of_nat (List.length (fileChanges c)) /\
  additions c = sum_Z fc_additions (fileChanges c) /\
  deletions c = sum_Z fc_deletions (fileChanges c).
Proof.
  intros br log c H. apply in_parseGitLog in H as [b [_ Hp]].
  unfold parse_block in Hp. cbv zeta in Hp.
  destruct (List.length (split NL b) <? 6)%nat; [discriminate|].
  injection Hp as <-. cbn [branch filesChanged fileChanges additions deletions].
  split; [reflexivity|].
  assert (Hs : stat_ok (match find_index (fun l => String.eqb l COMMIT_MSG_END) (split NL b) with
                        | Some k => fold_left stat_step (skipn (S k) (split NL b)) stat_init
                        | None => stat_init end)).
  { destruct (find_index _ _); [apply fold_stat_ok|]; apply stat_init_ok. }
  exact Hs.
Qed.

Lemma parseGitLog_commit_totals_witness :
  let c := mkGitCommit "abc1234abc1234abc1234abc1234abc1234abcd" "a@x.com" "A" (Some 1000000)
             "subject" 5 2 1 false "main" [mkFileChange "file.ts" 5 2] in
  branch c = "main" /\ filesChanged c = Z.of_nat (List.length (fileChanges c)) /\
  additions c = sum_Z fc_additions (fileChanges c) /\
  deletions c = sum_Z fc_deletions (fileChanges c).
Proof.
  cbv zeta. apply (parseGitLog_commit_totals "main" spec_example_log).
  vm_compute. left. reflexivity.
Defined.

Lemma stat_step_proj : forall st raw,
  GitParserTs.stat_step (stat_proj st) raw = stat_proj (stat_step st raw).
Proof.
  intros st raw. unfold GitParserTs.stat_step, stat_step, stat_proj. cbv zeta.
  destruct (String.eqb (trim raw) EmptyString); [reflexivity|].
  destruct (3 <=? List.length (split_ws (trim raw)))%nat; reflexivity.
Qed.

Lemma fold_stat_proj : forall l st,
  fold_left GitParserTs.stat_step l (stat_proj st) = stat_proj (fold_left stat_step l st).
Proof.
  induction l as [|x l IH]; intros st; [reflexivity|].
  cbn [fold_left]. rewrite stat_step_proj. apply IH.
Qed.

Lemma parse_block_proj : forall br b,
  GitParserTs.parse_block br b = option_map drop_file_changes (parse_block br b).
Proof.
  intros br b. unfold GitParserTs.parse_block, parse_block. cbv zeta.
  destruct (List.length (split NL b) <? 6)%nat; [reflexivity|].
  destruct (find_index _ _) as [k|].
  - change (0, 0, 0) with (stat_proj stat_init). rewrite fold_stat_proj. reflexivity.
  - reflexivity.
Qed.

(** The [parseGitLog] of [git-parser.ts] returns, for the same [git log]
    output and branch, the commits of the [parseGitLog] of [database.ts]
    without their [fileChanges]: same order, same values in every other
    field. *)
Theorem gitparser_parseGitLog_agrees : forall br log,
  GitParserTs.parseGitLog br log = map drop_file_changes (parseGitLog br log).
Proof.
  intros br log. unfold GitParserTs.parseGitLog, parseGitLog.
  induction (commit_blocks log) as [|b bs IH]; [reflexivity|].
  cbn [flat_map]. rewrite map_app, IH, parse_block_proj.
  destruct (parse_block br b); reflexivity.
Qed.

(* ================================================================== *)
(** ** Further properties: [aggregateAuthors] *)

Lemma authors_inv_all : forall commits,
  authors_inv commits (fold_left aggregateAuthors_step commits []).
Proof.
  intros commits.
  assert (H0 : authors_inv [] []) by (split; [constructor | split; [intros ? ? [] | reflexivity]]).
  exact (authors_inv_fold commits [] [] H0).
Qed.

Lemma in_aggregateAuthors : forall commits a, In a (aggregateAuthors commits) ->
  assoc_get (email a) (fold_left aggregateAuthors_step commits []) = Some a.
Proof.
  intros commits a H. destruct (authors_inv_all commits) as [Hd [He _]].
  unfold aggregateAuthors in H. apply in_map_iff in H as [[k v] [Hv Hin]].
  cbn [snd] in Hv. subst v. rewrite (He k a Hin). now apply in_assoc_get.
Qed.

Lemma assoc_get_some_existsb : forall commits e v,
  assoc_get e (fold_left aggregateAuthors_step commits []) = Some v ->
  existsb (fun c => String.eqb (authorEmail c) e) commits = true.
Proof.
  intros commits e v H. destruct (authors_inv_all commits) as [_ [_ Ht]].
  specialize (Ht e). rewrite H in Ht. destruct (existsb _ _); [reflexivity | discriminate].
Qed.

Lemma aggregateAuthors_emails : forall commits,
  NoDup (map email (aggregateAuthors commits)) /\
  (forall e, In e (map email (aggregateAuthors commits)) <-> In e (map authorEmail commits)).
Proof.
  intros commits. destruct (authors_inv_all commits) as [Hd [He Ht]].
  set (m := fold_left aggregateAuthors_step commits []) in *.
  assert (Hmap : map email (aggregateAuthors commits) = map fst m).
  { unfold aggregateAuthors. fold m. rewrite map_map.
    apply map_ext_in. intros [k v] Hin. apply (He k v Hin). }
  split; [now rewrite Hmap|].
  intros e. rewrite Hmap. split.
  - intros Hin. apply in_map_iff in Hin as [[k v] [Hk Hin]]. cbn [fst] in Hk. subst k.
    pose proof (in_assoc_get e v m Hd Hin) as Hg.
    pose proof (assoc_get_some_existsb commits e v Hg) as Hx.
    apply existsb_exists in Hx as [c [Hc Hce]]. apply String.eqb_eq in Hce.
    apply in_map_iff. now exists c.
  - intros Hin. apply in_map_iff in Hin as [c [Hce Hc]].
    specialize (Ht e). destruct (assoc_get e m) as [v|] eqn:Hg.
    + apply assoc_get_in in Hg. apply in_map_iff. now exists (e, v).
    + assert (Hx : existsb (fun c => String.eqb (authorEmail c) e) commits = true)
        by (apply existsb_exists; exists c; split; [exact Hc | now apply String.eqb_eq]).
      rewrite Hx in Ht. discriminate.
Qed.

(** [aggregateAuthors] returns one author per distinct e-mail of the input:
    the e-mails are pairwise different, they are exactly the input commits'
    e-mails, and each author's [totalCommits] is the number of input
    commits with that e-mail (so at least 1). *)
Theorem aggregateAuthors_one_per_email : forall commits,
  NoDup (map email (aggregateAuthors commits)) /\
  (forall e, In e (map email (aggregateAuthors commits)) <-> In e (map authorEmail commits)) /\
  (forall a, In a (aggregateAuthors commits) ->
   totalCommits a = count_by (email a) commits /\ 1 <= totalCommits a).
Proof.
  intros commits. destruct (aggregateAuthors_emails commits) as [H1 H2].
  split; [exact H1|]. split; [exact H2|].
  destruct (authors_inv_all commits) as [_ [_ Ht]].
  intros a Ha. pose proof (in_aggregateAuthors commits a Ha) as Hg.
  specialize (Ht (email a)). rewrite Hg in Ht.
  pose proof (assoc_get_some_existsb commits (email a) a Hg) as Hx.
  rewrite Hx in Ht. injection Ht as Ht. split; [exact Ht|].
  rewrite Ht. unfold count_by.
  apply existsb_exists in Hx as [c [Hc Hce]].
  assert (Hf : In c (filter (fun c => String.eqb (authorEmail c) (email a)) commits))
    by (apply filter_In; now split).
  destruct (filter _ commits); [contradiction | cbn [List.length]; lia].
Qed.

Lemma last_opt_snoc : forall {A} (l : list A) x, last_opt (l ++ [x]) = Some x.
Proof.
  intros A l x. destruct l as [|y l]; [reflexivity|].
  cbn [last_opt app]. f_equal. apply last_last.
Qed.

Lemma name_inv_step : forall P m c,
  (forall e, option_map name (assoc_get e m)
             = option_map authorName (last_opt (filter (fun c => String.eqb (authorEmail c) e) P))) ->
  forall e, option_map name (assoc_get e (aggregateAuthors_step m c))
            = option_map authorName (last_opt (filter (fun c => String.eqb (authorEmail c) e) (P ++ [c]))).
Proof.
  intros P m c H e. rewrite filter_app. cbn [filter].
  unfold aggregateAuthors_step.
  destruct (String.eqb_spec (authorEmail c) e) as [<-|Hne].
  - rewrite last_opt_snoc.
    destruct (assoc_get (authorEmail c) m); rewrite assoc_get_set_eq; reflexivity.
  - rewrite app_nil_r.
    destruct (assoc_get (authorEmail c) m); rewrite assoc_get_set_neq by congruence; apply H.
Qed.

Lemma name_inv_fold : forall cs P m,
  (forall e, option_map name (assoc_get e m)
             = option_map authorName (last_opt (filter (fun c => String.eqb (authorEmail c) e) P))) ->
  forall e, option_map name (assoc_get e (fold_left aggregateAuthors_step cs m))
            = option_map authorName (last_opt (filter (fun c => String.eqb (authorEmail c) e) (P ++ cs))).
Proof.
  induction cs as [|c cs IH]; intros P m H e; [now rewrite app_nil_r|].
  cbn [fold_left]. replace ((P ++ c :: cs)%list) with (((P ++ [c]) ++ cs)%list)
    by now rewrite <- app_assoc.
  apply IH. apply name_inv_step, H.
Qed.

(** The [name] [aggregateAuthors] keeps for an author is the author name of
    the last commit with that e-mail in the input order ([git log] lists
    the newest commit first, so this is the name on the oldest one). *)
Theorem aggregateAuthors_name_of_last : forall commits a, In a (aggregateAuthors commits) ->
  Some (name a)
  = option_map authorName (last_opt (filter (fun c => String.eqb (authorEmail c) (email a)) commits)).
Proof.
  intros commits a Ha. pose proof (in_aggregateAuthors commits a Ha) as Hg.
  assert (H0 : forall e, option_map name (assoc_get e (@nil (string * Author)))
       = option_map authorName (last_opt (filter (fun c => String.eqb (authorEmail c) e) []))).
  { reflexivity. }
  pose proof (name_inv_fold commits [] [] H0 (email a)) as H. cbn [app] in H.
  rewrite Hg in H. exact H.
Qed.

Lemma aggregateAuthors_name_of_last_witness :
  let cs := [ex_commit "c2" "a@x.com" 7200000 1;
             mkGitCommit "c1" "a@x.com" "Old Name" (Some 3600000) "m" 1 0 1 false "main" []] in
  Some (name (mkAuthor "a@x.com" "Old Name" (Some 3600000) (Some 7200000) 2))
  = option_map authorName (last_opt (filter (fun c => String.eqb (authorEmail c) "a@x.com") cs)).
Proof.
  cbv zeta. apply (aggregateAuthors_name_of_last
    [ex_commit "c2" "a@x.com" 7200000 1;
     mkGitCommit "c1" "a@x.com" "Old Name" (Some 3600000) "m" 1 0 1 false "main" []]).
  vm_compute. left. reflexivity.
Defined.

Lemma dates_span_mono : forall P c e v, authorEmail c <> e -> dates_span P e v -> dates_span (P ++ [c]) e v.
Proof.
  intros P c e v Hne (f & l & Hf & Hl & [c1 [H1 [E1 D1]]] & [c2 [H2 [E2 D2]]] & Hall).
  exists f, l. split; [exact Hf|]. split; [exact Hl|]. split.
  { exists c1. split; [apply in_or_app; now left | now split]. } split.
  { exists c2. split; [apply in_or_app; now left | now split]. }
  intros c' Hc' He'. apply in_app_or in Hc' as [Hc'|[<-|[]]]; [now apply Hall | congruence].
Qed.

Lemma dates_step : forall P m c,
  authors_inv P m -> committedAt c <> None ->
  (forall e v, assoc_get e m = Some v -> dates_span P e v) ->
  forall e v, assoc_get e (aggregateAuthors_step m c) = Some v -> dates_span (P ++ [c]) e v.
Proof.
  intros P m c [_ [_ Ht]] Hc H e v Hg. unfold aggregateAuthors_step in Hg.
  destruct (String.eqb_spec (authorEmail c) e) as [<-|Hne].
  2: { destruct (assoc_get (authorEmail c) m);
       rewrite assoc_get_set_neq in Hg by congruence; now apply dates_span_mono, H. }
  destruct (committedAt c) as [t|] eqn:Ec; [|contradiction].
  destruct (assoc_get (authorEmail c) m) as [ex|] eqn:Eg;
    rewrite assoc_get_set_eq in Hg; injection Hg as <-.
  - destruct (H _ _ Eg) as (f & l & Hf & Hl & [c1 [H1 [E1 D1]]] & [c2 [H2 [E2 D2]]] & Hall).
    cbn [firstCommitAt lastCommitAt]. rewrite Hf, Hl. cbn [Date.lt].
    assert (Hfl : f <= l).
    { destruct (Hall c1 H1 E1) as [t1 [Et1 B1]]. rewrite D1 in Et1. injection Et1 as <-. lia. }
    destruct (Z.ltb_spec t f) as [Htf|Htf]; destruct (Z.ltb_spec l t) as [Hlt|Hlt].
    + lia.
    + exists t, l. split; [reflexivity|]. split; [reflexivity|]. split.
      { exists c. split; [apply in_or_app; right; now left | now split]. } split.
      { exists c2. split; [apply in_or_app; now left | now split]. }
      intros c' Hc' He'. apply in_app_or in Hc' as [Hc'|[<-|[]]].
      * destruct (Hall c' Hc' He') as [t' [E' B']]. exists t'. split; [exact E' | lia].
      * exists t. split; [exact Ec | lia].
    + exists f, t. split; [reflexivity|]. split; [reflexivity|]. split.
      { exists c1. split; [apply in_or_app; now left | now split]. } split.
      { exists c. split; [apply in_or_app; right; now left | now split]. }
      intros c' Hc' He'. apply in_app_or in Hc' as [Hc'|[<-|[]]].
      * destruct (Hall c' Hc' He') as [t' [E' B']]. exists t'. split; [exact E' | lia].
      * exists t. split; [exact Ec | lia].
    + exists f, l. split; [reflexivity|]. split; [reflexivity|]. split.
      { exists c1. split; [apply in_or_app; now left | now split]. } split.
      { exists c2. split; [apply in_or_app; now left | now split]. }
      intros c' Hc' He'. apply in_app_or in Hc' as [Hc'|[<-|[]]].
      * now apply Hall.
      * exists t. split; [exact Ec | lia].
  - specialize (Ht (authorEmail c)). rewrite Eg in Ht.
    destruct (existsb _ P) eqn:Ex; [discriminate|].
    exists t, t. cbn [firstCommitAt lastCommitAt]. split; [reflexivity|]. split; [reflexivity|]. split.
    { exists c. split; [apply in_or_app; right; now left | now split]. } split.
    { exists c. split; [apply in_or_app; right; now left | now split]. }
    intros c' Hc' He'. apply in_app_or in Hc' as [Hc'|[<-|[]]].
    + exfalso. assert (existsb (fun c0 => String.eqb (authorEmail c0) (authorEmail c)) P = true)
        by (apply existsb_exists; exists c'; split; [exact Hc' | now apply String.eqb_eq]).
      congruence.
    + exists t. split; [exact Ec | lia].
Qed.

Lemma dates_fold : forall cs P m,
  authors_inv P m -> (forall c, In c cs -> committedAt c <> None) ->
  (forall e v, assoc_get e m = Some v -> dates_span P e v) ->
  forall e v, assoc_get e (fold_left aggregateAuthors_step cs m) = Some v -> dates_span (P ++ cs) e v.
Proof.
  induction cs as [|c cs IH]; intros P m Hinv Hc H e v Hg.
  - rewrite app_nil_r. now apply H.
  - cbn [fold_left] in Hg. replace ((P ++ c :: cs)%list) with (((P ++ [c]) ++ cs)%list)
      by now rewrite <- app_assoc.
    apply (IH (P ++ [c])%list (aggregateAuthors_step m c)); [| | |exact Hg].
    + now apply authors_inv_step.
    + intros c' Hc'. apply Hc. now right.
    + apply dates_step; [exact Hinv | apply Hc; now left | exact H].
Qed.

(** When every input commit has a valid date, each author's
    [firstCommitAt] and [lastCommitAt] are the earliest and the latest
    commit date among the input commits with that e-mail. *)
Theorem aggregateAuthors_date_span : forall commits,
  (forall c, In c commits -> committedAt c <> None) ->
  forall a, In a (aggregateAuthors commits) ->
  exists f l, firstCommitAt a = Some f /\ lastCommitAt a = Some l /\
  (exists c, In c commits /\ authorEmail c = email a /\ committedAt c = Some f) /\
  (exists c, In c commits /\ authorEmail c = email a /\ committedAt c = Some l) /\
  (forall c, In c commits -> authorEmail c = email a ->
   exists t, committedAt c = Some t /\ f <= t <= l).
Proof.
  intros commits Hc a Ha. pose proof (in_aggregateAuthors commits a Ha) as Hg.
  assert (H0 : authors_inv [] []) by (split; [constructor | split; [intros ? ? [] | reflexivity]]).
  exact (dates_fold commits [] [] H0 Hc (fun e v H => ltac:(discriminate H)) (email a) a Hg).
Qed.

Lemma aggregateAuthors_date_span_witness :
  (forall c, In c [ex_commit "c2" "a@x.com" 7200000 1; ex_commit "c1" "a@x.com" 3600000 1] ->
             committedAt c <> None) /\
  exists f l, firstCommitAt (mkAuthor "a@x.com" "A" (Some 3600000) (Some 7200000) 2) = Some f /\
  lastCommitAt (mkAuthor "a@x.com" "A" (Some 3600000) (Some 7200000) 2) = Some l /\
  (exists c, In c [ex_commit "c2" "a@x.com" 7200000 1; ex_commit "c1" "a@x.com" 3600000 1] /\
             authorEmail c = "a@x.com" /\ committedAt c = Some f) /\
  (exists c, In c [ex_commit "c2" "a@x.com" 7200000 1; ex_commit "c1" "a@x.com" 3600000 1] /\
             authorEmail c = "a@x.com" /\ committedAt c = Some l) /\
  (forall c, In c [ex_commit "c2" "a@x.com" 7200000 1; ex_commit "c1" "a@x.com" 3600000 1] ->
   authorEmail c = "a@x.com" -> exists t, committedAt c = Some t /\ f <= t <= l).
Proof.
  assert (Hc : forall c, In c [ex_commit "c2" "a@x.com" 7200000 1; ex_commit "c1" "a@x.com" 3600000 1] ->
             committedAt c <> None).
  { intros c [<-|[<-|[]]]; discriminate. }
  split; [exact Hc|].
  apply (aggregateAuthors_date_span _ Hc). vm_compute. left. reflexivity.
Defined.

Lemma order_step : forall m c,
  (forall k v, In (k, v) m -> 1 <= totalCommits v /\ Date.lt (lastCommitAt v) (firstCommitAt v) = false) ->
  forall k v, In (k, v) (aggregateAuthors_step m c) ->
  1 <= totalCommits v /\ Date.lt (lastCommitAt v) (firstCommitAt v) = false.
Proof.
  intros m c H k v Hin. unfold aggregateAuthors_step in Hin.
  destruct (assoc_get (authorEmail c) m) as [ex|] eqn:Eg;
    apply assoc_set_in in Hin as [[= _ ->]|Hin]; try (now apply (H k)).
  - apply assoc_get_in in Eg. destruct (H _ _ Eg) as [Ht Hd].
    cbn [totalCommits firstCommitAt lastCommitAt]. split; [lia|].
    destruct (committedAt c) as [t|], (firstCommitAt ex) as [f|], (lastCommitAt ex) as [l|];
      cbn [Date.lt] in *; try reflexivity;
      repeat match goal with
             | |- context [if ?b then _ else _] => destruct b eqn:?
             end; cbn [Date.lt]; rewrite ?Z.ltb_lt, ?Z.ltb_ge in *; try reflexivity;
      apply Z.ltb_ge; lia.
  - cbn [totalCommits firstCommitAt lastCommitAt]. split; [lia|].
    destruct (committedAt c) as [t|]; [apply Z.ltb_irrefl | reflexivity].
Qed.

Lemma order_fold : forall cs m,
  (forall k v, In (k, v) m -> 1 <= totalCommits v /\ Date.lt (lastCommitAt v) (firstCommitAt v) = false) ->
  forall k v, In (k, v) (fold_left aggregateAuthors_step cs m) ->
  1 <= totalCommits v /\ Date.lt (lastCommitAt v) (firstCommitAt v) = false.
Proof.
  induction cs as [|c cs IH]; intros m H; [exact H|]. apply IH. now apply order_step.
Qed.

Lemma push_if_false : forall e l, push_if false e l = l.
Proof. reflexivity. Qed.

(** [validateAuthor] never reports "Author must have at least 1 commit" or
    "First commit date cannot be after last commit date" for an author that
    [aggregateAuthors] returns, whatever the commit dates (Invalid Dates
    included): such an author is rejected only for its e-mail or its
    name. *)
Theorem validateAuthor_aggregated : forall commits a, In a (aggregateAuthors commits) ->
  1 <= totalCommits a /\ Date.lt (lastCommitAt a) (firstCommitAt a) = false /\
  validateAuthor a
  = push_if (255 <? String.length (name a))%nat "Author name exceeds 255 characters"
      (push_if (blank (name a)) "Author name cannot be empty"
         (push_result (validateEmail (email a)) [])).
Proof.
  intros commits a Ha. unfold aggregateAuthors in Ha.
  apply in_map_iff in Ha as [[k v] [Hv Hin]]. cbn [snd] in Hv. subst v.
  destruct (order_fold commits [] (fun k v H => ltac:(destruct H)) k a Hin) as [Ht Hd].
  split; [exact Ht|]. split; [exact Hd|].
  unfold validateAuthor. cbv zeta. rewrite Hd, push_if_false.
  replace (totalCommits a <? 1) with false by (symmetry; apply Z.ltb_ge; lia).
  reflexivity.
Qed.

Lemma validateAuthor_aggregated_witness :
  let a := mkAuthor "a@x.com" "A" (Some 3600000) (Some 3600000) 1 in
  1 <= totalCommits a /\ Date.lt (lastCommitAt a) (firstCommitAt a) = false /\
  validateAuthor a
  = push_if (255 <? String.length (name a))%nat "Author name exceeds 255 characters"
      (push_if (blank (name a)) "Author name cannot be empty"
         (push_result (validateEmail (email a)) [])).
Proof.
  cbv zeta. apply (validateAuthor_aggregated [ex_commit "c1" "a@x.com" 3600000 3]).
  vm_compute. left. reflexivity.
Defined.

(* ================================================================== *)
(** * [calculateSummaryStats] and [aggregateDailyStats] together *)

Lemma length_nodup_emails : forall commits,
  List.length (nodup string_dec (map authorEmail commits)) = List.length (aggregateAuthors commits).
Proof.
  intros commits. destruct (aggregateAuthors_emails commits) as [Hd Hi].
  rewrite <- (length_map email (aggregateAuthors commits)).
  apply Nat.le_antisymm; apply NoDup_incl_length.
  - apply NoDup_nodup.
  - intros e He. apply nodup_In in He. now apply Hi.
  - exact Hd.
  - intros e He. apply nodup_In. now apply Hi.
Qed.

(** [uniqueAuthorsCount] of the summary is the number of authors that
    [aggregateAuthors] builds from the same commits. *)
Theorem summary_unique_authors : forall commits s,
  calculateSummaryStats commits = Some s ->
  uniqueAuthorsCount s = Z.of_nat (List.length (aggregateAuthors commits)).
Proof.
  intros commits s H. unfold calculateSummaryStats in H.
  destruct (day_or_empty (last_opt commits)); [|discriminate].
  destruct (day_or_empty (hd_error commits)); [|discriminate].
  injection H as <-. cbn [uniqueAuthorsCount]. now rewrite length_nodup_emails.
Qed.

Lemma summary_unique_authors_witness :
  exists s, calculateSummaryStats [ex_commit "c2" "b@x.com" 90000000 4; ex_commit "c1" "a@x.com" 3600000 3;
                                   ex_commit "c0" "b@x.com" 600000 1] = Some s /\
            uniqueAuthorsCount s = 2.
Proof.
  destruct (calculateSummaryStats [ex_commit "c2" "b@x.com" 90000000 4; ex_commit "c1" "a@x.com" 3600000 3;
                                   ex_commit "c0" "b@x.com" 600000 1]) as [s|] eqn:E.
  - exists s. split; [reflexivity|]. rewrite (summary_unique_authors _ s E). vm_compute. reflexivity.
  - vm_compute in E. discriminate.
Defined.

Lemma sum_Z_assoc_set : forall {V} (f : V -> Z) k v m,
  sum_Z f (map snd (assoc_set k v m)) =
  sum_Z f (map snd m) - (match assoc_get k m with Some o => f o | None => 0 end) + f v.
Proof.
  intros V f k v m. induction m as [|[k' v'] m IH]; cbn [assoc_set assoc_get map snd].
  - rewrite sum_Z_cons. replace (sum_Z f []) with 0 by reflexivity. lia.
  - destruct (String.eqb k k'); cbn [map snd]; rewrite !sum_Z_cons; [lia|].
    rewrite IH. lia.
Qed.

Lemma daily_loop_valid : forall repoName cs m m',
  aggregateDailyStats_loop repoName cs m = Some m' -> forall c, In c cs -> committedAt c <> None.
Proof.
  intros repoName cs. induction cs as [|c cs IH]; intros m m' H x Hx; [destruct Hx|].
  cbn [aggregateDailyStats_loop] in H.
  destruct (Date.iso_day (committedAt c)) as [date|] eqn:Ed; [|discriminate].
  destruct Hx as [<-|Hx]; [|eapply IH; eassumption].
  intros E. rewrite E in Ed. discriminate.
Qed.

Section DailySums.
Variables (f : DailyStat -> Z) (g : GitCommit -> Z).
Hypothesis Hupd : forall ex c,
  f (mkDailyStat (ds_date ex) (ds_repoName ex) (ds_authorEmail ex) (commitsCount ex + 1)
       (ds_additions ex + additions c) (ds_deletions ex + deletions c)
       (ds_filesChanged ex + filesChanged c)) = f ex + g c.
Hypothesis Hnew : forall date repoName c,
  f (mkDailyStat date repoName (authorEmail c) 1 (additions c) (deletions c) (filesChanged c)) = g c.

Lemma daily_loop_sum : forall repoName cs m m',
  aggregateDailyStats_loop repoName cs m = Some m' ->
  sum_Z f (map snd m') = sum_Z f (map snd m) + sum_Z g cs.
Proof.
  intros repoName cs. induction cs as [|c cs IH]; intros m m' H; cbn [aggregateDailyStats_loop] in H.
  - injection H as <-. replace (sum_Z g []) with 0 by reflexivity. lia.
  - destruct (Date.iso_day (committedAt c)) as [date|]; [|discriminate].
    apply IH in H. rewrite H, sum_Z_cons.
    destruct (assoc_get _ m) as [ex|] eqn:E; rewrite sum_Z_assoc_set, E;
      [rewrite Hupd | rewrite Hnew]; lia.
Qed.

End DailySums.

Lemma day_or_empty_some : forall c, (forall x, c = Some x -> committedAt x <> None) ->
  exists s, day_or_empty c = Some s.
Proof.
  intros [x|] H; [|now exists EmptyString].
  cbn [day_or_empty]. destruct (committedAt x) as [t|] eqn:E; [|now destruct (H x eq_refl)].
  rewrite iso_day_valid. eexists. reflexivity.
Qed.

(** When [aggregateDailyStats] succeeds, [calculateSummaryStats] on the same
    commits succeeds too, and the daily rows add up to its totals: commits,
    additions, deletions and files changed. *)
Theorem daily_stats_totals : forall commits repoName rows,
  aggregateDailyStats commits repoName = Some rows ->
  exists s, calculateSummaryStats commits = Some s /\
    sum_Z commitsCount rows = totalCommits_s s /\
    sum_Z ds_additions rows = totalAdditions s /\
    sum_Z ds_deletions rows = totalDeletions s /\
    sum_Z ds_filesChanged rows = totalFilesChanged s.
Proof.
  intros commits repoName rows H. unfold aggregateDailyStats in H.
  destruct (aggregateDailyStats_loop repoName commits []) as [m|] eqn:E; [|discriminate].
  injection H as <-.
  pose proof (daily_loop_valid _ _ _ _ E) as Hv.
  destruct (day_or_empty_some (last_opt commits)) as [from Hf].
  { intros x Hx. apply Hv. destruct commits as [|c cs]; [discriminate|].
    injection Hx as <-. apply last_in. }
  destruct (day_or_empty_some (hd_error commits)) as [to Ht].
  { intros x Hx. apply Hv. destruct commits as [|c cs]; [discriminate|].
    injection Hx as <-. now left. }
  unfold calculateSummaryStats. rewrite Hf, Ht.
  eexists. split; [reflexivity|]. cbn [totalCommits_s totalAdditions totalDeletions totalFilesChanged].
  rewrite (daily_loop_sum commitsCount (fun _ => 1) ltac:(reflexivity) ltac:(reflexivity) _ _ _ _ E).
  rewrite (daily_loop_sum ds_additions additions ltac:(reflexivity) ltac:(reflexivity) _ _ _ _ E).
  rewrite (daily_loop_sum ds_deletions deletions ltac:(reflexivity) ltac:(reflexivity) _ _ _ _ E).
  rewrite (daily_loop_sum ds_filesChanged filesChanged ltac:(reflexivity) ltac:(reflexivity) _ _ _ _ E).
  replace (sum_Z _ (map snd [])) with 0 by reflexivity.
  assert (Hc : forall l : list GitCommit, sum_Z (fun _ => 1) l = Z.of_nat (List.length l)).
  { induction l as [|c l IH]; [reflexivity|]. rewrite sum_Z_cons, IH. cbn [List.length]. lia. }
  rewrite Hc. repeat split; lia.
Qed.

Lemma daily_stats_totals_witness :
  exists rows s,
    aggregateDailyStats [ex_commit "c2" "b@x.com" 90000000 4; ex_commit "c1" "a@x.com" 3600000 3;
                         ex_commit "c0" "a@x.com" 600000 1] "r" = Some rows /\
    calculateSummaryStats [ex_commit "c2" "b@x.com" 90000000 4; ex_commit "c1" "a@x.com" 3600000 3;
                           ex_commit "c0" "a@x.com" 600000 1] = Some s /\
    sum_Z commitsCount rows = totalCommits_s s /\ sum_Z ds_additions rows = totalAdditions s.
Proof.
  destruct (aggregateDailyStats [ex_commit "c2" "b@x.com" 90000000 4; ex_commit "c1" "a@x.com" 3600000 3;
                                 ex_commit "c0" "a@x.com" 600000 1] "r") as [rows|] eqn:E.
  - destruct (daily_stats_totals _ _ rows E) as [s [Hs [Hc [Ha _]]]].
    exists rows, s. repeat split; assumption.
  - vm_compute in E. discriminate.
Defined.

(* ================================================================== *)
(** * What the upserts leave in the tables *)

Section UpsertFacts.
Context {R : Type} (key : R -> Key) (update : R -> R -> R).
Hypothesis update_key : forall o r, key (update o r) = key o.

Lemma key_eqb_refl : forall k, key_eqb k k = true.
Proof. intros k. now apply key_eqb_true. Qed.

(** The row with key [k] after one upsert. *)
Lemma find_key_upsert : forall r t k,
  find_key key k (upsert key update r t) =
  if key_eqb (key r) k
  then Some (match find_key key k t with Some o => update o r | None => r end)
  else find_key key k t.
Proof.
  intros r t k. unfold upsert.
  destruct (has_key key (key r) t) eqn:Hh.
  - unfold find_key. rewrite find_map_comp.
    rewrite (find_ext_fun _ (fun o => key_eqb (key o) k))
      by (intros o; cbv beta; destruct (key_eqb (key o) (key r));
          [now rewrite update_key | reflexivity]).
    destruct (key_eqb (key r) k) eqn:Ek.
    + apply key_eqb_true in Ek. subst k.
      destruct (find _ t) as [o|] eqn:Ef.
      * apply find_some in Ef as [_ Ho]. cbn [option_map]. now rewrite Ho.
      * apply has_key_spec, in_map_iff in Hh as [o [Ho Hin]].
        apply (find_none _ _ Ef) in Hin. rewrite Ho, key_eqb_refl in Hin. discriminate.
    + destruct (find _ t) as [o|] eqn:Ef; cbn [option_map]; [|reflexivity].
      apply find_some in Ef as [_ Ho]. apply key_eqb_true in Ho.
      destruct (key_eqb (key o) (key r)) eqn:Eo; [|reflexivity].
      apply key_eqb_true in Eo. rewrite <- Eo, Ho, key_eqb_refl in Ek. discriminate.
  - unfold find_key. rewrite find_app_split. cbn [find].
    destruct (key_eqb (key r) k) eqn:Ek.
    + apply key_eqb_true in Ek. subst k.
      pose proof (has_key_find key (key r) t Hh) as Hn. unfold find_key in Hn. now rewrite Hn.
    + now destruct (find _ t).
Qed.

Lemma latest_row_fold : forall rows k acc,
  fold_left (fun acc r => if key_eqb (key r) k then Some r else acc) rows acc
  = match latest_row key rows k with Some x => Some x | None => acc end.
Proof.
  unfold latest_row. induction rows as [|r rows IH]; intros k acc; cbn [fold_left]; [reflexivity|].
  rewrite (IH k (if key_eqb (key r) k then Some r else acc)),
          (IH k (if key_eqb (key r) k then Some r else None)).
  destruct (fold_left _ rows None); [reflexivity|]. now destruct (key_eqb (key r) k).
Qed.

Lemma latest_row_cons : forall r rows k,
  latest_row key (r :: rows) k
  = match latest_row key rows k with
    | Some x => Some x
    | None => if key_eqb (key r) k then Some r else None
    end.
Proof. intros r rows k. unfold latest_row at 1. cbn [fold_left]. apply latest_row_fold. Qed.

Hypothesis update_replaces : forall o r, key o = key r -> update o r = r.

(** With an update that overwrites every column, the row with key [k] after
    an upsert of [r] is [r] when [r] has that key. *)
Lemma find_key_upsert_replace : forall r t k,
  find_key key k (upsert key update r t) =
  if key_eqb (key r) k then Some r else find_key key k t.
Proof.
  intros r t k. rewrite find_key_upsert.
  destruct (key_eqb (key r) k) eqn:Ek; [|reflexivity].
  destruct (find_key key k t) as [o|] eqn:Ef; [|reflexivity].
  unfold find_key in Ef. apply find_some in Ef as [_ Ho].
  apply key_eqb_true in Ho, Ek. rewrite update_replaces; congruence.
Qed.

End UpsertFacts.

Lemma commit_update_replaces : forall o r, commit_key o = commit_key r -> commit_update o r = r.
Proof.
  intros [] [] H. unfold commit_key in H. cbn in H. injection H as -> ->. reflexivity.
Qed.

Lemma tag_update_replaces : forall o r, tag_key o = tag_key r -> tag_update o r = r.
Proof.
  intros [] [] H. unfold tag_key in H. cbn in H. injection H as -> ->. reflexivity.
Qed.

Lemma set_commits_same : forall d, set_commits d (commits_t d) = d.
Proof. intros []. reflexivity. Qed.

Lemma set_tags_same : forall d, set_tags d (tags_t d) = d.
Proof. intros []. reflexivity. Qed.

Lemma insertCommits_loop_rows : forall repoName cs p e d,
  exists t', insertCommits_loop repoName cs p e d
    = ((p + Z.of_nat (List.length (commit_rows repoName cs)),
        e + Z.of_nat (List.length (filter invalid_date cs))), set_commits d t') /\
    forall k, find_key commit_key k t'
              = match latest_row commit_key (commit_rows repoName cs) k with
                | Some r => Some r
                | None => find_key commit_key k (commits_t d)
                end.
Proof.
  intros repoName cs. induction cs as [|c cs IH]; intros p e d.
  - exists (commits_t d). split; [|reflexivity].
    cbn. rewrite set_commits_same. f_equal. f_equal; lia.
  - cbn [insertCommits_loop].
    change (commit_rows repoName (c :: cs))
      with ((match Date.toISOString (committedAt c) with
             | Some iso => [commit_row repoName c iso] | None => [] end)
            ++ commit_rows repoName cs)%list.
    cbn [filter]. unfold invalid_date at 1.
    destruct (Date.toISOString (committedAt c)) as [iso|].
    + destruct (IH (p + 1) e (set_commits d (upsert commit_key commit_update
                                 (commit_row repoName c iso) (commits_t d))))
        as [t' [E Hk]].
      exists t'. rewrite E. split.
      * cbn [List.length app]. f_equal. f_equal. lia.
      * intros k. rewrite Hk. cbn [commits_t set_commits app].
        rewrite latest_row_cons, (find_key_upsert_replace commit_key commit_update
                                    (fun _ _ => eq_refl) commit_update_replaces).
        destruct (latest_row _ _ k); [reflexivity|]. now destruct (key_eqb _ k).
    + destruct (IH p (e + 1) d) as [t' [E Hk]].
      exists t'. rewrite E. split; [|exact Hk].
      cbn [List.length app]. f_equal. f_equal. lia.
Qed.

(** [insertCommits] never fails: it returns the number of commits written
    (those with a valid date) and the number skipped (those with an invalid
    one), and afterwards the row stored under each (repo_name, sha) key is
    the last row written for it, or the row stored before when none was. *)
Theorem insertCommits_result : forall repoName commits d,
  exists t', insertCommits repoName commits d
    = (inr (Z.of_nat (List.length (commit_rows repoName commits)),
            Z.of_nat (List.length (filter invalid_date commits))), set_commits d t') /\
    forall k, find_key commit_key k t'
              = match latest_row commit_key (commit_rows repoName commits) k with
                | Some r => Some r
                | None => find_key commit_key k (commits_t d)
                end.
Proof.
  intros repoName commits d. unfold insertCommits.
  destruct (insertCommits_loop_rows repoName commits 0 0 d) as [t' [E Hk]].
  rewrite E. exists t'. split; [reflexivity | exact Hk].
Qed.

Lemma insertTags_loop_fail : forall repoName tags d,
  (exists tg, In tg tags /\ tagDate tg = Some None) ->
  exists d', insertTags_loop repoName tags d = (inl RangeError, d').
Proof.
  intros repoName tags. induction tags as [|tg rest IH]; intros d [x [Hx Hd]]; [destruct Hx|].
  cbn [insertTags_loop].
  destruct (tagDate tg) as [[t|]|] eqn:Et.
  - destruct Hx as [<-|Hx]; [congruence|]. apply IH. now exists x.
  - now exists d.
  - destruct Hx as [<-|Hx]; [congruence|]. apply IH. now exists x.
Qed.

Lemma insertTags_loop_ok : forall repoName tags d,
  (forall tg, In tg tags -> tagDate tg <> Some None) ->
  exists t', insertTags_loop repoName tags d = (inr tt, set_tags d t') /\
    forall k, find_key tag_key k t'
              = match latest_row tag_key (tag_rows repoName tags) k with
                | Some r => Some r
                | None => find_key tag_key k (tags_t d)
                end.
Proof.
  intros repoName tags. induction tags as [|tg rest IH]; intros d Hv.
  - exists (tags_t d). split; [|reflexivity]. cbn. now rewrite set_tags_same.
  - assert (Hr : forall x, In x rest -> tagDate x <> Some None) by (intros x Hx; apply Hv; now right).
    assert (Hput : forall date,
      (match tagDate tg with Some dt => Date.toISOString dt | None => None end) = date ->
      exists t', insertTags_loop repoName rest
                   (set_tags d (upsert tag_key tag_update (tag_row repoName tg date) (tags_t d)))
                 = (inr tt, set_tags d t') /\
      forall k, find_key tag_key k t'
                = match latest_row tag_key (tag_rows repoName (tg :: rest)) k with
                  | Some r => Some r
                  | None => find_key tag_key k (tags_t d)
                  end).
    { intros date Hdate.
      destruct (IH (set_tags d (upsert tag_key tag_update (tag_row repoName tg date) (tags_t d))) Hr)
        as [t' [E Hk]].
      exists t'. split; [exact E|]. intros k. rewrite Hk.
      cbn [tags_t set_tags]. unfold tag_rows at 2. cbn [map]. fold (tag_rows repoName rest).
      rewrite Hdate, latest_row_cons,
        (find_key_upsert_replace tag_key tag_update (fun _ _ => eq_refl) tag_update_replaces).
      destruct (latest_row _ _ k); [reflexivity|]. now destruct (key_eqb _ k). }
    cbn [insertTags_loop].
    destruct (tagDate tg) as [[t|]|] eqn:Et.
    + apply Hput. reflexivity.
    + exfalso. apply (Hv tg); [now left | exact Et].
    + apply Hput. reflexivity.
Qed.

(** [insertTags] raises a RangeError as soon as one tag date is an Invalid
    Date; when none is, it returns the number of tags and afterwards the
    row stored under each (repo_name, tag_name) key is the last row written
    for it, or the row stored before when none was. *)
Theorem insertTags_outcome : forall repoName tags d,
  ((exists tg, In tg tags /\ tagDate tg = Some None) ->
   exists d', insertTags repoName tags d = (inl RangeError, d')) /\
  ((forall tg, In tg tags -> tagDate tg <> Some None) ->
   exists t', insertTags repoName tags d = (inr (Z.of_nat (List.length tags)), set_tags d t') /\
     forall k, find_key tag_key k t'
               = match latest_row tag_key (tag_rows repoName tags) k with
                 | Some r => Some r
                 | None => find_key tag_key k (tags_t d)
                 end).
Proof.
  intros repoName tags d. unfold insertTags, bind. split.
  - intros Hb. destruct (insertTags_loop_fail repoName tags d Hb) as [d' E].
    rewrite E. now exists d'.
  - intros Hv. destruct (insertTags_loop_ok repoName tags d Hv) as [t' [E Hk]].
    rewrite E. exists t'. split; [reflexivity | exact Hk].
Qed.

Lemma insertTags_outcome_witness :
  (exists d', insertTags "r" [ex_tag "v1" (Some (Some 0)); ex_tag "v2" (Some None)] empty_db
              = (inl RangeError, d')) /\
  (exists t', insertTags "r" [ex_tag "v1" (Some (Some 0)); ex_tag "v1" None] empty_db
              = (inr 2, set_tags empty_db t') /\
     find_key tag_key ["r"; "v1"] t' = Some (tag_row "r" (ex_tag "v1" None) None)).
Proof.
  split.
  - apply (insertTags_outcome "r" _ empty_db).
    exists (ex_tag "v2" (Some None)). split; [right; left; reflexivity | reflexivity].
  - destruct (proj2 (insertTags_outcome "r" [ex_tag "v1" (Some (Some 0)); ex_tag "v1" None] empty_db))
      as [t' [E Hk]].
    + intros tg [<-|[<-|[]]]; discriminate.
    + exists t'. split; [exact E|]. rewrite Hk. vm_compute. reflexivity.
Defined.

Lemma fold_insert_change_count : forall rows t n,
  exists added, fold_left insert_change rows (t, n)
                = ((t ++ added)%list, n + Z.of_nat (List.length added)).
Proof.
  induction rows as [|r rows IH]; intros t n; cbn [fold_left].
  - exists []. rewrite app_nil_r. f_equal. cbn. lia.
  - unfold insert_change at 2, insert_or_ignore.
    destruct (has_key fc_key (fc_key r) t).
    + destruct (IH t (n + 0)) as [added E]. exists added. rewrite E. f_equal. lia.
    + destruct (IH (t ++ [r])%list (n + 1)) as [added E]. exists (r :: added).
      rewrite E, <- app_assoc. cbn [List.length app]. f_equal. lia.
Qed.

(** [insertFileChanges] only appends rows to [file_changes], and the count
    it returns is the number of rows it appended. *)
Theorem insertFileChanges_count : forall repoName commits d,
  exists added, insertFileChanges repoName commits d
    = (inr (Z.of_nat (List.length added)),
       set_file_changes d (file_changes_t d ++ added)%list).
Proof.
  intros repoName commits d. unfold insertFileChanges.
  rewrite fold_batches, batches_concat.
  destruct (fold_insert_change_count (file_change_rows repoName commits) (file_changes_t d) 0)
    as [added E].
  rewrite E. exists added. reflexivity.
Qed.

(** [upsertRepositoryMetadata] raises a RangeError, writing nothing, when
    the first commit's date is invalid.  Otherwise the [repositories] row
    of [repoName] afterwards has the given language, the [is_archived] value
    stored before (0 for a new row), the first commit's date as
    [last_commit_at] ([NULL] with no commits) and the number of commits;
    the other rows are untouched. *)
Theorem upsertRepositoryMetadata_row : forall repoName language commits d,
  (forall c rest, commits = c :: rest -> committedAt c = None ->
   upsertRepositoryMetadata repoName language commits d = (inl RangeError, d)) /\
  ((forall c rest, commits = c :: rest -> committedAt c <> None) ->
   exists t', upsertRepositoryMetadata repoName language commits d = (inr tt, set_repos d t') /\
     find_key repo_key [repoName] t'
     = Some (mkRepoRow repoName language
               (match find_key repo_key [repoName] (repos_t d) with
                | Some o => rr_is_archived o | None => 0 end)
               (match commits with
                | [] => None | c :: _ => Date.toISOString (committedAt c) end)
               (Z.of_nat (List.length commits))) /\
     forall k, k <> [repoName] -> find_key repo_key k t' = find_key repo_key k (repos_t d)).
Proof.
  intros repoName language commits d. split.
  - intros c rest -> Hc. cbn. now rewrite Hc.
  - intros Hv.
    assert (Hput : forall last,
      last = match commits with [] => None | c :: _ => Date.toISOString (committedAt c) end ->
      exists t', (inr tt, set_repos d (upsert repo_key repo_update
                    (mkRepoRow repoName language 0 last (Z.of_nat (List.length commits)))
                    (repos_t d)))
                 = ((inr tt, set_repos d t') : (Exn + unit) * DB) /\
      find_key repo_key [repoName] t'
      = Some (mkRepoRow repoName language
                (match find_key repo_key [repoName] (repos_t d) with
                 | Some o => rr_is_archived o | None => 0 end)
                last (Z.of_nat (List.length commits))) /\
      forall k, k <> [repoName] -> find_key repo_key k t' = find_key repo_key k (repos_t d)).
    { intros last _. eexists. split; [reflexivity|]. split.
      - rewrite (find_key_upsert repo_key repo_update (fun _ _ => eq_refl)).
        change (repo_key (mkRepoRow repoName language 0 last (Z.of_nat (List.length commits))))
          with [repoName]. rewrite key_eqb_refl.
        destruct (find_key repo_key [repoName] (repos_t d)) as [o|] eqn:Ef; [|reflexivity].
        unfold find_key in Ef. apply find_some in Ef as [_ Ho]. apply key_eqb_true in Ho.
        destruct o. unfold repo_key in Ho. cbn in Ho. injection Ho as ->. reflexivity.
      - intros k Hk. rewrite (find_key_upsert repo_key repo_update (fun _ _ => eq_refl)).
        change (repo_key (mkRepoRow repoName language 0 last (Z.of_nat (List.length commits))))
          with [repoName].
        destruct (key_eqb [repoName] k) eqn:Ek; [|reflexivity].
        apply key_eqb_true in Ek. congruence. }
    unfold upsertRepositoryMetadata. destruct commits as [|c rest].
    + now apply Hput.
    + destruct (Date.toISOString (committedAt c)) as [s|] eqn:Es.
      * exact (Hput (Some s) eq_refl).
      * destruct (committedAt c) eqn:Ec; [discriminate|]. now destruct (Hv c rest eq_refl).
Qed.

Lemma upsertRepositoryMetadata_row_witness :
  upsertRepositoryMetadata "r" None [mkGitCommit "c1" "a@x.com" "A" None "m" 0 0 0 false "main" []]
    empty_db = (inl RangeError, empty_db) /\
  exists t', upsertRepositoryMetadata "r" (Some "Go") [ex_commit "c1" "a@x.com" 0 1]
               (set_repos empty_db [mkRepoRow "r" None 1 None 0]) = (inr tt, set_repos (set_repos empty_db [mkRepoRow "r" None 1 None 0]) t') /\
    find_key repo_key ["r"] t' = Some (mkRepoRow "r" (Some "Go") 1 (Some "1970-01-01T00:00:00.000Z") 1).
Proof.
  split.
  - apply (proj1 (upsertRepositoryMetadata_row "r" None _ empty_db)
             (mkGitCommit "c1" "a@x.com" "A" None "m" 0 0 0 false "main" []) [] eq_refl eq_refl).
  - destruct (proj2 (upsertRepositoryMetadata_row "r" (Some "Go") [ex_commit "c1" "a@x.com" 0 1]
                      (set_repos empty_db [mkRepoRow "r" None 1 None 0])))
      as [t' [E [Hr _]]].
    + intros c rest Hc. injection Hc as <- _. discriminate.
    + exists t'. split; [exact E|]. rewrite Hr. vm_compute. reflexivity.
Defined.

Lemma insertAuthors_loop_err : forall authors d e d',
  insertAuthors_loop authors d = (inl e, d') -> e = RangeError.
Proof.
  induction authors as [|a rest IH]; intros d e d' H; cbn [insertAuthors_loop] in H.
  - discriminate.
  - destruct (Date.toISOString (firstCommitAt a)) as [f|];
      [destruct (Date.toISOString (lastCommitAt a)) as [l|]|].
    + eapply IH. exact H.
    + now injection H as <-.
    + now injection H as <-.
Qed.

Lemma load_ops_bad_tag : forall repoName language commits authors tags d,
  (exists tg, In tg tags /\ tagDate tg = Some None) ->
  exists d', load_ops repoName language commits authors tags d = (inl RangeError, d').
Proof.
  intros repoName language commits authors tags d Hb. unfold load_ops, bind at 1.
  unfold insertCommits at 1.
  destruct (insertCommits_loop_rows repoName commits 0 0 d) as [t1 [E1 _]]. rewrite E1.
  unfold bind at 1. unfold insertAuthors at 1. unfold bind at 1.
  destruct (insertAuthors_loop authors (set_commits d t1)) as [[e|u] d2] eqn:E2.
  - apply insertAuthors_loop_err in E2. subst e. now exists d2.
  - unfold ret at 1. unfold bind at 1.
    unfold insertFileChanges at 1. rewrite fold_batches, batches_concat.
    destruct (fold_insert_change_count (file_change_rows repoName commits) (file_changes_t d2) 0)
      as [added E3]. rewrite E3.
    unfold bind at 1. unfold insertTags, bind.
    destruct tags as [|tg rest]; [destruct Hb as [x [[] _]]|].
    destruct (insertTags_loop_fail repoName (tg :: rest)
                (set_file_changes d2 (file_changes_t d2 ++ added)%list) Hb) as [d4 E4].
    rewrite E4. now exists d4.
Qed.

(** A run of the load step outside any transaction, with commits and one
    tag whose date is an Invalid Date, fails with a RangeError and leaves
    the connection exactly as it was: the commits, authors and file changes
    already written in the transaction are rolled back. *)
Theorem etl_load_bad_tag_date : forall c repoName language commits tags,
  conn_txn c = None -> commits <> [] ->
  (exists tg, In tg tags /\ tagDate tg = Some None) ->
  etl_load c repoName language commits tags = (inl RangeError, c).
Proof.
  intros c repoName language commits tags Htx Hc Hb.
  rewrite etl_load_cases by exact Hc. rewrite Htx.
  destruct (load_ops_bad_tag repoName language commits (aggregateAuthors commits) tags (conn_db c) Hb)
    as [d' E].
  now rewrite E.
Qed.

Lemma etl_load_bad_tag_date_witness :
  etl_load (mkConn empty_db None) "r" None [ex_commit "c1" "a@x.com" 0 1]
           [ex_tag "v1" (Some (Some 0)); ex_tag "v2" (Some None)]
  = (inl RangeError, mkConn empty_db None).
Proof.
  apply etl_load_bad_tag_date.
  - reflexivity.
  - discriminate.
  - exists (ex_tag "v2" (Some None)). split; [right; left; reflexivity | reflexivity].
Defined.

(* ================================================================== *)
(** * The validators *)

Lemma re_nil_spec : forall s, re_match [] s = true <-> s = EmptyString.
Proof. intros s. exact (String.eqb_eq s EmptyString). Qed.

Lemma re_char_spec : forall c rest s,
  re_match (RChar c :: rest) s = true <-> exists s', s = String c s' /\ re_match rest s' = true.
Proof.
  intros c rest [|c' s']; cbn [re_match].
  - split; [discriminate | intros [s' [H _]]; discriminate H].
  - split.
    + intros H. apply andb_prop in H as [Hc H]. apply Ascii.eqb_eq in Hc. subst. now exists s'.
    + intros [s'' [Hs H]]. injection Hs as -> ->. now rewrite Ascii.eqb_refl, H.
Qed.

(** [x+] followed by the rest of the pattern, with backtracking. *)
Lemma re_plus_spec : forall cls rest s,
  re_match (RPlus cls :: rest) s = true <->
  exists a b, s = (a ++ b) /\ a <> EmptyString /\ str_forallb cls a = true /\ re_match rest b = true.
Proof.
  intros cls rest s. induction s as [|c s IH].
  - split; [discriminate|]. intros [a [b [Hs [Ha _]]]].
    destruct a; [contradiction | discriminate Hs].
  - change (re_match (RPlus cls :: rest) (String c s))
      with (cls c && (re_match rest s || re_match (RPlus cls :: rest) s)).
    split.
    + intros H. apply andb_prop in H as [Hc H]. apply orb_prop in H as [H|H].
      * exists (String c EmptyString), s. split; [reflexivity|]. split; [discriminate|].
        split; [cbn; now rewrite Hc | exact H].
      * apply IH in H as [a [b [-> [Ha [Hf Hr]]]]].
        exists (String c a), b. split; [reflexivity|]. split; [discriminate|].
        split; [cbn; now rewrite Hc, Hf | exact Hr].
    + intros [a [b [Hs [Ha [Hf Hr]]]]]. destruct a as [|c' a]; [contradiction|].
      cbn in Hs. injection Hs as <- Hs. cbn in Hf. apply andb_prop in Hf as [Hc Hf].
      rewrite Hc. cbn [andb]. apply orb_true_intro.
      destruct a as [|c'' a'].
      * left. cbn in Hs. now subst.
      * right. apply IH. exists (String c'' a'), b. split; [exact Hs|].
        split; [discriminate | now split].
Qed.

Lemma re_plus_single : forall cls s,
  re_match [RPlus cls] s = negb (String.eqb s EmptyString) && str_forallb cls s.
Proof.
  intros cls s. induction s as [|c s IH]; [reflexivity|].
  change (re_match [RPlus cls] (String c s))
    with (cls c && (re_match [] s || re_match [RPlus cls] s)).
  rewrite IH. cbn [str_forallb]. destruct (cls c); destruct s; reflexivity.
Qed.

(** [/^[^\s@]+@[^\s@]+\.[^\s@]+$/]: a non-empty local part, an [@], a
    non-empty domain, a dot, a non-empty last part, none of the three with
    whitespace or [@] (the domain may hold further dots). *)
Lemma email_re_spec : forall s, re_match email_re s = true <->
  exists a b c, s = (a ++ "@" ++ b ++ "." ++ c) /\
    a <> EmptyString /\ b <> EmptyString /\ c <> EmptyString /\
    str_forallb not_ws_at a = true /\ str_forallb not_ws_at b = true /\
    str_forallb not_ws_at c = true.
Proof.
  intros s. unfold email_re. rewrite re_plus_spec. split.
  - intros [a [r1 [-> [Ha [Hfa H1]]]]].
    apply re_char_spec in H1 as [r2 [-> H2]].
    apply re_plus_spec in H2 as [b [r3 [-> [Hb [Hfb H3]]]]].
    apply re_char_spec in H3 as [r4 [-> H4]].
    apply re_plus_spec in H4 as [c [r5 [-> [Hc [Hfc H5]]]]].
    apply re_nil_spec in H5. subst r5. rewrite str_app_nil_r.
    exists a, b, c. split; [reflexivity|]. repeat split; assumption.
  - intros [a [b [c [-> [Ha [Hb [Hc [Hfa [Hfb Hfc]]]]]]]]].
    exists a, ("@" ++ b ++ "." ++ c). split; [reflexivity|]. split; [exact Ha|].
    split; [exact Hfa|].
    apply re_char_spec. exists (b ++ "." ++ c). split; [reflexivity|].
    apply re_plus_spec. exists b, ("." ++ c). split; [reflexivity|].
    split; [exact Hb|]. split; [exact Hfb|].
    apply re_char_spec. exists c. split; [reflexivity|].
    apply re_plus_spec. exists c, EmptyString. rewrite str_app_nil_r.
    split; [reflexivity|]. split; [exact Hc|]. split; [exact Hfc | reflexivity].
Qed.

Lemma blank_false_head : forall c s, is_ws c = false -> blank (String c s) = false.
Proof.
  intros c s Hc. unfold blank. apply orb_false_iff. split; [reflexivity|].
  apply String.eqb_neq, trim_head_nonempty, Hc.
Qed.

(** [validateEmail] accepts exactly the strings of at most 255 characters
    that match its pattern: local part, [@], domain, dot, last part, all
    three non-empty and free of whitespace and [@]. *)
Theorem validateEmail_valid : forall s,
  valid (validateEmail s) = true <->
  (exists a b c, s = (a ++ "@" ++ b ++ "." ++ c) /\
     a <> EmptyString /\ b <> EmptyString /\ c <> EmptyString /\
     str_forallb not_ws_at a = true /\ str_forallb not_ws_at b = true /\
     str_forallb not_ws_at c = true) /\
  (String.length s <= 255)%nat.
Proof.
  intros s. split.
  - intros H. unfold validateEmail in H.
    destruct (blank s); [discriminate|].
    destruct (re_match email_re s) eqn:Er; [|discriminate].
    destruct (255 <? String.length s)%nat eqn:El; [discriminate|].
    split; [now apply email_re_spec | now apply Nat.ltb_ge].
  - intros [Hx Hl]. pose proof (proj2 (email_re_spec s) Hx) as Er.
    assert (Hb : blank s = false).
    { destruct Hx as [a [b [c [-> [Ha [_ [_ [Hfa _]]]]]]]].
      destruct a as [|x a]; [contradiction|]. cbn [str_forallb] in Hfa.
      apply andb_prop in Hfa as [Hx _]. unfold not_ws_at in Hx.
      apply andb_prop in Hx as [Hx _]. apply negb_true_iff in Hx.
      exact (blank_false_head x _ Hx). }
    unfold validateEmail. rewrite Hb, Er. cbn [negb].
    apply Nat.ltb_ge in Hl. now rewrite Hl.
Qed.

Lemma validateEmail_valid_witness :
  valid (validateEmail "dev.one@mail.example.org") = true /\
  valid (validateEmail "a@b") = false.
Proof.
  split.
  - apply validateEmail_valid. split; [|cbn; lia].
    exists "dev.one", "mail.example", "org". repeat split; discriminate || reflexivity.
  - reflexivity.
Defined.

Lemma hex_not_ws : forall c, is_hex_ci c = true -> negb (is_ws c) = true.
Proof.
  intros [b0 b1 b2 b3 b4 b5 b6 b7].
  destruct b0, b1, b2, b3, b4, b5, b6, b7; vm_compute; intros H; reflexivity || discriminate H.
Qed.

(** [validateSha] accepts exactly the strings of 7 to 40 hexadecimal digits,
    in either case. *)
Theorem validateSha_valid : forall s,
  valid (validateSha s) = true <->
  (7 <= String.length s <= 40)%nat /\ str_forallb is_hex_ci s = true.
Proof.
  intros s. unfold validateSha, sha_re. rewrite re_plus_single. split.
  - intros H. destruct (blank s); [discriminate|].
    destruct ((String.length s <? 7) || (40 <? String.length s))%nat eqn:El; [discriminate|].
    apply orb_false_iff in El as [E1 E2]. apply Nat.ltb_ge in E1, E2.
    split; [lia|]. destruct (str_forallb is_hex_ci s); [reflexivity|].
    rewrite andb_false_r in H. discriminate.
  - intros [Hl Hh].
    assert (Hne : String.eqb s EmptyString = false)
      by (apply String.eqb_neq; intros ->; cbn in Hl; lia).
    assert (Hb : blank s = false).
    { unfold blank. rewrite Hne, trim_no_ws; [exact Hne|].
      exact (str_forallb_impl _ _ s hex_not_ws Hh). }
    rewrite Hb, Hne, Hh.
    replace ((String.length s <? 7) || (40 <? String.length s))%nat with false; [reflexivity|].
    symmetry. apply orb_false_iff. split; apply Nat.ltb_ge; lia.
Qed.

Lemma validateSha_valid_witness :
  valid (validateSha "ABC1234def") = true /\ valid (validateSha "abc123") = false.
Proof.
  split; [|reflexivity].
  apply validateSha_valid. split; [cbn; lia | reflexivity].
Defined.

Lemma push_if_nil : forall b e l, push_if b e l = [] <-> b = false /\ l = [].
Proof.
  intros [] e l; unfold push_if; split.
  - intros H. now apply app_eq_nil in H as [_ H].
  - intros [H _]. discriminate H.
  - now split.
  - now intros [_ ->].
Qed.

Lemma push_result_nil : forall r l, push_result r l = [] <-> valid r = true /\ l = [].
Proof.
  intros r l. unfold push_result. destruct (valid r); split.
  - now split.
  - now intros [_ ->].
  - intros H. now apply app_eq_nil in H as [_ H].
  - intros [H _]. discriminate H.
Qed.

Lemma in_push_if : forall x b e l, In x (push_if b e l) -> In x l \/ x = e.
Proof.
  intros x [] e l; unfold push_if; [|now left].
  intros H. apply in_app_or in H as [H|[H|[]]]; [now left | now right].
Qed.

Lemma in_push_result : forall x r l, In x (push_result r l) ->
  In x l \/ x = match error r with Some e => e | None => EmptyString end.
Proof.
  intros x r l. unfold push_result. destruct (valid r); [now left|].
  intros H. apply in_app_or in H as [H|[H|[]]]; [now left | now right].
Qed.

Lemma validateSha_message : forall s,
  match error (validateSha s) with Some e => e | None => EmptyString end
  <> "Committed date is invalid".
Proof.
  intros s. unfold validateSha.
  destruct (blank s); [discriminate|].
  destruct (_ || _)%nat; [discriminate|].
  destruct (negb _); discriminate.
Qed.

Lemma validateEmail_message : forall s,
  match error (validateEmail s) with Some e => e | None => EmptyString end
  <> "Committed date is invalid".
Proof.
  intros s. unfold validateEmail.
  destruct (blank s); [discriminate|].
  destruct (negb _); [discriminate|].
  destruct (_ <? _)%nat; discriminate.
Qed.

(** [validateCommit] reports nothing exactly when the SHA and the author
    e-mail pass their validators, the author name is not blank and has at
    most 255 characters, the message has at most 65535 characters and the
    three counts are not negative.  The commit date plays no part: the
    error "Committed date is invalid" is never reported, not even for an
    Invalid Date. *)
Theorem validateCommit_ok : forall c,
  (validateCommit c = [] <->
   valid (validateSha (sha c)) = true /\ valid (validateEmail (authorEmail c)) = true /\
   blank (authorName c) = false /\ (String.length (authorName c) <= 255)%nat /\
   Z.of_nat (String.length (message c)) <= 65535 /\
   0 <= additions c /\ 0 <= deletions c /\ 0 <= filesChanged c) /\
  ~ In "Committed date is invalid" (validateCommit c).
Proof.
  intros c. split.
  - unfold validateCommit, is_date_object. cbn [negb].
    rewrite !push_if_nil, !push_result_nil, !orb_false_iff, Nat.ltb_ge, !Z.ltb_ge.
    intuition.
  - unfold validateCommit, is_date_object. cbn [negb]. rewrite push_if_false. intros H.
    repeat (apply in_push_if in H as [H|H]; [|discriminate H]).
    apply in_push_result in H as [H|H]; [|exact (validateEmail_message _ (eq_sym H))].
    apply in_push_result in H as [H|H]; [destruct H | exact (validateSha_message _ (eq_sym H))].
Qed.

Lemma validateCommit_ok_witness :
  validateCommit (mkGitCommit "abc1234" "a@x.com" "A" None "m" 1 0 1 false "main" []) = [].
Proof.
  apply (proj1 (validateCommit_ok _)).
  repeat split; reflexivity || (cbn; lia).
Defined.

Lemma truthy_len_ok : forall o k,
  (truthy o && (k <? String.length (match o with Some n => n | None => EmptyString end)))%nat = false
  <-> forall n, o = Some n -> (String.length n <= k)%nat.
Proof.
  intros [n|] k; unfold truthy; split.
  - intros H n' Hn. injection Hn as <-.
    destruct (String.eqb n EmptyString) eqn:Ez.
    + apply String.eqb_eq in Ez. subst n. cbn. lia.
    + cbn [negb andb] in H. now apply Nat.ltb_ge.
  - intros H. destruct (String.eqb n EmptyString); [reflexivity|].
    cbn [negb andb]. apply Nat.ltb_ge. now apply H.
  - intros _ n' Hn. discriminate.
  - reflexivity.
Qed.

Lemma truthy_len_ok_Z : forall o k, 0 <= k ->
  (truthy o && (k <? Z.of_nat (String.length (match o with Some n => n | None => EmptyString end)))) = false
  <-> forall n, o = Some n -> Z.of_nat (String.length n) <= k.
Proof.
  intros [n|] k Hk; unfold truthy; split.
  - intros H n' Hn. injection Hn as <-.
    destruct (String.eqb n EmptyString) eqn:Ez.
    + apply String.eqb_eq in Ez. subst n. cbn. lia.
    + cbn [negb andb] in H. now apply Z.ltb_ge.
  - intros H. destruct (String.eqb n EmptyString); [reflexivity|].
    cbn [negb andb]. apply Z.ltb_ge. now apply H.
  - intros _ n' Hn. discriminate.
  - reflexivity.
Qed.

Lemma tagger_email_nil : forall o (l : list string),
  match o with
  | Some e => if truthy (Some e) then push_result (validateEmail e) l else l
  | None => l
  end = []
  <-> (forall e, o = Some e -> e <> EmptyString -> valid (validateEmail e) = true) /\ l = [].
Proof.
  intros [e|] l.
  - unfold truthy. destruct (String.eqb e EmptyString) eqn:Ez; cbn [negb].
    + apply String.eqb_eq in Ez. subst e. split; [|now intros [_ H]].
      intros H. split; [|exact H]. intros e' He' Hne. injection He' as <-. contradiction.
    + apply String.eqb_neq in Ez. rewrite push_result_nil. split.
      * intros [Hv Hl]. split; [|exact Hl]. intros e' He' _. now injection He' as <-.
      * intros [Hv Hl]. split; [|exact Hl]. now apply Hv.
  - split; [intros H; split; [intros e He; discriminate | exact H] | now intros [_ H]].
Qed.

(** [validateTag] accepts a tag exactly when its name is not blank and has
    at most 255 characters and its SHA passes [validateSha]; for an
    annotated tag also a non-empty tagger e-mail must pass [validateEmail],
    the tagger name must have at most 255 characters and the message at
    most 65535.  The tagger fields of a lightweight tag are not looked at. *)
Theorem validateTag_ok : forall tg,
  validateTag tg = [] <->
  blank (tagName tg) = false /\ (String.length (tagName tg) <= 255)%nat /\
  valid (validateSha (tag_sha tg)) = true /\
  (isAnnotated tg = true ->
   (forall e, taggerEmail tg = Some e -> e <> EmptyString -> valid (validateEmail e) = true) /\
   (forall n, taggerName tg = Some n -> (String.length n <= 255)%nat) /\
   (forall m, tag_message tg = Some m -> Z.of_nat (String.length m) <= 65535)).
Proof.
  intros tg. unfold validateTag. destruct (isAnnotated tg).
  - rewrite !push_if_nil, tagger_email_nil, push_result_nil, !push_if_nil, Nat.ltb_ge,
      truthy_len_ok, truthy_len_ok_Z by lia.
    intuition.
  - rewrite push_result_nil, !push_if_nil, Nat.ltb_ge. intuition discriminate.
Qed.

Lemma validateTag_ok_witness :
  validateTag (mkGitTag "v1.0" "abc1234" (Some "T") (Some "t@x.com") None (Some "release") true) = [] /\
  validateTag (mkGitTag "v1.0" "abc1234" (Some "T") (Some "bad") None None false) = [].
Proof.
  split; apply (proj2 (validateTag_ok _)).
  - split; [reflexivity|]. split; [cbn; lia|]. split; [reflexivity|].
    intros _. split; [|split].
    + intros e He _. injection He as <-. reflexivity.
    + intros n Hn. injection Hn as <-. cbn. lia.
    + intros m Hm. injection Hm as <-. cbn. lia.
  - split; [reflexivity|]. split; [cbn; lia|]. split; [reflexivity|].
    intros H. discriminate H.
Defined.

(* ================================================================== *)
(** * [parseGitTags] *)

Lemma in_parseGitTags : forall stdout tg, In tg (parseGitTags stdout) ->
  exists line, parse_tag_line line = Some tg.
Proof.
  intros stdout tg H. unfold parseGitTags in H.
  apply in_flat_map in H as [line [_ H]].
  destruct (parse_tag_line line) as [t|] eqn:E; [|destruct H].
  destruct H as [<-|[]]. now exists line.
Qed.

(** Every tag [parseGitTags] returns: a lightweight tag has no tagger name,
    no tagger e-mail and no message; a tagger name is never the empty
    string; the date is absent or [new Date(t * 1000)] for a positive
    [parseInt] value [t] (an Invalid Date when [t * 1000] is beyond
    8.64e15). *)
Theorem parseGitTags_fields : forall stdout tg, In tg (parseGitTags stdout) ->
  (isAnnotated tg = false ->
   taggerName tg = None /\ taggerEmail tg = None /\ tag_message tg = None) /\
  taggerName tg <> Some EmptyString /\
  (tagDate tg = None \/ exists t, 0 < t /\ tagDate tg = Some (Date.make (t * 1000))).
Proof.
  intros stdout tg H. apply in_parseGitTags in H as [line H].
  unfold parse_tag_line in H.
  destruct (List.length (split "|" line) <? 8)%nat; [discriminate|].
  injection H as <-. cbn [isAnnotated taggerName taggerEmail tag_message tagDate].
  split; [|split].
  - intros Ha. rewrite Ha. cbn [andb]. now repeat split.
  - destruct (_ && negb (String.eqb (nth 3 (split "|" line) EmptyString) EmptyString)) eqn:E;
      [|discriminate].
    apply andb_prop in E as [_ E]. apply negb_true_iff, String.eqb_neq in E.
    intros Hs. injection Hs as Hs. contradiction.
  - destruct (parseInt (nth 5 (split "|" line) EmptyString)) as [t|]; [|now left].
    destruct (0 <? t) eqn:Et; [|now left].
    right. exists t. split; [now apply Z.ltb_lt | reflexivity].
Qed.

Lemma parseGitTags_fields_witness :
  exists tg, In tg (parseGitTags ("v1|commit|abc1234|||1700000000||" ++ NL)) /\
    taggerName tg = None /\
    (tagDate tg = None \/ exists t, 0 < t /\ tagDate tg = Some (Date.make (t * 1000))).
Proof.
  exists (mkGitTag "v1" "abc1234" None None (Some (Date.make (1700000000 * 1000))) None false).
  assert (Hin : In (mkGitTag "v1" "abc1234" None None (Some (Date.make (1700000000 * 1000))) None false)
                   (parseGitTags ("v1|commit|abc1234|||1700000000||" ++ NL)))
    by (vm_compute; left; reflexivity).
  destruct (parseGitTags_fields _ _ Hin) as [Hl [_ Hd]].
  split; [exact Hin|]. split; [exact (proj1 (Hl eq_refl)) | exact Hd].
Defined.

Lemma split_go_bar : forall p rest,
  split_go (srev "|") ("|" ++ rest) (srev p) = p :: split_go (srev "|") rest EmptyString.
Proof. intros. simpl. now rewrite srev_involutive. Qed.

Lemma includes_char_false : forall c s,
  str_forallb (fun d => negb (Ascii.eqb c d)) s = true -> includes (String c EmptyString) s = false.
Proof. intros c s H. rewrite includes_single, H. reflexivity. Qed.

Lemma field_ok_bar : forall f, field_ok f = true -> includes "|" f = false.
Proof.
  intros f H. apply includes_char_false. revert H. apply str_forallb_impl.
  intros d Hd. now apply andb_prop in Hd as [Hd _].
Qed.

Lemma field_ok_nl : forall f, field_ok f = true ->
  str_forallb (fun d => negb (Ascii.eqb (ascii_of_nat 10) d)) f = true.
Proof.
  intros f H. revert H. apply str_forallb_impl.
  intros d Hd. now apply andb_prop in Hd as [_ Hd].
Qed.

Lemma strip_angles_wrap : forall e, strip_angles ("<" ++ e ++ ">") = e.
Proof.
  intros e. unfold strip_angles. cbn [append].
  rewrite srev_app. cbn [srev append]. apply srev_involutive.
Qed.

Lemma trim_end_empty_ws : forall t, trim_end t = EmptyString -> str_forallb is_ws t = true.
Proof.
  induction t as [|c t IH]; intros H; [reflexivity|].
  cbn [trim_end] in H. cbn [str_forallb].
  destruct (String.eqb (trim_end t) EmptyString) eqn:E; [|discriminate].
  destruct (is_ws c); [|discriminate].
  apply String.eqb_eq in E. now apply IH.
Qed.

Lemma trim_start_ws : forall s, str_forallb is_ws (trim_start s) = true -> str_forallb is_ws s = true.
Proof.
  induction s as [|c s IH]; intros H; [reflexivity|].
  cbn [trim_start] in H. cbn [str_forallb].
  destruct (is_ws c) eqn:Ec; [now apply IH | cbn [str_forallb] in H; now rewrite Ec in H].
Qed.

Lemma trim_empty_ws : forall s, trim s = EmptyString -> str_forallb is_ws s = true.
Proof. intros s H. apply trim_start_ws, trim_end_empty_ws, H. Qed.

Lemma tag_line_ok_fields : forall r, tag_line_ok r = true ->
  field_ok (tl_refname r) = true /\ field_ok (tl_objecttype r) = true /\
  field_ok (tl_objectname r) = true /\ field_ok (tl_taggername r) = true /\
  field_ok (tl_taggeremail r) = true /\ field_ok (tl_taggerdate r) = true /\
  field_ok (tl_subject r) = true /\ field_ok (tl_body r) = true.
Proof.
  intros r H. unfold tag_line_ok in H. cbn [forallb] in H.
  repeat match goal with
         | H : _ && _ = true |- _ => apply andb_prop in H as [? H]
         end.
  repeat split; assumption.
Qed.

Lemma taggeremail_field_ok : forall r, field_ok (tl_taggeremail r) = true ->
  field_ok (taggeremail_field r) = true.
Proof.
  intros r H. unfold taggeremail_field. destruct (String.eqb _ _); [|reflexivity].
  unfold field_ok in *. cbn [append str_forallb]. rewrite str_forallb_app. cbn [str_forallb].
  rewrite H. reflexivity.
Qed.

Lemma render_tag_line_split : forall r, tag_line_ok r = true ->
  split "|" (render_tag_line r)
  = [tl_refname r; tl_objecttype r; tl_objectname r; tl_taggername r;
     taggeremail_field r; tl_taggerdate r; tl_subject r; tl_body r].
Proof.
  intros r H. apply tag_line_ok_fields in H as [H1 [H2 [H3 [H4 [H5 [H6 [H7 H8]]]]]]].
  apply taggeremail_field_ok in H5.
  unfold split, render_tag_line.
  rewrite (split_piece "|" split_go_bar) by (now apply field_ok_bar).
  rewrite (split_piece "|" split_go_bar) by (now apply field_ok_bar).
  rewrite (split_piece "|" split_go_bar) by (now apply field_ok_bar).
  rewrite (split_piece "|" split_go_bar) by (now apply field_ok_bar).
  rewrite (split_piece "|" split_go_bar) by (now apply field_ok_bar).
  rewrite (split_piece "|" split_go_bar) by (now apply field_ok_bar).
  rewrite (split_piece "|" split_go_bar) by (now apply field_ok_bar).
  rewrite split_go_single by (now apply field_ok_bar).
  reflexivity.
Qed.

Lemma render_tag_line_no_nl : forall r, tag_line_ok r = true -> includes NL (render_tag_line r) = false.
Proof.
  intros r H. apply tag_line_ok_fields in H as [H1 [H2 [H3 [H4 [H5 [H6 [H7 H8]]]]]]].
  apply taggeremail_field_ok in H5.
  apply field_ok_nl in H1, H2, H3, H4, H5, H6, H7, H8.
  apply includes_char_false. unfold render_tag_line.
  repeat (rewrite !str_forallb_app; cbn [str_forallb append]).
  rewrite H1, H2, H3, H4, H5, H6, H7, H8. reflexivity.
Qed.

Lemma render_tag_line_not_blank : forall r, String.eqb (trim (render_tag_line r)) EmptyString = false.
Proof.
  intros r. apply String.eqb_neq. intros H. apply trim_empty_ws in H.
  unfold render_tag_line in H. rewrite str_forallb_app in H. cbn [str_forallb append] in H.
  rewrite andb_false_r in H. discriminate H.
Qed.

Lemma split_render_tag_lines : forall rows, forallb tag_line_ok rows = true ->
  split NL (render_tag_lines rows) = (map render_tag_line rows ++ [EmptyString])%list.
Proof.
  induction rows as [|r rows IH]; intros H; [reflexivity|].
  cbn [forallb] in H. apply andb_prop in H as [Hr H].
  unfold split in *. cbn [render_tag_lines fold_right]. fold (render_tag_lines rows).
  rewrite (split_piece NL split_go_NL) by (now apply render_tag_line_no_nl).
  rewrite IH by exact H. reflexivity.
Qed.

(** [parseGitTags] reads back what [git for-each-ref] prints: for lines
    whose fields hold neither [|] nor a newline, the e-mail field being
    [<e>] for a tag object and empty for a lightweight tag, it returns one
    tag per line, in order, with the ref name, the object name,
    [isAnnotated] true exactly for object type ["tag"], and, for an
    annotated tag, the tagger e-mail without its angle brackets (none for a
    lightweight tag). *)
Theorem parseGitTags_round_trip : forall rows, forallb tag_line_ok rows = true ->
  map (fun tg => (tagName tg, tag_sha tg, isAnnotated tg, taggerEmail tg))
      (parseGitTags (render_tag_lines rows))
  = map (fun r => (tl_refname r, tl_objectname r, String.eqb (tl_objecttype r) "tag",
                   if String.eqb (tl_objecttype r) "tag" then Some (tl_taggeremail r) else None))
        rows.
Proof.
  intros rows H. unfold parseGitTags. rewrite split_render_tag_lines by exact H.
  rewrite filter_app. cbn [filter]. replace (negb (String.eqb (trim EmptyString) EmptyString)) with false by reflexivity.
  rewrite app_nil_r.
  induction rows as [|r rows IH]; [reflexivity|].
  cbn [forallb] in H. apply andb_prop in H as [Hr H].
  cbn [map filter]. rewrite render_tag_line_not_blank. cbn [negb flat_map].
  unfold parse_tag_line at 1. rewrite (render_tag_line_split r Hr).
  cbn [List.length Nat.ltb Nat.leb nth]. cbn [app map].
  rewrite IH by exact H. f_equal.
  unfold taggeremail_field.
  destruct (String.eqb (tl_objecttype r) "tag"); cbn [andb negb]; [|reflexivity].
  replace (String.eqb ("<" ++ tl_taggeremail r ++ ">") EmptyString) with false by reflexivity.
  cbn [negb]. now rewrite strip_angles_wrap.
Qed.

Lemma parseGitTags_round_trip_witness :
  map (fun tg => (tagName tg, tag_sha tg, isAnnotated tg, taggerEmail tg))
      (parseGitTags (render_tag_lines
         [mkTagLine "v1.0" "tag" "abc1234" "Dev" "dev@x.com" "1700000000" "Release" "";
          mkTagLine "v0.9" "commit" "def5678" "" "" "" "" ""]))
  = [("v1.0", "abc1234", true, Some "dev@x.com"); ("v0.9", "def5678", false, None)].
Proof. apply parseGitTags_round_trip. vm_compute. reflexivity. Defined.

(* ================================================================== *)
(** * [getRepoInfo]'s repository name and [loadRepositoriesConfig] *)

Lemma includes_slash_srev : forall x, includes "/" (srev x) = includes "/" x.
Proof. intros x. now rewrite !includes_single, srev_forallb. Qed.

Lemma split_slash_prefix : forall x y rcur,
  exists pre, split_go (srev "/") (x ++ "/" ++ y) rcur = (pre ++ split_go (srev "/") y EmptyString)%list.
Proof.
  induction x as [|c x IH]; intros y rcur.
  - exists [srev rcur]. reflexivity.
  - cbn [append split_go].
    destruct (starts_with (srev "/") (String c rcur)).
    + destruct (IH y EmptyString) as [pre E]. cbn [append] in E. rewrite E.
      eexists (_ :: pre). reflexivity.
    + destruct (IH y (String c rcur)) as [pre E]. cbn [append] in E. rewrite E.
      now exists pre.
Qed.

Lemma split_slash_pieces : forall s rcur, includes "/" rcur = false ->
  Forall (fun x => includes "/" x = false) (split_go (srev "/") s rcur).
Proof.
  induction s as [|c s IH]; intros rcur H; cbn [split_go]; cbv zeta.
  - constructor; [now rewrite includes_slash_srev | constructor].
  - destruct (starts_with (srev "/") (String c rcur)) eqn:E.
    + constructor; [|apply IH; reflexivity].
      cbn [String.length sdrop]. now rewrite includes_slash_srev.
    + apply IH. cbn [includes]. change (srev "/") with "/" in E. now rewrite E, H.
Qed.

Lemma strip_slash_app : forall x, strip_trailing_slash (x ++ "/") = x.
Proof.
  intros x. unfold strip_trailing_slash. rewrite srev_app. cbn [srev append].
  apply srev_involutive.
Qed.

Lemma strip_keep : forall s c r, srev s = String c r -> c <> "/"%char ->
  strip_trailing_slash s = s.
Proof.
  intros s c r Hs Hc. unfold strip_trailing_slash. rewrite Hs.
  destruct c as [[] [] [] [] [] [] [] []]; reflexivity || (exfalso; apply Hc; reflexivity).
Qed.

Lemma slash_free_last : forall n, n <> EmptyString -> includes "/" n = false ->
  exists c r, srev n = String c r /\ c <> "/"%char.
Proof.
  intros n Hn Hf. rewrite <- includes_slash_srev in Hf.
  destruct (srev n) as [|c r] eqn:E.
  - exfalso. apply Hn. rewrite <- (srev_involutive n), E. reflexivity.
  - exists c, r. split; [reflexivity|].
    rewrite includes_single in Hf. cbn [str_forallb] in Hf.
    apply negb_false_iff, andb_prop in Hf as [Hc _].
    intros ->. discriminate Hc.
Qed.

Lemma nth_pred_last : forall (pre : list string) x,
  nth (pred (List.length (pre ++ [x]))) (pre ++ [x]) EmptyString = x.
Proof.
  intros pre x. rewrite length_app. cbn [List.length].
  replace (pred (List.length pre + 1)) with (List.length pre) by lia.
  rewrite app_nth2 by lia. now rewrite Nat.sub_diag.
Qed.

Lemma repo_name_of_after_slash : forall p n, includes "/" n = false ->
  strip_trailing_slash (p ++ "/" ++ n) = (p ++ "/" ++ n) -> repo_name_of (p ++ "/" ++ n) = n.
Proof.
  intros p n Hn Hs. unfold repo_name_of, split. rewrite Hs.
  destruct (split_slash_prefix p n EmptyString) as [pre E]. rewrite E.
  rewrite (split_go_single "/" n Hn). apply nth_pred_last.
Qed.

(** The repository name of [getRepoInfo] (the last [/]-separated part of
    the path after one trailing [/] is dropped) never contains a [/]; it is
    the empty string for a path ending in [//]; and for a non-empty last
    component [n] without [/] it is [n], with or without one trailing
    [/], and for a bare [n]. *)
Theorem repo_name_of_spec :
  (forall s, includes "/" (repo_name_of s) = false) /\
  (forall p, repo_name_of (p ++ "//") = EmptyString) /\
  (forall p n, n <> EmptyString -> includes "/" n = false ->
   repo_name_of (p ++ "/" ++ n) = n /\ repo_name_of (p ++ "/" ++ n ++ "/") = n /\
   repo_name_of n = n).
Proof.
  split; [|split].
  - intros s. unfold repo_name_of, split.
    pose proof (split_slash_pieces (strip_trailing_slash s) EmptyString eq_refl) as Hf.
    destruct (nth_in_or_default (pred (List.length (split_go (srev "/") (strip_trailing_slash s) EmptyString)))
                (split_go (srev "/") (strip_trailing_slash s) EmptyString) EmptyString) as [Hin|Hd].
    + rewrite Forall_forall in Hf. exact (Hf _ Hin).
    + now rewrite Hd.
  - intros p. unfold repo_name_of, split.
    replace (p ++ "//") with ((p ++ "/") ++ "/") by (now rewrite str_app_assoc).
    rewrite strip_slash_app.
    destruct (split_slash_prefix p EmptyString EmptyString) as [pre E].
    cbn [append] in E. rewrite E.
    apply (nth_pred_last pre EmptyString).
  - intros p n Hn Hf. destruct (slash_free_last n Hn Hf) as [c [r [Er Hc]]].
    assert (Hk : strip_trailing_slash (p ++ "/" ++ n) = p ++ "/" ++ n).
    { apply (strip_keep _ c ((r ++ srev "/") ++ srev p)); [|exact Hc].
      rewrite (srev_app p), srev_app, Er. reflexivity. }
    split; [|split].
    + now apply repo_name_of_after_slash.
    + unfold repo_name_of.
      replace (p ++ "/" ++ n ++ "/") with ((p ++ "/" ++ n) ++ "/")
        by (now rewrite !str_app_assoc).
      rewrite strip_slash_app, <- Hk. fold (repo_name_of (p ++ "/" ++ n)).
      now apply repo_name_of_after_slash.
    + unfold repo_name_of, split. rewrite (strip_keep n c r Er Hc).
      now rewrite (split_go_single "/" n Hf).
Qed.

Lemma repo_name_of_spec_witness :
  repo_name_of "/home/dev/git-etl/" = "git-etl" /\ repo_name_of "/home/dev/x//" = EmptyString.
Proof.
  destruct repo_name_of_spec as [_ [H2 H3]]. split.
  - exact (proj1 (proj2 (H3 "/home/dev" "git-etl" ltac:(discriminate) eq_refl))).
  - exact (H2 "/home/dev/x").
Defined.

Lemma set_of_list_go : forall xs acc, NoDup acc ->
  let out := fold_left (fun acc x => if existsb (String.eqb x) acc then acc else (acc ++ [x])%list)
                       xs acc in
  NoDup out /\ forall x, In x out <-> In x acc \/ In x xs.
Proof.
  induction xs as [|x0 xs IH]; intros acc Hd; cbv zeta.
  - split; [exact Hd|]. intros x. cbn. tauto.
  - cbn [fold_left].
    destruct (existsb (String.eqb x0) acc) eqn:E.
    + destruct (IH acc Hd) as [Hn Hi]. split; [exact Hn|].
      intros x. rewrite Hi. apply existsb_exists in E as [y [Hy Hxy]].
      apply String.eqb_eq in Hxy. subst y. cbn [In]. split; [tauto|].
      intros [H|[->|H]]; tauto.
    + assert (Hn0 : ~ In x0 acc).
      { intros Hin. assert (existsb (String.eqb x0) acc = true)
          by (apply existsb_exists; exists x0; split; [exact Hin | apply String.eqb_refl]).
        congruence. }
      destruct (IH (acc ++ [x0])%list (NoDup_snoc acc x0 Hd Hn0)) as [Hn Hi].
      split; [exact Hn|]. intros x. rewrite Hi, in_app_iff. cbn [In]. tauto.
Qed.

Lemma set_of_list_spec : forall xs,
  NoDup (set_of_list xs) /\ forall x, In x (set_of_list xs) <-> In x xs.
Proof.
  intros xs. destruct (set_of_list_go xs [] (NoDup_nil _)) as [Hn Hi].
  split; [exact Hn|]. intros x. unfold set_of_list. rewrite Hi. cbn [In]. tauto.
Qed.

(** The end of [loadRepositoriesConfig] throws exactly when no repository
    was collected; otherwise it returns the collected paths, each without
    one trailing [/], without duplicates, and without those the [ignore]
    list names (compared after the same [/] removal); it returns the empty
    list, without error, when every repository is ignored. *)
Theorem finish_repositories_spec : forall allRepos ignore,
  (allRepos = [] -> finish_repositories allRepos ignore
                    = inl "No repositories found. Config must have 'repositories' and/or 'paths' array") /\
  (allRepos <> [] -> exists out, finish_repositories allRepos ignore = inr out /\ NoDup out /\
     forall r, In r out <->
       In r (map strip_trailing_slash allRepos) /\
       match ignore with Some ig => ~ In r (map strip_trailing_slash ig) | None => True end).
Proof.
  intros allRepos ignore. split; [intros ->; reflexivity|].
  intros Hne. unfold finish_repositories.
  destruct allRepos as [|a0 rest]; [contradiction|].
  destruct (set_of_list_spec (map strip_trailing_slash (a0 :: rest))) as [Hn Hi].
  destruct ignore as [ig|].
  - eexists. split; [reflexivity|]. split; [now apply NoDup_filter|].
    intros r. rewrite filter_In, Hi, negb_true_iff.
    assert (Hx : existsb (String.eqb r) (map strip_trailing_slash ig) = false
                 <-> ~ In r (map strip_trailing_slash ig)).
    { split.
      - intros H Hin. assert (existsb (String.eqb r) (map strip_trailing_slash ig) = true)
          by (apply existsb_exists; exists r; split; [exact Hin | apply String.eqb_refl]).
        congruence.
      - intros H. apply not_true_iff_false. intros Hx.
        apply existsb_exists in Hx as [y [Hy Hry]]. apply String.eqb_eq in Hry. subst y.
        contradiction. }
    rewrite Hx. tauto.
  - eexists. split; [reflexivity|]. split; [exact Hn|]. intros r. rewrite Hi. tauto.
Qed.

Lemma finish_repositories_spec_witness :
  finish_repositories [] None
  = inl "No repositories found. Config must have 'repositories' and/or 'paths' array" /\
  exists out, finish_repositories ["/a/"; "/a"; "/b"] (Some ["/a/"; "/b/"]) = inr out /\
    NoDup out /\ ~ In "/a" out.
Proof.
  split; [exact (proj1 (finish_repositories_spec [] None) eq_refl)|].
  destruct (proj2 (finish_repositories_spec ["/a/"; "/a"; "/b"] (Some ["/a/"; "/b/"])) ltac:(discriminate))
    as [out [E [Hn Hi]]].
  exists out. split; [exact E|]. split; [exact Hn|].
  intros Hin. apply Hi in Hin as [_ Hig]. apply Hig. left. reflexivity.
Defined.

(* ================================================================== *)
(** * [getRepoLanguage] *)

Lemma ext_count_snoc : forall e fs f,
  ext_count e (fs ++ [f]) = (ext_count e fs +
    (if counted_file f && String.eqb (ext_of f) e then 1 else 0))%nat.
Proof.
  intros e fs f. unfold ext_count. rewrite filter_app, length_app. cbn [filter].
  destruct (counted_file f && String.eqb (ext_of f) e); reflexivity.
Qed.

Lemma ext_bump_other : forall x m e, x <> e -> assoc_get e (ext_bump x m) = assoc_get e m.
Proof.
  intros x m e Hx. unfold ext_bump.
  destruct (String.eqb x "__proto__"); [reflexivity|].
  apply assoc_get_set_neq. congruence.
Qed.

Lemma ext_bump_same : forall x m, x <> "__proto__" ->
  assoc_get x (ext_bump x m)
  = Some (match match assoc_get x m with
                | Some v => Some v
                | None => if String.eqb x "constructor"
                          then Some (CStr "function Object() { [native code] }") else None
                end with
          | None => CNum 1
          | Some (CNum n) => CNum (n + 1)
          | Some (CStr s) => CStr (s ++ "1")
          end).
Proof.
  intros x m Hx. unfold ext_bump.
  destruct (String.eqb_spec x "__proto__"); [contradiction|].
  apply assoc_get_set_eq.
Qed.

Lemma count_inv_nil : count_inv [] [].
Proof.
  split; [|split; [exact I | split; [reflexivity | constructor]]].
  intros e _ _. reflexivity.
Qed.

Lemma count_inv_step : forall m fs f, count_inv m fs -> count_inv (count_file m f) (fs ++ [f]).
Proof.
  intros m fs f [Hc [Hk [Hp Hn]]]. unfold count_file. cbv zeta.
  change (negb (String.eqb (ext_of f) EmptyString) && negb (String.eqb (ext_of f) f))
    with (counted_file f).
  destruct (counted_file f) eqn:Ecf.
  2: { split; [|split; [exact Hk | split; [exact Hp | exact Hn]]].
       intros e H1 H2. rewrite ext_count_snoc, Ecf. cbn [andb]. rewrite Nat.add_0_r.
       now apply Hc. }
  set (x := ext_of f) in *.
  assert (Hsnoc : forall e, ext_count e (fs ++ [f])
                            = (ext_count e fs + (if String.eqb x e then 1 else 0))%nat)
    by (intros e; rewrite ext_count_snoc, Ecf; reflexivity).
  split; [|split; [|split]].
  - intros e H1 H2. rewrite Hsnoc.
    destruct (String.eqb_spec x e) as [<-|Hxe].
    + rewrite (ext_bump_same x m H2). specialize (Hc x H1 H2).
      rewrite Hc. destruct (ext_count x fs =? 0)%nat eqn:E0.
      * apply Nat.eqb_eq in E0. rewrite E0. apply String.eqb_neq in H1. rewrite H1. reflexivity.
      * apply Nat.eqb_neq in E0.
        replace (ext_count x fs + 1 =? 0)%nat with false by (symmetry; apply Nat.eqb_neq; lia).
        f_equal. f_equal. lia.
    + rewrite Nat.add_0_r, (ext_bump_other x m e Hxe). now apply Hc.
  - destruct (String.eqb_spec x "constructor") as [Ex|Ex].
    + rewrite <- Ex. destruct (String.eqb_spec x "__proto__") as [Ep|Ep];
        [rewrite Ex in Ep; discriminate Ep|].
      rewrite (ext_bump_same x m Ep). rewrite Ex in *.
      destruct (assoc_get "constructor" m) as [[n|s]|]; [contradiction | exact I | exact I].
    + rewrite (ext_bump_other x m _ Ex). exact Hk.
  - destruct (String.eqb_spec x "__proto__") as [Ex|Ex].
    + unfold ext_bump. rewrite Ex. exact Hp.
    + rewrite (ext_bump_other x m _ Ex). exact Hp.
  - unfold ext_bump. destruct (String.eqb x "__proto__"); [exact Hn|].
    now apply assoc_set_nodup.
Qed.

Lemma count_inv_fold : forall files, count_inv (fold_left count_file files []) files.
Proof.
  intros files. rewrite <- (rev_involutive files).
  induction (rev files) as [|f rfs IH]; [exact count_inv_nil|].
  cbn [rev]. rewrite fold_left_app. cbn [fold_left]. now apply count_inv_step.
Qed.

Lemma in_insert_by_index : forall {V} (kv x : string * V) l,
  In x (insert_by_index kv l) <-> kv = x \/ In x l.
Proof.
  intros V kv x l. induction l as [|kv' l IH]; cbn [insert_by_index]; [reflexivity|].
  destruct (_ <=? _); cbn [In]; [reflexivity|]. rewrite IH. tauto.
Qed.

Lemma in_object_entries : forall {V} (m : list (string * V)) x,
  In x (object_entries m) <-> In x m.
Proof.
  intros V m x. unfold object_entries. rewrite in_app_iff.
  assert (Hf : forall l, In x (fold_right insert_by_index [] l) <-> In x l).
  { induction l as [|kv l IH]; cbn [fold_right]; [reflexivity|].
    rewrite in_insert_by_index, IH. reflexivity. }
  rewrite Hf, !filter_In. destruct (is_array_index (fst x)); cbn [negb]; intuition.
Qed.

Lemma select_fold : forall l acc,
  (fold_left select_step l acc = acc \/
   (In (snd (fold_left select_step l acc), CNum (fst (fold_left select_step l acc))) l /\
    language_truthy (snd (fold_left select_step l acc)) = true /\
    fst acc < fst (fold_left select_step l acc))) /\
  fst acc <= fst (fold_left select_step l acc) /\
  (forall k n, In (k, CNum n) l -> language_truthy k = true -> n <= fst (fold_left select_step l acc)).
Proof.
  induction l as [|[k v] l IH]; intros [mx pe]; cbn [fold_left].
  - split; [now left|]. split; [cbn; lia | intros k n []].
  - destruct (IH (select_step (mx, pe) (k, v))) as [Hr [Hm Hb]].
    remember (select_step (mx, pe) (k, v)) as acc1 eqn:E1.
    unfold select_step in E1. cbv beta iota zeta in E1.
    destruct (count_gt v mx && language_truthy k) eqn:Ef.
    + apply andb_prop in Ef as [Hg Ht]. destruct v as [n|s]; [|discriminate Hg].
      cbn [count_gt] in Hg. apply Z.ltb_lt in Hg. cbv beta iota in E1. subst acc1.
      cbn [fst snd] in *.
      split; [|split; [lia|]].
      * right. destruct Hr as [Hr|[Hin [Htr Hlt]]].
        -- rewrite Hr. cbn [fst snd]. split; [now left|]. split; [exact Ht | exact Hg].
        -- split; [now right|]. split; [exact Htr | lia].
      * intros k' n' [Hkv|Hin] Ht'; [|exact (Hb k' n' Hin Ht')].
        injection Hkv as -> ->. exact Hm.
    + cbv beta iota in E1. subst acc1. cbn [fst snd] in *.
      split; [|split; [exact Hm|]].
      * destruct Hr as [Hr|[Hin [Htr Hlt]]]; [now left|].
        right. split; [now right|]. split; [exact Htr | exact Hlt].
      * intros k' n' [Hkv|Hin] Ht'; [|exact (Hb k' n' Hin Ht')].
        injection Hkv as -> ->. rewrite Ht', andb_true_r in Ef.
        cbn [count_gt] in Ef. apply Z.ltb_ge in Ef. lia.
Qed.

Lemma languageMap_keys : forall e, In e (map fst languageMap) ->
  e <> "constructor" /\ e <> "__proto__" /\ exists lang, assoc_get e languageMap = Some lang.
Proof.
  intros e He. cbn in He.
  repeat (destruct He as [<-|He]; [split; [discriminate | split; [discriminate | eexists; reflexivity]]|]).
  destruct He.
Qed.

Lemma truthy_language : forall e, language_truthy e = true -> e <> "constructor" -> e <> "__proto__" ->
  exists lang, assoc_get e languageMap = Some lang.
Proof.
  intros e Ht H1 H2. unfold language_truthy in Ht.
  destruct (assoc_get e languageMap) as [lang|]; [now exists lang|].
  apply orb_prop in Ht as [Ht|Ht]; apply String.eqb_eq in Ht; contradiction.
Qed.

(** [getRepoLanguage] finds no language exactly when no listed file has
    one of the 17 known extensions; when it finds one, it is the language
    of a known extension that the most files have (extensions are compared
    one by one, so [ts] and [tsx] files are not added up). *)
Theorem getRepoLanguage_most_files : forall stdout,
  (getRepoLanguage stdout = None <->
   forall e, In e (map fst languageMap) -> ext_count e (split NL stdout) = 0%nat) /\
  (forall lang, getRepoLanguage stdout = Some lang ->
   exists e, assoc_get e languageMap = Some lang /\ (0 < ext_count e (split NL stdout))%nat /\
   forall e', In e' (map fst languageMap) ->
   (ext_count e' (split NL stdout) <= ext_count e (split NL stdout))%nat).
Proof.
  intros stdout. unfold getRepoLanguage. cbv zeta.
  set (files := split NL stdout).
  set (m := fold_left count_file files []).
  destruct (count_inv_fold files) as [Hc [Hk [Hp Hn]]]. fold m in Hc, Hk, Hp, Hn.
  destruct (select_fold (object_entries m) (0, EmptyString)) as [Hr [_ Hb]].
  destruct (fold_left select_step (object_entries m) (0, EmptyString)) as [mx pe].
  cbn [fst snd] in Hr, Hb.
  (* a known extension with files is an entry the selection looks at *)
  assert (Hent : forall e, In e (map fst languageMap) -> (0 < ext_count e files)%nat ->
                 (ext_count e files <= Z.to_nat mx)%nat).
  { intros e He Hpos. destruct (languageMap_keys e He) as [H1 [H2 [lang Hl]]].
    pose proof (Hc e H1 H2) as Hg.
    replace (ext_count e files =? 0)%nat with false in Hg by (symmetry; apply Nat.eqb_neq; lia).
    apply assoc_get_in, in_object_entries in Hg.
    assert (Ht : language_truthy e = true) by (unfold language_truthy; now rewrite Hl).
    pose proof (Hb e _ Hg Ht). lia. }
  destruct Hr as [Hr|[Hin [Ht Hlt]]].
  - injection Hr as -> ->. change (assoc_get EmptyString languageMap) with (@None string).
    split; [|intros ? Hs; discriminate Hs]. split; [intros _|intros _; reflexivity].
    intros e He. specialize (Hent e He). lia.
  - rewrite in_object_entries in Hin. pose proof (in_assoc_get pe _ m Hn Hin) as Hg.
    assert (H2 : pe <> "__proto__") by (intros ->; congruence).
    assert (H1 : pe <> "constructor") by (intros ->; rewrite Hg in Hk; exact Hk).
    destruct (truthy_language pe Ht H1 H2) as [lang Hl]. rewrite Hl.
    rewrite (Hc pe H1 H2) in Hg.
    destruct (ext_count pe files =? 0)%nat eqn:E0; [discriminate|].
    injection Hg as Hmx. apply Nat.eqb_neq in E0.
    split.
    + split; [discriminate|]. intros H. exfalso.
      assert (In pe (map fst languageMap)).
      { apply in_map_iff. exists (pe, lang). split; [reflexivity|].
        apply assoc_get_in, Hl. }
      specialize (H pe H0). contradiction.
    + intros lang' Hs. injection Hs as <-. exists pe. split; [exact Hl|]. split; [lia|].
      intros e' He'. destruct (ext_count e' files) eqn:Ec; [lia|].
      rewrite <- Ec. specialize (Hent e' He' ltac:(lia)). lia.
Qed.

Lemma getRepoLanguage_most_files_witness :
  getRepoLanguage ("a.ts" ++ NL ++ "b.TS" ++ NL ++ "c.tsx" ++ NL ++ "d.go" ++ NL) = Some "TypeScript" /\
  (0 < ext_count "ts" (split NL ("a.ts" ++ NL ++ "b.TS" ++ NL ++ "c.tsx" ++ NL ++ "d.go" ++ NL)))%nat.
Proof.
  destruct (getRepoLanguage ("a.ts" ++ NL ++ "b.TS" ++ NL ++ "c.tsx" ++ NL ++ "d.go" ++ NL))
    as [lang|] eqn:E.
  - destruct (proj2 (getRepoLanguage_most_files _) lang E) as [e [Hl [Hpos _]]].
    revert E. vm_compute. intros E. injection E as <-. split; [reflexivity|].
    vm_compute. lia.
  - vm_compute in E. discriminate.
Defined.
